(** * Weighted K-means with K-means++ seeding (kmeans/kmeans.py)

    A shallow embedding of [kmeans], [_kmeans_plusplus],
    [_distance_from_point], [_distance_from_points] and
    [_numba_rand_choice], and the properties of the clustering core
    established on it.

    Modelling choices.
    - Arrays are lists; a matrix is the list of its rows.
    - The element type of the arrays is a parameter ([Arith]): the
      development is instantiated with IEEE binary64 ([Float64], the
      kernel's primitive floats, which is what the program runs on) and
      with the real numbers ([Exact], the arithmetic the program
      approximates).
    - NumPy operations follow their documented behaviour, exceptions
      included ([result]): an index out of range, shapes that do not
      broadcast, an empty range to draw from raise, as they do when the
      functions run under the Python interpreter.  Reductions accumulate
      from left to right.
    - [np.random] is one process-wide generator.  Its state is threaded
      explicitly through every function that draws from it ([M]). *)

From Stdlib Require Import List ZArith Lia Bool PeanoNat.
From Stdlib Require PrimFloat SpecFloat FloatOps FloatAxioms.
From Stdlib Require Import Reals Lra.
Import ListNotations.

Set Implicit Arguments.

(** ** Exceptions *)

Inductive exn : Type :=
| ValueError
| IndexError
| OverflowError.

Inductive result (A : Type) : Type :=
| Ok (a : A)
| Raise (e : exn).

Arguments Ok {A} a.
Arguments Raise {A} e.

Definition rbind {A B} (r : result A) (k : A -> result B) : result B :=
  match r with
  | Ok a => k a
  | Raise e => Raise e
  end.

(** ** Element arithmetic *)

Class Arith (F : Type) : Type := {
  expo : Type;                 (* type of the exponent [alpha] *)
  zero : F;
  one : F;
  fadd : F -> F -> F;
  fsub : F -> F -> F;
  fmul : F -> F -> F;
  fdiv : F -> F -> F;
  fsqrt : F -> F;
  fpow : F -> expo -> F;       (* x ** alpha *)
  fabs : F -> F;
  feqb : F -> F -> bool;       (* x == y *)
  fltb : F -> F -> bool;       (* x < y *)
  rtol : F;                    (* 1e-05, np.allclose default *)
  atol : F                     (* 1e-08, np.allclose default *)
}.

(** ** The process-wide random generator *)

Class RandomState (F G : Type) : Type := {
  seed : Z -> G;                      (* state installed by np.random.seed *)
  next_index : nat -> G -> nat * G;   (* one uniform draw over range(n), n > 0 *)
  next_double : G -> F * G            (* one uniform draw in [0, 1) *)
}.

(** [int(np.log(k))] for an integer [k]: the truncation of the natural
    logarithm.  [np.log] gives [-inf] at 0 and [nan] below, which [int]
    refuses.  For [k >= 1] the value is the largest [m] with [e^m <= k],
    computed with a lower rational approximation of [e] (no integer lies
    between the approximation's powers and the powers of [e] in the range
    of array sizes). *)

Definition e_num : Z := 2718281828459045235.
Definition e_den : Z := 1000000000000000000.

Fixpoint floor_ln_from (fuel : nat) (m : Z) (k : Z) : Z :=
  match fuel with
  | O => m
  | S fuel' =>
      if (e_num ^ (m + 1) <=? k * e_den ^ (m + 1))%Z
      then floor_ln_from fuel' (m + 1)%Z k
      else m
  end.

Definition floor_ln (k : Z) : Z :=
  floor_ln_from (Z.to_nat (Z.log2 k)) 0%Z k.

Definition int_log (k : Z) : result Z :=
  if (k =? 0)%Z then Raise OverflowError
  else if (k <? 0)%Z then Raise ValueError
  else Ok (floor_ln k).

Section Numpy.

Context {F : Type} {AF : Arith F}.

Definition isnan (x : F) : bool := negb (feqb x x).

Definition isinf (x : F) : bool := negb (isnan x) && isnan (fsub x x).

(** [np.all(a == 0)] *)
Definition np_all_zero (a : list F) : bool :=
  forallb (fun x => feqb x zero) a.

Definition np_ones_like (a : list F) : list F := map (fun _ => one) a.

Definition np_sum (a : list F) : F := fold_left fadd a zero.

Fixpoint cumsum_from (acc : F) (a : list F) : list F :=
  match a with
  | [] => []
  | x :: a' => let c := fadd acc x in c :: cumsum_from c a'
  end.

Definition np_cumsum (a : list F) : list F := cumsum_from zero a.

(** [np.minimum]: a NaN operand wins. *)
Definition np_minimum (a b : F) : F :=
  if fltb a b || isnan a then a else b.

Definition np_clip (x lo hi : F) : F :=
  if fltb x lo then lo else if fltb hi x then hi else x.

(** Element order of [np.searchsorted] and of sorting: NaN goes last. *)
Definition lt_nan (a b : F) : bool :=
  fltb a b || (isnan b && negb (isnan a)).

(** [np.searchsorted(a, v)] (side = left) is a binary search. *)
Fixpoint bisect_left (fuel : nat) (a : list F) (v : F) (lo hi : nat) : nat :=
  match fuel with
  | O => lo
  | S fuel' =>
      if lo <? hi then
        let mid := lo + (hi - lo) / 2 in
        if lt_nan (nth mid a zero) v
        then bisect_left fuel' a v (S mid) hi
        else bisect_left fuel' a v lo mid
      else lo
  end.

Definition searchsorted1 (a : list F) (v : F) : nat :=
  bisect_left (length a) a v 0 (length a).

Definition np_searchsorted (a : list F) (vs : list F) : list nat :=
  map (searchsorted1 a) vs.

(** [np.argmin] of a vector: the first NaN if there is one, else the
    first least element; an empty vector is refused. *)
Fixpoint argmin_from (best_i : nat) (best : F) (i : nat) (a : list F) : nat :=
  match a with
  | [] => best_i
  | v :: a' =>
      if isnan v then i
      else if fltb v best then argmin_from i v (S i) a'
      else argmin_from best_i best (S i) a'
  end.

Definition np_argmin (a : list F) : result nat :=
  match a with
  | [] => Raise ValueError
  | v :: a' => if isnan v then Ok 0 else Ok (argmin_from 0 v 1 a')
  end.

(** One entry of [np.allclose] (rtol = 1e-05, atol = 1e-08, NaNs unequal). *)
Definition isclose (a b : F) : bool :=
  if isnan a || isnan b then false
  else if isinf a || isinf b then feqb a b
  else negb (fltb (fadd atol (fmul rtol (fabs b))) (fabs (fsub a b))).

Fixpoint all2 {A B} (p : A -> B -> bool) (l : list A) (l' : list B) : bool :=
  match l, l' with
  | [], [] => true
  | x :: t, y :: t' => p x y && all2 p t t'
  | _, _ => false
  end.

(** [np.allclose] of two matrices of the same shape. *)
Definition np_allclose (a b : list (list F)) : bool :=
  all2 (all2 isclose) a b.

(** Elementwise binary operation on two vectors, with broadcasting. *)
Definition broadcast2 (f : F -> F -> F) (a b : list F) : result (list F) :=
  if length a =? length b then Ok (map (fun p => f (fst p) (snd p)) (combine a b))
  else match a, b with
       | [x], _ => Ok (map (f x) b)
       | _, [y] => Ok (map (fun x => f x y) a)
       | _, _ => Raise ValueError
       end.

(** [a[mask]] for a boolean mask. *)
Fixpoint select {A} (a : list A) (mask : list bool) : list A :=
  match a, mask with
  | x :: a', b :: mask' => if b then x :: select a' mask' else select a' mask'
  | _, _ => []
  end.

Definition np_mask {A} (a : list A) (mask : list bool) : result (list A) :=
  if length a =? length mask then Ok (select a mask) else Raise IndexError.

(** [a[i]] *)
Definition np_get {A} (a : list A) (i : nat) : result A :=
  match nth_error a i with
  | Some x => Ok x
  | None => Raise IndexError
  end.

(** [a[idxs]] for an integer index array. *)
Fixpoint np_take {A} (a : list A) (idxs : list nat) : result (list A) :=
  match idxs with
  | [] => Ok []
  | i :: idxs' =>
      rbind (np_get a i) (fun x =>
      rbind (np_take a idxs') (fun xs => Ok (x :: xs)))
  end.

(** [a[i] = v] *)
Fixpoint set_nth {A} (a : list A) (i : nat) (v : A) : list A :=
  match a, i with
  | [], _ => []
  | _ :: a', O => v :: a'
  | x :: a', S i' => x :: set_nth a' i' v
  end.

Definition np_set {A} (a : list A) (i : nat) (v : A) : result (list A) :=
  if i <? length a then Ok (set_nth a i v) else Raise IndexError.

(** ** Distance engine *)

(** Distance between two points:
    [np.sqrt(np.sum(np.power(x - point, 2)))]. *)
Definition dist (x point : list F) : F :=
  fsqrt (np_sum (map (fun p => let d := fsub (fst p) (snd p) in fmul d d)
                     (combine x point))).

Definition _distance_from_point (X : list (list F)) (point : list F) : list F :=
  map (fun x => dist x point) X.

(** Entry (i, j) is the distance from sample i to point j. *)
Definition _distance_from_points (X points : list (list F)) : list (list F) :=
  map (fun x => map (fun p => dist x p) points) X.

End Numpy.

(** ** Computations that draw from the generator and may raise *)

Section Kmeans.

Context {F : Type} {AF : Arith F} {G : Type} {RS : RandomState F G}.

Definition M (A : Type) : Type := G -> result A * G.

Definition ret {A} (a : A) : M A := fun g => (Ok a, g).

Definition lift {A} (r : result A) : M A := fun g => (r, g).

Definition bind {A B} (m : M A) (k : A -> M B) : M B :=
  fun g =>
    match m g with
    | (Ok a, g') => k a g'
    | (Raise e, g') => (Raise e, g')
    end.

Notation "x <- c ;; k" := (bind c (fun x => k))
  (at level 61, c at next level, right associativity).

Fixpoint foldM {S A} (f : S -> A -> M S) (l : list A) (s : S) : M S :=
  match l with
  | [] => ret s
  | a :: l' => s' <- f s a ;; foldM f l' s'
  end.

(** [np.random.seed(s)]: the seed must fit 32 bits. *)
Definition valid_seed (s : Z) : bool := (0 <=? s)%Z && (s <? 2 ^ 32)%Z.

Definition np_random_seed (s : Z) : M unit :=
  fun g => if valid_seed s then (Ok tt, seed s) else (Raise ValueError, g).

(** [np.random.randint(low, high)] *)
Definition np_random_randint (low high : nat) : M nat :=
  fun g =>
    if high <=? low then (Raise ValueError, g)
    else let (i, g') := next_index (high - low) g in (Ok (low + i), g').

(** [np.random.rand(size)] *)
Fixpoint draw_doubles (n : nat) : M (list F) :=
  match n with
  | O => ret []
  | S n' =>
      fun g =>
        let (x, g') := next_double g in
        bind (draw_doubles n') (fun xs => ret (x :: xs)) g'
  end.

Definition np_random_rand (size : Z) : M (list F) :=
  if (size <? 0)%Z then lift (Raise ValueError)
  else draw_doubles (Z.to_nat size).

(** [np.zeros((rows, cols))] *)
Definition np_zeros2 (rows : Z) (cols : nat) : result (list (list F)) :=
  if (rows <? 0)%Z then Raise ValueError
  else Ok (repeat (repeat zero cols) (Z.to_nat rows)).

(** [np.argmin(m, axis=1)] *)
Fixpoint np_argmin_axis1 (m : list (list F)) : result (list nat) :=
  match m with
  | [] => Ok []
  | r :: m' =>
      rbind (np_argmin r) (fun i =>
      rbind (np_argmin_axis1 m') (fun rest => Ok (i :: rest)))
  end.

(** Column [j] of a matrix, and [np.sum(m, axis=0)] for [ncols] columns. *)
Definition column (j : nat) (m : list (list F)) : list F :=
  map (fun r => nth j r zero) m.

Definition np_sum_axis0 (ncols : nat) (m : list (list F)) : list F :=
  map (fun j => np_sum (column j m)) (seq 0 ncols).

(** [m.T] for a matrix with [ncols] columns. *)
Definition transpose (ncols : nat) (m : list (list F)) : list (list F) :=
  map (fun j => column j m) (seq 0 ncols).

Definition zip_with (f : F -> F -> F) (a b : list F) : list F :=
  map (fun p => f (fst p) (snd p)) (combine a b).

(** ** The categorical sampler *)

Definition _numba_rand_choice (size : Z) (probabilities : list F) : M (list nat) :=
  let p_cumsum := np_cumsum probabilities in
  rands <- np_random_rand size ;;
  ret (np_searchsorted p_cumsum rands).

(** ** Seeder *)

(** State carried by the seeding loop. *)
Record seeding : Type := Seeding {
  s_centroids : list (list F);
  s_distances : list F;
  s_distances_alpha : list F
}.

(** The score of every candidate: column sums of
    [np.minimum(distances[:, None], _distance_from_points(X, candidates))]. *)
Definition candidate_totals (X : list (list F)) (distances : list F)
    (candidates : list (list F)) : list F :=
  np_sum_axis0 (length candidates)
    (map (fun p => map (np_minimum (fst p)) (snd p))
         (combine distances (_distance_from_points X candidates))).

(** The distribution the candidates are drawn from: the scores, or ones
    if the scores sum to zero, divided by their sum, clipped to [0, 1] and
    divided by their sum again. *)
Definition selection_probabilities (distances_alpha : list F) : list F :=
  let sum_distances_alpha := np_sum distances_alpha in
  let degenerate := feqb sum_distances_alpha zero in
  let distances_alpha :=
    if degenerate then np_ones_like distances_alpha else distances_alpha in
  let sum_distances_alpha :=
    if degenerate then np_sum distances_alpha else sum_distances_alpha in
  let probabilities :=
    map (fun d => np_clip (fdiv d sum_distances_alpha) zero one) distances_alpha in
  let total := np_sum probabilities in
  map (fun p => fdiv p total) probabilities.

(** Body of [for k in range(1, n_clusters)]. *)
Definition seeding_step (X : list (list F)) (weights : list F) (alpha : expo)
    (n_local_trials : Z) (st : seeding) (k : nat) : M seeding :=
  let distances := s_distances st in
  let probabilities := selection_probabilities (s_distances_alpha st) in
  candidate_idxs <- _numba_rand_choice n_local_trials probabilities ;;
  candidates <- lift (np_take X candidate_idxs) ;;
  best <- lift (np_argmin (candidate_totals X distances candidates)) ;;
  best_candidate_idx <- lift (np_get candidates best) ;;
  centroids <- lift (np_set (s_centroids st) k best_candidate_idx) ;;
  centroid_k <- lift (np_get centroids k) ;;
  let new_distances := _distance_from_point X centroid_k in
  let distances := zip_with np_minimum distances new_distances in
  distances_alpha <-
    lift (broadcast2 fmul (map (fun d => fpow d alpha) distances) weights) ;;
  ret (Seeding centroids distances distances_alpha).

Definition _kmeans_plusplus (X : list (list F)) (weights : list F)
    (n_clusters : Z) (alpha : expo) : M (list (list F)) :=
  let n_samples := length X in
  let n_features := length (hd [] X) in
  log_k <- lift (int_log n_clusters) ;;
  let n_local_trials := (2 + log_k)%Z in
  let weights := if np_all_zero weights then np_ones_like weights else weights in
  centroids <- lift (np_zeros2 n_clusters n_features) ;;
  first_idx <- np_random_randint 0 n_samples ;;
  x0 <- lift (np_get X first_idx) ;;
  centroids <- lift (np_set centroids 0 x0) ;;
  centroid_0 <- lift (np_get centroids 0) ;;
  let distances := _distance_from_point X centroid_0 in
  distances_alpha <-
    lift (broadcast2 fmul (map (fun d => fpow d alpha) distances) weights) ;;
  st <- foldM (seeding_step X weights alpha n_local_trials)
              (seq 1 (Z.to_nat n_clusters - 1))
              (Seeding centroids distances distances_alpha) ;;
  ret (s_centroids st).

(** ** Optimizer *)

(** Body of [for k in range(n_clusters)]: row [k] of [new_centroids]. *)
Definition update_centroid (X : list (list F)) (weights : list F)
    (new_labels : list nat) (new_centroids : list (list F)) (k : nat)
    : M (list (list F)) :=
  let n_samples := length X in
  let n_features := length (hd [] X) in
  let mask := map (Nat.eqb k) new_labels in
  if existsb (fun b => b) mask then
    cluster_points <- lift (np_mask X mask) ;;
    cluster_weights <- lift (np_mask weights mask) ;;
    let weighted :=
      map (fun col => zip_with fmul col cluster_weights)
          (transpose n_features cluster_points) in
    let total := np_sum cluster_weights in
    let new_centroid := map (fun col => fdiv (np_sum col) total) weighted in
    lift (np_set new_centroids k new_centroid)
  else
    i <- np_random_randint 0 n_samples ;;
    x <- lift (np_get X i) ;;
    lift (np_set new_centroids k x).

(** The Assign phase. *)
Definition assign (X centroids : list (list F)) : result (list nat) :=
  np_argmin_axis1 (_distance_from_points X centroids).

(** The Update phase; [np.empty_like] is modelled by a zero matrix, every
    row of which the loop overwrites. *)
Definition update (X : list (list F)) (weights : list F) (n_clusters : Z)
    (centroids : list (list F)) (new_labels : list nat) : M (list (list F)) :=
  foldM (update_centroid X weights new_labels)
        (seq 0 (Z.to_nat n_clusters))
        (map (map (fun _ => zero)) centroids).

(** [for _ in range(max_iter)], with the state the loop carries. *)
Fixpoint lloyd (X : list (list F)) (weights : list F) (n_clusters : Z)
    (iters : nat) (centroids : list (list F)) (labels : list nat)
    : M (list (list F) * list nat) :=
  match iters with
  | O => ret (centroids, labels)
  | S iters' =>
      new_labels <- lift (assign X centroids) ;;
      new_centroids <- update X weights n_clusters centroids new_labels ;;
      if np_allclose centroids new_centroids
      then ret (centroids, labels)
      else lloyd X weights n_clusters iters' new_centroids new_labels
  end.

Definition kmeans (X : list (list F)) (weights : list F) (n_clusters : Z)
    (max_iter : Z) (alpha : expo) (random_state : option Z)
    : M (list (list F) * list nat) :=
  _ <- match random_state with
       | Some s => np_random_seed s
       | None => ret tt
       end ;;
  let n_samples := length X in
  let weights := if np_all_zero weights then np_ones_like weights else weights in
  centroids <- _kmeans_plusplus X weights n_clusters alpha ;;
  let labels := repeat 0 n_samples in
  lloyd X weights n_clusters (Z.to_nat max_iter) centroids labels.

End Kmeans.

(** ** A generator that replays given draws

    The state is the sequence of draws still to come; an exhausted
    sequence yields index 0 and the number zero. *)

Record tape (F : Type) : Type := Tape {
  t_index : list nat;
  t_double : list F
}.

Arguments Tape {F} t_index t_double.

Section Replay.

Context {F : Type} {AF : Arith F}.

Definition tape_next_index (n : nat) (t : tape F) : nat * tape F :=
  match t_index t with
  | [] => (0, t)
  | i :: rest => (i mod n, Tape rest (t_double t))
  end.

Definition tape_next_double (t : tape F) : F * tape F :=
  match t_double t with
  | [] => (zero, t)
  | x :: rest => (x, Tape (t_index t) rest)
  end.

(** [seeded s] is the sequence of draws that seed [s] produces. *)
Definition tape_random_state (seeded : Z -> tape F) : RandomState F (tape F) := {|
  seed := seeded;
  next_index := tape_next_index;
  next_double := tape_next_double
|}.

End Replay.

(** ** IEEE binary64 arithmetic *)

Module Float64.

Import PrimFloat.

(** [x ** n] for a non-negative integer exponent. *)
Fixpoint pow_nat (x : float) (n : nat) : float :=
  match n with
  | O => 1%float
  | S n' => (x * pow_nat x n')%float
  end.

#[export] Instance float_arith : Arith float :=
  @Build_Arith float
    nat                                (* expo *)
    0%float 1%float                    (* zero, one *)
    PrimFloat.add PrimFloat.sub PrimFloat.mul PrimFloat.div
    PrimFloat.sqrt
    pow_nat
    PrimFloat.abs
    PrimFloat.eqb PrimFloat.ltb
    0x1.4f8b588e368f1p-17%float        (* rtol = 1e-05 *)
    0x1.5798ee2308c3ap-27%float.       (* atol = 1e-08 *)

End Float64.

(** ** Exact arithmetic: the same program over the real numbers *)

Module Exact.

Definition Reqb (x y : R) : bool := if Req_dec_T x y then true else false.

Definition Rltb (x y : R) : bool := if Rlt_dec x y then true else false.

#[export] Instance real_arith : Arith R :=
  @Build_Arith R
    nat                                (* expo *)
    0%R 1%R                            (* zero, one *)
    Rplus Rminus Rmult Rdiv
    sqrt
    pow
    Rabs
    Reqb Rltb
    (1 / 100000)%R                     (* rtol = 1e-05 *)
    (1 / 100000000)%R.                 (* atol = 1e-08 *)

End Exact.

(** * Vocabulary of the statements *)

(** ** Laws of the comparison [<] used by the order-dependent results.
    Both IEEE comparison and the order of the reals satisfy them. *)

Class OrderLaws (F : Type) {AF : Arith F} : Prop := {
  fltb_trans : forall a b c : F,
    fltb a b = true -> fltb b c = true -> fltb a c = true;
  fltb_irrefl : forall a : F, fltb a a = false;
  fltb_number : forall a b : F,
    fltb a b = true -> isnan a = false /\ isnan b = false
}.

Arguments OrderLaws F {AF}.

(** What the generator owes its callers: a draw over [range(n)] is in
    [range(n)], ... *)
Definition index_in_range {F G : Type} {RS : RandomState F G} : Prop :=
  forall (n : nat) (g : G), 0 < n -> fst (next_index n g) < n.

(** ... and a uniform draw is below 1. *)
Definition unit_draws {F G : Type} {AF : Arith F} {RS : RandomState F G}
    : Prop :=
  forall g : G, fltb (fst (next_double g)) one = true.

(** The state of the generator once [kmeans] has dealt with its
    [random_state] argument. *)
Definition entry_state {F G : Type} {RS : RandomState F G}
    (random_state : option Z) (g : G) : G :=
  match random_state with
  | Some s => if valid_seed s then seed s else g
  | None => g
  end.

Definition has_shape {F : Type} (rows cols : nat) (m : list (list F)) : Prop :=
  length m = rows /\ Forall (fun r => length r = cols) m.

(** No label equals [k]: [np.any(new_labels == k)] is false. *)
Definition empty_cluster (new_labels : list nat) (k : nat) : Prop :=
  existsb (fun b => b) (map (Nat.eqb k) new_labels) = false.

(** The clusters below [n_clusters] that no label names, in increasing
    order. *)
Definition empty_clusters (new_labels : list nat) (n_clusters : Z)
    : list nat :=
  filter (fun k => negb (existsb (fun b => b) (map (Nat.eqb k) new_labels)))
         (seq 0 (Z.to_nat n_clusters)).

(** One draw over [range(n_samples)] for each cluster of [ks], in this
    order, from the generator state [g]: the clusters paired with the
    indices drawn for them, and the state the generator is left in. *)
Fixpoint reseed_draws {F G : Type} {RS : RandomState F G} (n_samples : nat)
    (ks : list nat) (g : G) : list (nat * nat) * G :=
  match ks with
  | [] => ([], g)
  | k :: ks' =>
      let drawn := next_index n_samples g in
      let rest := reseed_draws n_samples ks' (snd drawn) in
      ((k, fst drawn) :: fst rest, snd rest)
  end.

(** Sum over all points of min(running distance, distance to [c]). *)
Definition inertia_with {F : Type} {AF : Arith F} (X : list (list F))
    (distances : list F) (c : list F) : F :=
  np_sum (zip_with np_minimum distances (_distance_from_point X c)).

Module ExactVocabulary.

Import Exact.

(** Every weight multiplied by [c]. *)
Definition scale (c : R) (w : list R) : list R := map (Rmult c) w.

Definition scale_state (c : R) (st : seeding) : seeding :=
  Seeding (s_centroids st) (s_distances st) (scale c (s_distances_alpha st)).

Definition map_ok {G A B} (f : A -> B) (o : result A * G) : result B * G :=
  match o with
  | (Ok a, g) => (Ok (f a), g)
  | (Raise e, g) => (Raise e, g)
  end.

Definition nonneg (l : list R) : Prop := Forall (fun x => 0 <= x)%R l.

(** What the seeding loop maintains. *)
Definition seeding_inv (X : list (list R)) (rows : nat) (st : seeding) : Prop :=
  length (s_centroids st) = rows
  /\ length (s_distances st) = length X
  /\ nonneg (s_distances st)
  /\ length (s_distances_alpha st) = length X
  /\ nonneg (s_distances_alpha st).

(** Every entry of the matrix lies between [lo] and [hi]. *)
Definition within (lo hi : R) (m : list (list R)) : Prop :=
  Forall (Forall (fun x => lo <= x <= hi)%R) m.

(** The sum of weight * [f point] over points paired with their weights. *)
Fixpoint weighted_total (f : list R -> R) (points : list (list R))
    (weights : list R) : R :=
  match points, weights with
  | x :: points', w :: weights' =>
      (w * f x + weighted_total f points' weights')%R
  | _, _ => 0%R
  end.

(** The objective of k-means for given centroids and labels: the sum over
    the points of weight * squared distance to the centroid of the label. *)
Fixpoint cost (centroids X : list (list R)) (weights : list R)
    (labels : list nat) : R :=
  match X, weights, labels with
  | x :: X', w :: weights', l :: labels' =>
      (w * (dist x (nth l centroids []) * dist x (nth l centroids []))
       + cost centroids X' weights' labels')%R
  | _, _, _ => 0%R
  end.

End ExactVocabulary.

(** ** Further vocabulary *)

(** The weighted mean of points of [n_features] coordinates: for every
    column, the sum of weight * coordinate over the sum of the weights. *)
Definition weighted_mean {F : Type} {AF : Arith F} (n_features : nat)
    (points : list (list F)) (weights : list F) : list F :=
  map (fun col => fdiv (np_sum (zip_with fmul col weights)) (np_sum weights))
      (transpose n_features points).

(** The entries of [a] whose label is [k]: [a[new_labels == k]]. *)
Definition members {A : Type} (a : list A) (labels : list nat) (k : nat)
    : list A :=
  select a (map (Nat.eqb k) labels).

(** The weights the optimizer works with. *)
Definition effective_weights {F : Type} {AF : Arith F} (weights : list F)
    : list F :=
  if np_all_zero weights then np_ones_like weights else weights.

(** Any generator, made to count its draws: the state carries, beside the
    state of the generator, the number of draws made since it was seeded. *)
Definition counted {F G : Type} (RS : RandomState F G)
    : RandomState F (G * nat) := {|
  seed := fun s => (seed s, 0);
  next_index := fun n gc =>
    let (i, g') := next_index n (fst gc) in (i, (g', S (snd gc)));
  next_double := fun gc =>
    let (x, g') := next_double (fst gc) in (x, (g', S (snd gc)))
|}.

(** The comparison [<] is a strict weak order on numbers: an element
    between which and [a < b] no order is decided does not exist. *)
Class WeakOrderLaws (F : Type) {AF : Arith F} : Prop := {
  fltb_cotrans : forall a b c : F,
    fltb a b = true -> isnan c = false ->
    fltb a c = true \/ fltb c b = true
}.

Arguments WeakOrderLaws F {AF}.

(** * Sample inputs *)

Module Float64Samples.

Import PrimFloat Float64.

Local Open Scope float_scope.

(** Seed [s] replays: first index [s], then uniform draws 0.5. *)
Definition seeded (s : Z) : tape PrimFloat.float :=
  Tape [Z.to_nat s] [0.5; 0.5; 0.5; 0.5].

#[export] Instance float_rs :
  RandomState PrimFloat.float (tape PrimFloat.float) :=
  tape_random_state seeded.

(** Generator states: the first index drawn is 0 (resp. 1), the uniform
    draws are 0.5. *)
Definition g_first0 : tape PrimFloat.float := Tape [0%nat] [0.5; 0.5].
Definition g_first1 : tape PrimFloat.float := Tape [1%nat] [0.5; 0.5].

Definition one_point : list (list PrimFloat.float) := [[1]].
Definition two_points : list (list PrimFloat.float) := [[0]; [10]].
Definition three_points : list (list PrimFloat.float) := [[1]; [2]; [4]].
Definition quarter_probabilities : list PrimFloat.float := [0.25; 0.75].

(** An input on which the normalised selection distribution of the Seeder
    falls short of 1 in binary64, and a generator state whose second
    uniform draw is the largest double below 1. *)
Definition six_points : list (list PrimFloat.float) :=
  [[0]; [1]; [1]; [1]; [1]; [1]].
Definition six_weights : list PrimFloat.float := [1; 3; 10; 16; 17; 2].
Definition g_top : tape PrimFloat.float :=
  Tape [0%nat] [0.5; 0x1.fffffffffffffp-1].

End Float64Samples.

Module ExactSamples.

Import Exact.

Local Open Scope R_scope.

#[export] Instance real_rs : RandomState R (tape R) :=
  tape_random_state (fun s => Tape [Z.to_nat s] [1 / 2; 1 / 2]).

(** A generator that never runs dry: its state counts the draws made, a
    draw over [range(n)] is the count modulo [n], a uniform draw is 1/2. *)
Definition counter_rs : RandomState R nat := {|
  seed := fun s => Z.to_nat s;
  next_index := fun n g => (g mod n, S g);
  next_double := fun g => (1 / 2, S g)
|}.

End ExactSamples.

(** * Properties *)

(** ** Running a computation step by step *)

Section Monad.

Context {G : Type}.

Lemma bind_inv {A B} (m : M A) (k : A -> M B) (g g' : G) (b : B) :
  bind m k g = (Ok b, g') ->
  exists a g1, m g = (Ok a, g1) /\ k a g1 = (Ok b, g').
Proof.
  unfold bind. destruct (m g) as [[a|e] g1]; [eauto|discriminate].
Qed.

Lemma lift_inv {A} (r : result A) (g g' : G) (a : A) :
  lift r g = (Ok a, g') -> r = Ok a /\ g' = g.
Proof. unfold lift. intros [= -> ->]. auto. Qed.

Lemma ret_inv {A} (a b : A) (g g' : G) :
  ret a g = (Ok b, g') -> b = a /\ g' = g.
Proof. unfold ret. intros [= -> ->]. auto. Qed.

Lemma foldM_invariant {S A} (P : S -> Prop) (f : S -> A -> M (G:=G) S)
    (l : list A) :
  (forall s a g s' g', In a l -> P s -> f s a g = (Ok s', g') -> P s') ->
  forall s g s' g', P s -> foldM f l s g = (Ok s', g') -> P s'.
Proof.
  induction l as [|a l IH]; intros Hf s g s' g' Hs; simpl.
  - intros H. apply ret_inv in H. destruct H as [-> _]. exact Hs.
  - intros H. apply bind_inv in H. destruct H as (s1 & g1 & H1 & H2).
    eapply IH; [| |exact H2].
    + intros; eapply Hf; eauto. now right.
    + eapply Hf; eauto. now left.
Qed.

(** A completed loop passes through one state per element: the states
    (and generator states) before each step and after the last. *)
Lemma foldM_trace {St A} (f : St -> A -> M (G:=G) St) (l : list A)
    (d : A) (dflt : St * G) (s s' : St) (g g' : G) :
  foldM f l s g = (Ok s', g') ->
  exists trace : list (St * G),
    length trace = S (length l)
    /\ nth 0 trace dflt = (s, g)
    /\ nth (length l) trace dflt = (s', g')
    /\ forall i, i < length l ->
         f (fst (nth i trace dflt)) (nth i l d) (snd (nth i trace dflt))
         = (Ok (fst (nth (S i) trace dflt)), snd (nth (S i) trace dflt)).
Proof.
  revert s g. induction l as [|a l IH]; intros s g H; cbn [foldM] in H.
  - apply ret_inv in H. destruct H as [-> ->].
    exists [(s, g)]. repeat split. intros i Hi. inversion Hi.
  - apply bind_inv in H. destruct H as (s1 & g1 & H1 & H2).
    destruct (IH s1 g1 H2) as (trace & Hlen & H0 & Hlast & Hchain).
    exists ((s, g) :: trace). cbn [length nth].
    split; [now rewrite Hlen|]. split; [reflexivity|].
    split; [exact Hlast|].
    intros [|i] Hi; cbn [nth fst snd].
    + rewrite H0. exact H1.
    + apply Hchain. lia.
Qed.

End Monad.

(** ** Arrays: indexing and assignment *)

Section Arrays.

Context {A : Type}.

Lemma set_nth_length (a : list A) (i : nat) (v : A) :
  length (set_nth a i v) = length a.
Proof.
  revert i. induction a as [|x a IH]; intros [|i]; simpl; auto.
Qed.

Lemma set_nth_same (a : list A) (i : nat) (v d : A) :
  i < length a -> nth i (set_nth a i v) d = v.
Proof.
  revert i. induction a as [|x a IH]; intros [|i] Hi; simpl in *;
    try lia; auto. apply IH. lia.
Qed.

Lemma set_nth_other (a : list A) (i j : nat) (v d : A) :
  i <> j -> nth j (set_nth a i v) d = nth j a d.
Proof.
  revert i j. induction a as [|x a IH]; intros [|i] [|j] Hij; simpl;
    try congruence; auto.
Qed.

Lemma set_nth_Forall (P : A -> Prop) (a : list A) (i : nat) (v : A) :
  Forall P a -> P v -> Forall P (set_nth a i v).
Proof.
  intros Ha Hv. revert i.
  induction Ha as [|x a Hx Ha IH]; intros [|i]; simpl; auto.
Qed.

Lemma np_set_ok (a : list A) (i : nat) (v : A) :
  i < length a -> np_set a i v = Ok (set_nth a i v).
Proof.
  intros Hi. unfold np_set. apply Nat.ltb_lt in Hi. now rewrite Hi.
Qed.

Lemma np_set_inv (a a' : list A) (i : nat) (v : A) :
  np_set a i v = Ok a' -> i < length a /\ a' = set_nth a i v.
Proof.
  unfold np_set. destruct (i <? length a) eqn:E; [|discriminate].
  apply Nat.ltb_lt in E. intros [= <-]. auto.
Qed.

Lemma np_get_ok (a : list A) (i : nat) (d : A) :
  i < length a -> np_get a i = Ok (nth i a d).
Proof.
  intros Hi. unfold np_get.
  now rewrite (nth_error_nth' a d Hi).
Qed.

Lemma np_get_inv (a : list A) (i : nat) (x : A) :
  np_get a i = Ok x -> i < length a /\ In x a /\ forall d, nth i a d = x.
Proof.
  unfold np_get. destruct (nth_error a i) eqn:E; [|discriminate].
  intros [= <-]. split; [|split].
  - apply nth_error_Some. congruence.
  - eapply nth_error_In; eauto.
  - intros d. now apply nth_error_nth.
Qed.

Lemma np_take_inv (a : list A) (idxs : list nat) (xs : list A) :
  np_take a idxs = Ok xs ->
  length xs = length idxs
  /\ Forall (fun x => In x a) xs
  /\ Forall (fun i => i < length a) idxs
  /\ forall j d, j < length idxs -> nth j xs d = nth (nth j idxs 0) a d.
Proof.
  revert xs. induction idxs as [|i idxs IH]; intros xs; simpl.
  - intros [= <-]. repeat split; auto. simpl; lia.
  - destruct (np_get a i) as [x|] eqn:Ex; [|discriminate]. simpl.
    destruct (np_take a idxs) as [xs'|] eqn:Et; [|discriminate]. simpl.
    intros [= <-]. destruct (IH xs' eq_refl) as (Hl & Hin & Hb & Hn).
    apply np_get_inv in Ex. destruct Ex as (Hi & Hx & Hnth).
    repeat split; simpl; auto.
    intros [|j] d Hj; [now rewrite Hnth|apply Hn; lia].
Qed.

Lemma np_take_ok (a : list A) (idxs : list nat) :
  Forall (fun i => i < length a) idxs -> exists xs, np_take a idxs = Ok xs.
Proof.
  induction 1 as [|i idxs Hi _ [xs IH]]; simpl.
  - eauto.
  - destruct a as [|d a]; [simpl in Hi; lia|].
    rewrite np_get_ok with (d := d) by exact Hi. simpl. rewrite IH. simpl. eauto.
Qed.

End Arrays.

(** ** The weight fallback and the seeded generator *)

Section Frame.

Context {F : Type} {AF : Arith F} {G : Type} {RS : RandomState F G}.

Variables (X : list (list F)) (weights : list F) (n_clusters max_iter : Z).
Variable alpha : expo.

Lemma np_all_zero_true (w : list F) :
  Forall (fun x => feqb x zero = true) w -> np_all_zero w = true.
Proof.
  unfold np_all_zero. induction 1 as [|x w Hx _ IH]; simpl.
  - reflexivity.
  - now rewrite Hx, IH.
Qed.

Lemma np_ones_like_idem (w : list F) :
  np_ones_like (np_ones_like w) = np_ones_like w.
Proof. unfold np_ones_like. now rewrite map_map. Qed.

Lemma fallback_ones (w : list F) :
  Forall (fun x => feqb x zero = true) w ->
  (if np_all_zero w then np_ones_like w else w) =
  (if np_all_zero (np_ones_like w) then np_ones_like (np_ones_like w)
   else np_ones_like w).
Proof.
  intros Hw. rewrite (np_all_zero_true Hw), np_ones_like_idem.
  now destruct (np_all_zero (np_ones_like w)).
Qed.

(** C5. A weight vector whose entries are all zero gives the same outcome
    (centroids, labels, and generator state) as the all-ones vector of the
    same length, from the same generator state; the substitution is made
    at the entry of [kmeans] and again at the entry of [_kmeans_plusplus]. *)
Theorem zero_weights_same_as_ones (random_state : option Z) (g : G) :
  Forall (fun x => feqb x zero = true) weights ->
  kmeans X weights n_clusters max_iter alpha random_state g =
  kmeans X (np_ones_like weights) n_clusters max_iter alpha random_state g
  /\ _kmeans_plusplus X weights n_clusters alpha g =
     _kmeans_plusplus X (np_ones_like weights) n_clusters alpha g.
Proof.
  intros Hw. split.
  - unfold kmeans. now rewrite (fallback_ones Hw).
  - unfold _kmeans_plusplus. now rewrite (fallback_ones Hw).
Qed.

(** C6. Two calls with the same arguments and the same seed return the
    same centroids and labels (or raise the same exception), whatever
    state the generator was in before each call. *)
Theorem kmeans_reproducible (s : Z) (g1 g2 : G) :
  fst (kmeans X weights n_clusters max_iter alpha (Some s) g1) =
  fst (kmeans X weights n_clusters max_iter alpha (Some s) g2).
Proof.
  unfold kmeans, bind, np_random_seed.
  destruct (valid_seed s); reflexivity.
Qed.

(** C3 (amended). The state a call touches outside its arguments is the
    process-wide generator: a call with a (valid) seed [s] behaves, from
    any prior state, as the unseeded call started in the state [seed s],
    both in what it returns and in the state it leaves the generator in. *)
Theorem kmeans_seeded_frame (s : Z) (g : G) :
  valid_seed s = true ->
  kmeans X weights n_clusters max_iter alpha (Some s) g =
  kmeans X weights n_clusters max_iter alpha None (seed s).
Proof.
  intros Hs. unfold kmeans, bind, np_random_seed. now rewrite Hs.
Qed.

(** With fewer than one cluster, or with no points, the call raises before
    any distance is computed or any number drawn. *)
Lemma kmeans_raises_at_entry (random_state : option Z) (g : G) :
  (n_clusters < 1)%Z \/ X = [] ->
  exists e,
    kmeans X weights n_clusters max_iter alpha random_state g =
    (Raise e, entry_state random_state g).
Proof.
  intros Hbad.
  unfold kmeans, _kmeans_plusplus, bind, lift, int_log, np_zeros2,
    entry_state, np_random_seed.
  destruct random_state as [s|]; [destruct (valid_seed s)|];
    cbn [ret]; try (eexists; reflexivity);
    (destruct (n_clusters =? 0)%Z eqn:E0; [eexists; reflexivity|];
     destruct (n_clusters <? 0)%Z eqn:E1; [eexists; reflexivity|];
     destruct Hbad as [Hk|HX]; [lia|]; subst X; cbn;
     eexists; reflexivity).
Qed.

End Frame.

(** ** The comparison laws hold in both arithmetics *)

Module ExactLaws.

Import Exact.

Lemma Rltb_true (x y : R) : Rltb x y = true <-> (x < y)%R.
Proof. unfold Rltb. destruct (Rlt_dec x y); split; auto; discriminate. Qed.

Lemma Rltb_false (x y : R) : Rltb x y = false <-> (y <= x)%R.
Proof.
  unfold Rltb. destruct (Rlt_dec x y); split; auto; try discriminate; lra.
Qed.

Lemma Reqb_true (x y : R) : Reqb x y = true <-> x = y.
Proof. unfold Reqb. destruct (Req_dec_T x y); split; auto; discriminate. Qed.

Lemma Reqb_false (x y : R) : Reqb x y = false <-> x <> y.
Proof.
  unfold Reqb. destruct (Req_dec_T x y); split; auto; try discriminate.
  intros H; contradiction.
Qed.

Lemma real_isnan (x : R) : isnan x = false.
Proof.
  unfold isnan. cbn. unfold Reqb. destruct (Req_dec_T x x); [reflexivity|].
  congruence.
Qed.

Lemma real_order_laws : OrderLaws R.
Proof.
  split.
  - cbn. intros a b c Hab Hbc. apply Rltb_true in Hab, Hbc.
    apply Rltb_true. lra.
  - cbn. intros a. apply Rltb_false. lra.
  - intros a b _. split; apply real_isnan.
Qed.

End ExactLaws.

Module Float64Laws.

Import Float64 SpecFloat.

Lemma SFcompare_lt_trans (a b c : spec_float) :
  SFcompare a b = Some Lt -> SFcompare b c = Some Lt -> SFcompare a c = Some Lt.
Proof.
  destruct a as [sa|sa| |sa ma ea], b as [sb|sb| |sb mb eb],
           c as [sc|sc| |sc mc ec]; cbn;
    try discriminate; try reflexivity;
    try (destruct sa; discriminate); try (destruct sb; discriminate);
    try (destruct sc; discriminate);
    try (destruct sa, sb; discriminate); try (destruct sb, sc; discriminate);
    try (destruct sa, sc; (discriminate || reflexivity));
    try (destruct sa, sb, sc; (discriminate || reflexivity)).
  destruct sa, sb, sc; try discriminate; try reflexivity;
    fold (Pos.compare ma mb); fold (Pos.compare mb mc); fold (Pos.compare ma mc);
    destruct (Z.compare_spec ea eb), (Z.compare_spec eb ec),
             (Z.compare_spec ea ec); subst; try lia; try discriminate;
    try reflexivity;
    destruct (Pos.compare_spec ma mb), (Pos.compare_spec mb mc),
             (Pos.compare_spec ma mc); subst; cbn;
    try discriminate; try reflexivity; try lia.
Qed.

Lemma SFcompare_lt_irrefl (a : spec_float) : SFcompare a a <> Some Lt.
Proof.
  destruct a as [s|s| |s m e]; cbn; try discriminate.
  - destruct s; discriminate.
  - fold (Pos.compare m m). rewrite Z.compare_refl, Pos.compare_refl.
    destruct s; discriminate.
Qed.

Lemma SFcompare_lt_number (a b : spec_float) :
  SFcompare a b = Some Lt ->
  SFcompare a a = Some Eq /\ SFcompare b b = Some Eq.
Proof.
  assert (Hrefl : forall x, x <> S754_nan -> SFcompare x x = Some Eq).
  { intros [s|s| |s m e] Hx; cbn; try congruence.
    - now destruct s.
    - fold (Pos.compare m m). rewrite Z.compare_refl, Pos.compare_refl.
      now destruct s. }
  intros H. split; apply Hrefl; intros Hx; rewrite Hx in H; cbn in H.
  - discriminate.
  - destruct a; discriminate.
Qed.

Lemma float_ltb_compare (x y : PrimFloat.float) :
  PrimFloat.ltb x y = true <->
  SFcompare (FloatOps.Prim2SF x) (FloatOps.Prim2SF y) = Some Lt.
Proof.
  rewrite FloatAxioms.ltb_spec. unfold SFltb.
  destruct (SFcompare _ _) as [[| |]|]; split; congruence.
Qed.

Lemma float_eqb_compare (x y : PrimFloat.float) :
  PrimFloat.eqb x y = true <->
  SFcompare (FloatOps.Prim2SF x) (FloatOps.Prim2SF y) = Some Eq.
Proof.
  rewrite FloatAxioms.eqb_spec. unfold SFeqb.
  destruct (SFcompare _ _) as [[| |]|]; split; congruence.
Qed.

Lemma float_order_laws : OrderLaws PrimFloat.float.
Proof.
  split.
  - cbn. intros a b c Hab Hbc. apply float_ltb_compare in Hab, Hbc.
    apply float_ltb_compare. eapply SFcompare_lt_trans; eauto.
  - cbn. intros a. destruct (PrimFloat.ltb a a) eqn:E; [|reflexivity].
    apply float_ltb_compare in E. now apply SFcompare_lt_irrefl in E.
  - intros a b Hab. cbn in Hab. apply float_ltb_compare in Hab.
    apply SFcompare_lt_number in Hab. destruct Hab as [Ha Hb].
    unfold isnan; cbn. apply float_eqb_compare in Ha, Hb.
    now rewrite Ha, Hb.
Qed.

End Float64Laws.

(** ** The categorical sampler *)

Section Sampler.

Context {F : Type} {AF : Arith F} {G : Type} {RS : RandomState F G}.

Lemma bisect_left_bounds (a : list F) (v : F) (fuel lo hi : nat) :
  lo <= hi -> lo <= bisect_left fuel a v lo hi <= hi.
Proof.
  revert lo hi. induction fuel as [|fuel IH]; intros lo hi Hle; cbn [bisect_left].
  - lia.
  - destruct (lo <? hi) eqn:Hlt; [|lia].
    apply Nat.ltb_lt in Hlt.
    assert (Hmid : lo <= lo + (hi - lo) / 2 < hi).
    { split; [lia|].
      assert ((hi - lo) / 2 < hi - lo) by (apply Nat.div_lt; lia). lia. }
    destruct (lt_nan _ v).
    + specialize (IH (S (lo + (hi - lo) / 2)) hi). lia.
    + specialize (IH lo (lo + (hi - lo) / 2)). lia.
Qed.

(** The search ends at [hi] only after finding the last probed entry,
    the one at [hi - 1], below the key. *)
Lemma bisect_left_top (a : list F) (v : F) (fuel lo hi : nat) :
  lo < hi ->
  bisect_left fuel a v lo hi = hi ->
  lt_nan (nth (hi - 1) a zero) v = true.
Proof.
  revert lo hi. induction fuel as [|fuel IH]; intros lo hi Hlt; cbn [bisect_left].
  - lia.
  - destruct (lo <? hi) eqn:E; [|apply Nat.ltb_ge in E; lia].
    assert (Hmid : lo <= lo + (hi - lo) / 2 < hi).
    { split; [lia|].
      assert ((hi - lo) / 2 < hi - lo) by (apply Nat.div_lt; lia). lia. }
    destruct (lt_nan (nth (lo + (hi - lo) / 2) a zero) v) eqn:Hprobe; intros Hres.
    + destruct (Nat.eq_dec (S (lo + (hi - lo) / 2)) hi) as [Heq|Hne].
      * replace (hi - 1) with (lo + (hi - lo) / 2) by lia. exact Hprobe.
      * apply (IH (S (lo + (hi - lo) / 2)) hi); [lia|exact Hres].
    + pose proof (@bisect_left_bounds a v fuel lo (lo + (hi - lo) / 2)). lia.
Qed.

(** With enough fuel the loop has run to completion: more fuel changes
    nothing. *)
Lemma bisect_left_fuel (a : list F) (v : F) (fuel lo hi : nat) :
  hi - lo <= fuel ->
  bisect_left (S fuel) a v lo hi = bisect_left fuel a v lo hi.
Proof.
  revert lo hi. induction fuel as [|fuel IH]; intros lo hi Hf.
  - cbn [bisect_left].
    destruct (lo <? hi) eqn:E; [apply Nat.ltb_lt in E; lia|reflexivity].
  - change (bisect_left (S (S fuel)) a v lo hi) with
      (if lo <? hi then
         if lt_nan (nth (lo + (hi - lo) / 2) a zero) v
         then bisect_left (S fuel) a v (S (lo + (hi - lo) / 2)) hi
         else bisect_left (S fuel) a v lo (lo + (hi - lo) / 2)
       else lo).
    change (bisect_left (S fuel) a v lo hi) with
      (if lo <? hi then
         if lt_nan (nth (lo + (hi - lo) / 2) a zero) v
         then bisect_left fuel a v (S (lo + (hi - lo) / 2)) hi
         else bisect_left fuel a v lo (lo + (hi - lo) / 2)
       else lo).
    destruct (lo <? hi) eqn:E; [|reflexivity].
    apply Nat.ltb_lt in E.
    assert ((hi - lo) / 2 < hi - lo) by (apply Nat.div_lt; lia).
    destruct (lt_nan _ v); apply IH; lia.
Qed.

Lemma cumsum_from_length (a : list F) (acc : F) :
  length (cumsum_from acc a) = length a.
Proof. revert acc. induction a; intros; simpl; auto. Qed.

Lemma cumsum_from_last (a : list F) (acc : F) :
  a <> [] ->
  nth (length a - 1) (cumsum_from acc a) zero = fold_left fadd a acc.
Proof.
  revert acc. induction a as [|x a IH]; intros acc Hne; [congruence|].
  destruct a as [|y a]; [reflexivity|].
  specialize (IH (fadd acc x) ltac:(discriminate)).
  simpl in *. rewrite Nat.sub_0_r in IH. exact IH.
Qed.

Lemma searchsorted1_le (a : list F) (v : F) : searchsorted1 a v <= length a.
Proof. unfold searchsorted1. apply bisect_left_bounds. lia. Qed.

Lemma searchsorted1_in_bounds {OL : OrderLaws F} (p : list F) (r : F) :
  p <> [] ->
  fltb r (np_sum p) = true ->
  searchsorted1 (np_cumsum p) r < length p.
Proof.
  intros Hne Hr.
  pose proof (searchsorted1_le (np_cumsum p) r) as Hle.
  unfold np_cumsum in *. rewrite cumsum_from_length in Hle.
  destruct (Nat.eq_dec (searchsorted1 (cumsum_from zero p) r) (length p))
    as [Heq|]; [exfalso|lia].
  unfold searchsorted1 in Heq. rewrite cumsum_from_length in Heq.
  apply bisect_left_top in Heq; [|destruct p; simpl; [congruence|lia]].
  rewrite cumsum_from_last in Heq by exact Hne.
  fold (np_sum p) in Heq. unfold lt_nan in Heq.
  destruct (fltb_number _ _ Hr) as [Hr_num _].
  rewrite Hr_num, Bool.andb_false_l, Bool.orb_false_r in Heq.
  pose proof (fltb_trans _ _ _ Hr Heq) as Hrr.
  rewrite fltb_irrefl in Hrr. discriminate.
Qed.

Lemma draw_doubles_length (n : nat) (g g' : G) (rands : list F) :
  draw_doubles n g = (Ok rands, g') -> length rands = n.
Proof.
  revert g g' rands. induction n as [|n IH]; intros g g' rands; simpl.
  - unfold ret. intros [= <- _]. reflexivity.
  - destruct (next_double g) as [x g1]. unfold bind.
    destruct (draw_doubles n g1) as [[xs|e] g2] eqn:E; unfold ret.
    + intros [= <- _]. simpl. f_equal. eapply IH; eauto.
    + discriminate.
Qed.

Lemma draw_doubles_ok (n : nat) (g : G) :
  exists rands g', draw_doubles n g = (Ok rands, g').
Proof.
  revert g. induction n as [|n IH]; intros g; simpl.
  - unfold ret. eauto.
  - destruct (next_double g) as [x g1]. unfold bind.
    destruct (IH g1) as (xs & g2 & ->). unfold ret. eauto.
Qed.

(** For a vector whose sum, accumulated from left to right, is exactly 1
    and a positive number of draws, each uniform draw being below 1, the
    sampler returns that many indices, every one of them a valid index of
    the vector; so indexing a point set with as many rows as the vector by
    these indices stays in bounds.  The vectors the Seeder passes sum to 1
    in exact arithmetic; in binary64 they need not. *)
Theorem rand_choice_in_bounds {OL : OrderLaws F}
    (size : Z) (probabilities rands : list F) (g g' : G) :
  (0 < size)%Z ->
  np_sum probabilities = one ->
  feqb one zero = false ->
  np_random_rand size g = (Ok rands, g') ->
  Forall (fun r => fltb r one = true) rands ->
  exists idxs,
    _numba_rand_choice size probabilities g = (Ok idxs, g')
    /\ length idxs = Z.to_nat size
    /\ Forall (fun i => i < length probabilities) idxs
    /\ forall X : list (list F),
         length X = length probabilities ->
         exists candidates,
           np_take X idxs = Ok candidates
           /\ length candidates = length idxs.
Proof.
  intros Hsize Hsum Hone Hdraw Hunit.
  assert (Hne : probabilities <> []).
  { intros ->. unfold np_sum in Hsum. simpl in Hsum.
    assert (Hz : isnan (F:=F) one = false).
    { destruct rands as [|r rands].
      - unfold np_random_rand in Hdraw.
        destruct (size <? 0)%Z; [discriminate|].
        apply draw_doubles_length in Hdraw. simpl in Hdraw. lia.
      - inversion Hunit as [|? ? Hr _]; subst.
        now destruct (fltb_number _ _ Hr). }
    unfold isnan in Hz. rewrite <- Hsum in Hz at 2.
    rewrite Hone in Hz. discriminate. }
  exists (np_searchsorted (np_cumsum probabilities) rands).
  unfold _numba_rand_choice, bind. rewrite Hdraw. unfold ret.
  assert (Hlen : length (np_searchsorted (np_cumsum probabilities) rands)
                 = Z.to_nat size).
  { unfold np_searchsorted. rewrite length_map.
    unfold np_random_rand in Hdraw.
    destruct (size <? 0)%Z; [discriminate|].
    now apply draw_doubles_length in Hdraw. }
  assert (Hin : Forall (fun i => i < length probabilities)
                  (np_searchsorted (np_cumsum probabilities) rands)).
  { unfold np_searchsorted. rewrite Forall_map.
    eapply Forall_impl; [|exact Hunit]. cbv beta. intros r Hr.
    apply searchsorted1_in_bounds; [exact Hne|now rewrite Hsum]. }
  split; [reflexivity|]. split; [exact Hlen|]. split; [exact Hin|].
  intros X HX. rewrite <- HX in Hin.
  destruct (np_take_ok X Hin) as [candidates Ht].
  exists candidates. split; [exact Ht|].
  now apply np_take_inv in Ht.
Qed.

End Sampler.

(** ** Shapes of the results *)

Section Shapes.

Context {F : Type} {AF : Arith F} {G : Type} {RS : RandomState F G}.

Lemma has_shape_set (rows cols : nat) (m m' : list (list F)) (k : nat)
    (v : list F) :
  has_shape rows cols m -> length v = cols -> np_set m k v = Ok m' ->
  has_shape rows cols m'.
Proof.
  intros [Hl Hr] Hv H. apply np_set_inv in H. destruct H as [_ ->].
  split; [now rewrite set_nth_length|now apply set_nth_Forall].
Qed.

Lemma argmin_from_lt (a : list F) (best_i i : nat) (best : F) :
  best_i < i -> argmin_from best_i best i a < i + length a.
Proof.
  revert best_i i best. induction a as [|v a IH]; intros best_i i best Hb;
    simpl.
  - lia.
  - destruct (isnan v); [lia|].
    destruct (fltb v best).
    + specialize (IH i (S i) v). lia.
    + specialize (IH best_i (S i) best). lia.
Qed.

Lemma np_argmin_lt (a : list F) (i : nat) :
  np_argmin a = Ok i -> i < length a.
Proof.
  destruct a as [|v a]; simpl; [discriminate|].
  destruct (isnan v); intros [= <-]; [lia|].
  pose proof (@argmin_from_lt a 0 1 v). lia.
Qed.

Lemma np_argmin_axis1_inv (m : list (list F)) (cols : nat) (labels : list nat) :
  Forall (fun r => length r = cols) m ->
  np_argmin_axis1 m = Ok labels ->
  length labels = length m /\ Forall (fun l => l < cols) labels.
Proof.
  intros Hm. revert labels.
  induction Hm as [|r m Hr _ IH]; intros labels; simpl.
  - intros [= <-]. auto.
  - destruct (np_argmin r) as [i|] eqn:Ei; [|discriminate]. simpl.
    destruct (np_argmin_axis1 m) as [rest|]; [|discriminate]. simpl.
    intros [= <-]. destruct (IH rest eq_refl) as [Hl Hb].
    apply np_argmin_lt in Ei. split; simpl; [congruence|].
    constructor; [lia|exact Hb].
Qed.

Lemma assign_inv (X centroids : list (list F)) (labels : list nat) :
  assign X centroids = Ok labels ->
  length labels = length X /\ Forall (fun l => l < length centroids) labels.
Proof.
  unfold assign, _distance_from_points. intros H.
  apply np_argmin_axis1_inv with (cols := length centroids) in H.
  - now rewrite length_map in H.
  - rewrite Forall_map. apply Forall_forall. intros x _.
    now rewrite length_map.
Qed.

Variables (X : list (list F)) (n_features : nat).

Hypothesis X_rect : Forall (fun r => length r = n_features) X.

Lemma hd_X_length : X <> [] -> length (hd [] X) = n_features.
Proof.
  destruct X as [|x X']; [congruence|]. intros _.
  now inversion X_rect.
Qed.

Lemma row_of_X (x : list F) : In x X -> length x = n_features.
Proof. intros H. now apply (proj1 (Forall_forall _ _) X_rect). Qed.

Lemma seeding_step_shape (weights : list F) (alpha : expo) (n_local_trials : Z) (rows : nat)
    (st st' : seeding) (k : nat) (g g' : G) :
  has_shape rows n_features (s_centroids st) ->
  seeding_step X weights alpha n_local_trials st k g = (Ok st', g') ->
  has_shape rows n_features (s_centroids st').
Proof.
  intros Hst H. unfold seeding_step in H.
  apply bind_inv in H. destruct H as (idxs & g1 & _ & H).
  apply bind_inv in H. destruct H as (cands & g2 & Hc & H).
  apply lift_inv in Hc. destruct Hc as [Hc ->].
  apply bind_inv in H. destruct H as (best & g3 & _ & H).
  apply bind_inv in H. destruct H as (bc & g4 & Hb & H).
  apply lift_inv in Hb. destruct Hb as [Hb ->].
  apply bind_inv in H. destruct H as (cs & g5 & Hs & H).
  apply lift_inv in Hs. destruct Hs as [Hs ->].
  apply bind_inv in H. destruct H as (ck & g6 & _ & H).
  apply bind_inv in H. destruct H as (da & g7 & _ & H).
  apply ret_inv in H. destruct H as [-> _]. cbn [s_centroids].
  eapply has_shape_set; [exact Hst| |exact Hs].
  apply np_take_inv in Hc. destruct Hc as (_ & Hin & _).
  apply np_get_inv in Hb. destruct Hb as (_ & Hb & _).
  apply row_of_X. exact (proj1 (Forall_forall _ _) Hin _ Hb).
Qed.

Lemma kmeans_plusplus_shape (weights : list F) (n_clusters : Z) (alpha : expo)
    (centroids : list (list F)) (g g' : G) :
  _kmeans_plusplus X weights n_clusters alpha g = (Ok centroids, g') ->
  has_shape (Z.to_nat n_clusters) n_features centroids.
Proof.
  intros H. unfold _kmeans_plusplus in H.
  apply bind_inv in H. destruct H as (log_k & g1 & _ & H).
  apply bind_inv in H. destruct H as (c0 & g2 & Hz & H).
  apply lift_inv in Hz. destruct Hz as [Hz ->].
  apply bind_inv in H. destruct H as (first_idx & g3 & _ & H).
  apply bind_inv in H. destruct H as (x0 & g4 & Hx & H).
  apply lift_inv in Hx. destruct Hx as [Hx ->].
  apply bind_inv in H. destruct H as (c1 & g5 & Hs & H).
  apply lift_inv in Hs. destruct Hs as [Hs ->].
  apply bind_inv in H. destruct H as (ck & g6 & _ & H).
  apply bind_inv in H. destruct H as (da & g7 & _ & H).
  apply bind_inv in H. destruct H as (st & g8 & Hf & H).
  apply ret_inv in H. destruct H as [-> _].
  apply np_get_inv in Hx. destruct Hx as (_ & Hx & _).
  assert (HX : X <> []) by (intros E; rewrite E in Hx; inversion Hx).
  unfold np_zeros2 in Hz. destruct (n_clusters <? 0)%Z; [discriminate|].
  injection Hz as <-.
  assert (H1 : has_shape (Z.to_nat n_clusters) n_features c1).
  { eapply has_shape_set; [|apply row_of_X; exact Hx|exact Hs].
    split; [apply repeat_length|].
    apply Forall_forall. intros r Hr. apply repeat_spec in Hr. subst r.
    rewrite repeat_length. apply hd_X_length. exact HX. }
  revert Hf. apply foldM_invariant with
    (P := fun st => has_shape (Z.to_nat n_clusters) n_features (s_centroids st)).
  - intros s a ga s' ga' _ Hs' Hstep. eapply seeding_step_shape; eauto.
  - exact H1.
Qed.

Lemma update_centroid_shape (weights : list F) (rows : nat) (new_labels : list nat)
    (nc nc' : list (list F)) (k : nat) (g g' : G) :
  X <> [] ->
  has_shape rows n_features nc ->
  update_centroid X weights new_labels nc k g = (Ok nc', g') ->
  has_shape rows n_features nc'.
Proof.
  intros HX Hnc H. unfold update_centroid in H.
  destruct (existsb (fun b => b) (map (Nat.eqb k) new_labels)).
  - apply bind_inv in H. destruct H as (cp & g1 & _ & H).
    apply bind_inv in H. destruct H as (cw & g2 & _ & H).
    apply lift_inv in H. destruct H as [H _].
    eapply has_shape_set; [exact Hnc| |exact H].
    unfold transpose. rewrite !length_map, length_seq.
    apply hd_X_length. exact HX.
  - apply bind_inv in H. destruct H as (i & g1 & _ & H).
    apply bind_inv in H. destruct H as (x & g2 & Hx & H).
    apply lift_inv in Hx. destruct Hx as [Hx ->].
    apply lift_inv in H. destruct H as [H _].
    eapply has_shape_set; [exact Hnc| |exact H].
    apply np_get_inv in Hx. apply row_of_X. tauto.
Qed.

Lemma update_shape (weights : list F) (n_clusters : Z) (rows : nat) (new_labels : list nat)
    (centroids nc : list (list F)) (g g' : G) :
  X <> [] ->
  has_shape rows n_features centroids ->
  update X weights n_clusters centroids new_labels g = (Ok nc, g') ->
  has_shape rows n_features nc.
Proof.
  intros HX [Hl Hr] H. unfold update in H. revert H.
  apply foldM_invariant with (P := has_shape rows n_features).
  - intros s a ga s' ga' _ Hs Hstep. eapply update_centroid_shape; eauto.
  - split; [now rewrite length_map|].
    rewrite Forall_map. eapply Forall_impl; [|exact Hr].
    cbv beta. intros r Hlen. now rewrite length_map.
Qed.

Lemma lloyd_shape (weights : list F) (n_clusters : Z) (rows iters : nat)
    (centroids : list (list F)) (labels : list nat)
    (centroids' : list (list F)) (labels' : list nat) (g g' : G) :
  X <> [] ->
  has_shape rows n_features centroids ->
  length labels = length X ->
  Forall (fun l => l < rows) labels ->
  lloyd X weights n_clusters iters centroids labels g
    = (Ok (centroids', labels'), g') ->
  has_shape rows n_features centroids'
  /\ length labels' = length X
  /\ Forall (fun l => l < rows) labels'.
Proof.
  intros HX. revert centroids labels g.
  induction iters as [|iters IH]; intros centroids labels g Hc Hn Hl H;
    cbn [lloyd] in H.
  - apply ret_inv in H. destruct H as [[= -> ->] _]. auto.
  - apply bind_inv in H. destruct H as (new_labels & g1 & Ha & H).
    apply lift_inv in Ha. destruct Ha as [Ha ->].
    apply bind_inv in H. destruct H as (new_centroids & g2 & Hu & H).
    destruct (np_allclose centroids new_centroids).
    + apply ret_inv in H. destruct H as [[= -> ->] _]. auto.
    + apply assign_inv in Ha. destruct Ha as [Hn' Hl'].
      eapply IH; [| | |exact H].
      * eapply update_shape; eauto.
      * exact Hn'.
      * destruct Hc as [<- _]. exact Hl'.
Qed.

(** C4. For a point matrix with [n_features] columns and at least one
    cluster, whatever [kmeans] returns is a centroid matrix with exactly
    [n_clusters] rows and [n_features] columns, and one label per point,
    each label in [0, n_clusters). *)
Theorem kmeans_result_shape (weights : list F) (n_clusters max_iter : Z)
    (alpha : expo) (random_state : option Z) (g g' : G)
    (centroids : list (list F)) (labels : list nat) :
  (1 <= n_clusters <= Z.of_nat (length X))%Z ->
  length weights = length X ->
  (1 <= max_iter)%Z ->
  kmeans X weights n_clusters max_iter alpha random_state g
    = (Ok (centroids, labels), g') ->
  length centroids = Z.to_nat n_clusters
  /\ Forall (fun r => length r = n_features) centroids
  /\ length labels = length X
  /\ Forall (fun l => l < Z.to_nat n_clusters) labels.
Proof.
  intros HK _ _ H. unfold kmeans in H.
  apply bind_inv in H. destruct H as (u & g1 & _ & H).
  apply bind_inv in H. destruct H as (c0 & g2 & Hpp & H).
  assert (HX : X <> []).
  { intros E. rewrite E in HK. simpl in HK. lia. }
  assert (Hshape :
    has_shape (Z.to_nat n_clusters) n_features c0).
  { eapply kmeans_plusplus_shape; exact Hpp. }
  apply lloyd_shape with (rows := Z.to_nat n_clusters) in H; auto.
  - destruct H as ([H1 H2] & H3 & H4). auto.
  - apply repeat_length.
  - apply Forall_forall. intros l Hl. apply repeat_spec in Hl. lia.
Qed.

End Shapes.

(** ** What the loop returns when the convergence check passes *)

Section Convergence.

Context {F : Type} {AF : Arith F} {G : Type} {RS : RandomState F G}.

(** The check passes: the loop ends with the centroids and labels it
    entered the iteration with; the labels and centroids just computed
    are dropped. *)
Lemma lloyd_break (X : list (list F)) (weights : list F) (n_clusters : Z)
    (iters : nat) (centroids new_centroids : list (list F))
    (labels new_labels : list nat) (g g' : G) :
  assign X centroids = Ok new_labels ->
  update X weights n_clusters centroids new_labels g = (Ok new_centroids, g') ->
  np_allclose centroids new_centroids = true ->
  lloyd X weights n_clusters (S iters) centroids labels g
  = (Ok (centroids, labels), g').
Proof.
  intros Ha Hu Hc. cbn [lloyd]. unfold bind, lift.
  now rewrite Ha, Hu, Hc.
Qed.

(** The check fails: the loop goes on with what the iteration computed. *)
Lemma lloyd_continue (X : list (list F)) (weights : list F) (n_clusters : Z)
    (iters : nat) (centroids new_centroids : list (list F))
    (labels new_labels : list nat) (g g' : G) :
  assign X centroids = Ok new_labels ->
  update X weights n_clusters centroids new_labels g = (Ok new_centroids, g') ->
  np_allclose centroids new_centroids = false ->
  lloyd X weights n_clusters (S iters) centroids labels g
  = lloyd X weights n_clusters iters new_centroids new_labels g'.
Proof.
  intros Ha Hu Hc. cbn [lloyd]. unfold bind, lift.
  now rewrite Ha, Hu, Hc.
Qed.

End Convergence.

(** ** The Update phase and empty clusters *)

Section Update.

Context {F : Type} {AF : Arith F} {G : Type} {RS : RandomState F G}.

Variables (X : list (list F)) (weights : list F) (new_labels : list nat).

Hypothesis draws_in_range : index_in_range.
Hypothesis X_nonempty : X <> [].
Hypothesis weights_length : length weights = length X.
Hypothesis labels_length : length new_labels = length X.

Lemma randint_full_range (g : G) :
  exists i g',
    np_random_randint 0 (length X) g = (Ok i, g')
    /\ (i, g') = next_index (length X) g
    /\ i < length X.
Proof using draws_in_range X_nonempty.
  clear weights_length labels_length.
  assert (HN : 0 < length X) by (destruct X; simpl; [congruence|lia]).
  unfold np_random_randint.
  destruct (length X <=? 0) eqn:E; [apply Nat.leb_le in E; lia|].
  rewrite Nat.sub_0_r.
  pose proof draws_in_range as Hi. unfold index_in_range in Hi.
  specialize (Hi (length X) g HN).
  destruct (next_index (length X) g) as [i g']. cbn [fst] in Hi. eauto.
Qed.

(** An empty cluster takes the row of [X] at an index drawn over all of
    [range(n_samples)]. *)
Lemma update_centroid_empty (nc : list (list F)) (k : nat) (g : G) :
  k < length nc ->
  empty_cluster new_labels k ->
  exists i g',
    (i, g') = next_index (length X) g
    /\ i < length X
    /\ update_centroid X weights new_labels nc k g
       = (Ok (set_nth nc k (nth i X [])), g').
Proof.
  intros Hk He. unfold update_centroid. unfold empty_cluster in He.
  rewrite He. destruct (randint_full_range g) as (i & g' & Hr & Hn & Hi).
  exists i, g'. split; [exact Hn|]. split; [exact Hi|].
  unfold bind, lift. rewrite Hr.
  rewrite np_get_ok with (d := []) by exact Hi.
  now rewrite np_set_ok by exact Hk.
Qed.

(** A cluster with members takes a computed row; the step does not fail. *)
Lemma update_centroid_total (nc : list (list F)) (k : nat) (g : G) :
  k < length nc ->
  exists row g',
    update_centroid X weights new_labels nc k g = (Ok (set_nth nc k row), g')
    /\ (empty_cluster new_labels k -> In row X).
Proof.
  intros Hk.
  destruct (existsb (fun b => b) (map (Nat.eqb k) new_labels)) eqn:E.
  - unfold update_centroid. rewrite E. unfold bind, lift, np_mask.
    rewrite !length_map, weights_length, labels_length, Nat.eqb_refl.
    rewrite np_set_ok by exact Hk.
    eexists; eexists; split; [reflexivity|].
    unfold empty_cluster. rewrite E. discriminate.
  - destruct (@update_centroid_empty nc k g Hk E) as (i & g' & _ & Hi & Hu).
    exists (nth i X []), g'. split; [exact Hu|].
    intros _. now apply nth_In.
Qed.

Lemma update_loop (ks : list nat) (nc : list (list F)) (g : G) :
  NoDup ks ->
  Forall (fun k => k < length nc) ks ->
  exists nc' g',
    foldM (update_centroid X weights new_labels) ks nc g = (Ok nc', g')
    /\ length nc' = length nc
    /\ (forall k, In k ks -> empty_cluster new_labels k -> In (nth k nc' []) X)
    /\ (forall k, ~ In k ks -> nth k nc' [] = nth k nc []).
Proof.
  intros Hnd. revert nc g.
  induction Hnd as [|k ks Hk Hnd IH]; intros nc g Hb; simpl.
  - exists nc, g. unfold ret. repeat split; auto. intros k [].
  - inversion Hb as [|? ? Hk_lt Hb']; subst.
    destruct (@update_centroid_total nc k g Hk_lt) as (row & g1 & Hu & Hrow).
    unfold bind. rewrite Hu.
    destruct (IH (set_nth nc k row) g1) as (nc' & g' & Hf & Hl & Hin & Hout).
    { rewrite set_nth_length. exact Hb'. }
    exists nc', g'. split; [exact Hf|].
    rewrite set_nth_length in Hl. split; [exact Hl|]. split.
    + intros j [<-|Hj] He.
      * rewrite (Hout k Hk). rewrite set_nth_same by exact Hk_lt. auto.
      * auto.
    + intros j Hj. rewrite Hout by tauto.
      apply set_nth_other. intros ->. apply Hj. now left.
Qed.

Lemma update_centroid_member (nc : list (list F)) (k : nat) (g : G) :
  k < length nc ->
  existsb (fun b => b) (map (Nat.eqb k) new_labels) = true ->
  exists row,
    update_centroid X weights new_labels nc k g = (Ok (set_nth nc k row), g).
Proof.
  intros Hk E. unfold update_centroid. rewrite E. unfold bind, lift, np_mask.
  rewrite !length_map, weights_length, labels_length, Nat.eqb_refl.
  rewrite np_set_ok by exact Hk. eexists. reflexivity.
Qed.

(** The loop over the clusters draws for the empty ones, in the order of
    the loop, each index from the generator state the draws for the
    earlier empty clusters have left; the other clusters draw nothing. *)
Lemma update_loop_draws (ks : list nat) (nc : list (list F)) (g : G) :
  NoDup ks ->
  Forall (fun k => k < length nc) ks ->
  let empty k := negb (existsb (fun b => b) (map (Nat.eqb k) new_labels)) in
  let draws := reseed_draws (length X) (filter empty ks) g in
  exists nc',
    foldM (update_centroid X weights new_labels) ks nc g = (Ok nc', snd draws)
    /\ length nc' = length nc
    /\ map fst (fst draws) = filter empty ks
    /\ (forall k i, In (k, i) (fst draws) ->
          i < length X /\ nth k nc' [] = nth i X [])
    /\ (forall k, ~ In k ks -> nth k nc' [] = nth k nc []).
Proof.
  intros Hnd. cbv zeta. revert nc g.
  induction Hnd as [|k ks Hk Hnd IH]; intros nc g Hb; cbn [foldM filter].
  - exists nc. cbn [reseed_draws fst snd map]. unfold ret.
    split; [reflexivity|]. split; [reflexivity|]. split; [reflexivity|].
    split; [intros j ij []|reflexivity].
  - inversion Hb as [|? ? Hk_lt Hb']; subst.
    destruct (existsb (fun b => b) (map (Nat.eqb k) new_labels)) eqn:E;
      cbn [negb].
    + destruct (@update_centroid_member nc k g Hk_lt E) as [row Hu].
      unfold bind. rewrite Hu.
      destruct (IH (set_nth nc k row) g) as (nc' & Hf & Hl & Hm & Hin & Hout).
      { now rewrite set_nth_length. }
      exists nc'. rewrite set_nth_length in Hl.
      split; [exact Hf|]. split; [exact Hl|]. split; [exact Hm|].
      split; [exact Hin|].
      intros j Hj. rewrite Hout by (intros Hj'; apply Hj; now right).
      apply set_nth_other. intros ->. apply Hj. now left.
    + destruct (@update_centroid_empty nc k g Hk_lt E)
        as (i & g1 & Hn & Hi & Hu).
      unfold bind. rewrite Hu. cbn [reseed_draws fst snd map].
      rewrite <- Hn. cbn [fst snd].
      destruct (IH (set_nth nc k (nth i X [])) g1)
        as (nc' & Hf & Hl & Hm & Hin & Hout).
      { now rewrite set_nth_length. }
      exists nc'. rewrite set_nth_length in Hl.
      split; [exact Hf|]. split; [exact Hl|].
      split; [now rewrite Hm|]. split.
      * intros j ij [Hhead|Hrest].
        -- injection Hhead as <- <-. split; [exact Hi|].
           rewrite (Hout k Hk). now apply set_nth_same.
        -- now apply Hin.
      * intros j Hj. rewrite Hout by (intros Hj'; apply Hj; now right).
        apply set_nth_other. intros ->. apply Hj. now left.
Qed.

End Update.

(** ** An empty cluster is re-seeded and the call goes on *)

Section Reseeding.

Context {F : Type} {AF : Arith F} {G : Type} {RS : RandomState F G}.

Lemma np_argmin_nonempty (l : list F) :
  l <> [] -> exists j, np_argmin l = Ok j.
Proof.
  destruct l as [|v l]; [congruence|]. intros _. cbn [np_argmin].
  destruct (isnan v); eauto.
Qed.

Lemma assign_returns (X centroids : list (list F)) :
  centroids <> [] -> exists labels, assign X centroids = Ok labels.
Proof.
  intros Hc. unfold assign, _distance_from_points.
  induction X as [|x X IH]; cbn [map np_argmin_axis1]; [eauto|].
  destruct (@np_argmin_nonempty (map (fun p => dist x p) centroids))
    as [i ->].
  { destruct centroids; [congruence|discriminate]. }
  destruct IH as [rest ->]. cbn. eauto.
Qed.

Variables (X : list (list F)) (weights : list F) (n_clusters : Z).

Hypothesis draws_in_range : index_in_range.
Hypothesis X_nonempty : X <> [].
Hypothesis weights_length : length weights = length X.

(** With one weight per point, no iteration of the loop raises. *)
Lemma lloyd_returns (iters : nat) (centroids : list (list F))
    (labels : list nat) (g : G) :
  centroids <> [] ->
  length centroids = Z.to_nat n_clusters ->
  exists centroids' labels' g',
    lloyd X weights n_clusters iters centroids labels g
    = (Ok (centroids', labels'), g')
    /\ length centroids' = Z.to_nat n_clusters.
Proof.
  revert centroids labels g.
  induction iters as [|iters IH]; intros centroids labels g Hne Hc;
    cbn [lloyd].
  - unfold ret. eauto 6.
  - unfold bind, lift.
    destruct (assign_returns X Hne) as [new_labels Ha].
    rewrite Ha. apply assign_inv in Ha. destruct Ha as [Hll _].
    unfold update.
    destruct (@update_loop F AF G RS X weights new_labels draws_in_range
                X_nonempty weights_length Hll (seq 0 (Z.to_nat n_clusters))
                (map (map (fun _ => zero)) centroids) g)
      as (nc & g1 & -> & Hnl & _).
    + apply seq_NoDup.
    + apply Forall_forall. intros k Hk. apply in_seq in Hk.
      rewrite length_map. lia.
    + rewrite length_map in Hnl.
      destruct (np_allclose centroids nc); [unfold ret; eauto 6|].
      apply IH; [|congruence].
      intros ->. destruct centroids; [congruence|discriminate].
Qed.

(** C7. In the Update phase a cluster without members is not an error.
    The phase that follows an Assign phase completes, with [n_clusters]
    rows.  It makes one draw over the whole of [range(n_samples)] for each
    empty cluster and no other, in the order of the loop, each from the
    generator state the draws for the earlier empty clusters have left,
    and leaves the generator in the state after the last of them; the row
    of an empty cluster [k] is the row of [X] at the index [i] drawn for
    it, a point of the full point set.  The call then goes on: the loop
    proceeds from the state this phase leaves to its convergence test and
    to the next iteration, and returns [n_clusters] centroids. *)
Theorem empty_cluster_reseeded (centroids : list (list F))
    (new_labels : list nat) (g : G) :
  length centroids = Z.to_nat n_clusters ->
  assign X centroids = Ok new_labels ->
  let draws :=
    reseed_draws (length X) (empty_clusters new_labels n_clusters) g in
  exists new_centroids,
    update X weights n_clusters centroids new_labels g
      = (Ok new_centroids, snd draws)
    /\ length new_centroids = Z.to_nat n_clusters
    /\ map fst (fst draws) = empty_clusters new_labels n_clusters
    /\ (forall k i, In (k, i) (fst draws) ->
          empty_cluster new_labels k
          /\ i < length X
          /\ nth k new_centroids [] = nth i X [])
    /\ forall (iters : nat) (labels : list nat),
         lloyd X weights n_clusters (S iters) centroids labels g
         = (if np_allclose centroids new_centroids
            then ret (centroids, labels)
            else lloyd X weights n_clusters iters new_centroids new_labels)
             (snd draws)
         /\ exists centroids' labels' g',
              lloyd X weights n_clusters (S iters) centroids labels g
              = (Ok (centroids', labels'), g')
              /\ length centroids' = Z.to_nat n_clusters.
Proof.
  intros HK Ha. cbv zeta.
  pose proof (assign_inv _ _ Ha) as [Hll Hlt].
  assert (Hne : centroids <> []).
  { intros ->. destruct X as [|x X']; [congruence|].
    destruct new_labels as [|l ls]; [discriminate|].
    inversion Hlt; subst. cbn in *. lia. }
  destruct (@update_loop_draws F AF G RS X weights new_labels draws_in_range
              X_nonempty weights_length Hll (seq 0 (Z.to_nat n_clusters))
              (map (map (fun _ => zero)) centroids) g)
    as (nc & Hu & Hl & Hm & Hin & _).
  { apply seq_NoDup. }
  { apply Forall_forall. intros k Hk. apply in_seq in Hk.
    rewrite length_map. lia. }
  fold (empty_clusters new_labels n_clusters) in Hu, Hm, Hin.
  rewrite length_map in Hl.
  change (update X weights n_clusters centroids new_labels g
          = (Ok nc, snd (reseed_draws (length X)
                           (empty_clusters new_labels n_clusters) g)))
    in Hu.
  exists nc. split; [exact Hu|]. split; [congruence|].
  split; [exact Hm|]. split.
  - intros k i Hki. destruct (Hin k i Hki) as [Hi Hrow].
    split; [|split; assumption].
    assert (Hk : In k (empty_clusters new_labels n_clusters)).
    { rewrite <- Hm. apply in_map_iff. exists (k, i). auto. }
    unfold empty_clusters in Hk. apply filter_In in Hk.
    destruct Hk as [_ Hk]. unfold empty_cluster.
    now apply Bool.negb_true_iff in Hk.
  - intros iters labels.
    assert (Hstep :
      lloyd X weights n_clusters (S iters) centroids labels g
      = (if np_allclose centroids nc
         then ret (centroids, labels)
         else lloyd X weights n_clusters iters nc new_labels)
          (snd (reseed_draws (length X)
                  (empty_clusters new_labels n_clusters) g))).
    { cbn [lloyd]. unfold bind, lift. rewrite Ha, Hu. reflexivity. }
    split; [exact Hstep|]. rewrite Hstep.
    destruct (np_allclose centroids nc).
    + unfold ret. eauto 6.
    + apply lloyd_returns; [|congruence].
      intros ->. destruct centroids; [congruence|discriminate].
Qed.

End Reseeding.

(** ** Inputs the call does not survive *)

Section Rejection.

Context {F : Type} {AF : Arith F} {G : Type} {RS : RandomState F G}.

Lemma kmeans_plusplus_rows (X : list (list F)) (n_clusters : Z)
    (alpha : expo) (w : list F)
    (centroids : list (list F)) (g g' : G) :
  _kmeans_plusplus X w n_clusters alpha g = (Ok centroids, g') ->
  length centroids = Z.to_nat n_clusters /\ (1 <= n_clusters)%Z /\ X <> [].
Proof.
  intros H. unfold _kmeans_plusplus in H.
  apply bind_inv in H. destruct H as (log_k & g1 & Hlog & H).
  apply lift_inv in Hlog. destruct Hlog as [Hlog ->].
  apply bind_inv in H. destruct H as (c0 & g2 & Hz & H).
  apply lift_inv in Hz. destruct Hz as [Hz ->].
  apply bind_inv in H. destruct H as (first_idx & g3 & _ & H).
  apply bind_inv in H. destruct H as (x0 & g4 & Hx & H).
  apply lift_inv in Hx. destruct Hx as [Hx ->].
  apply bind_inv in H. destruct H as (c1 & g5 & Hs & H).
  apply lift_inv in Hs. destruct Hs as [Hs ->].
  apply bind_inv in H. destruct H as (ck & g6 & _ & H).
  apply bind_inv in H. destruct H as (da & g7 & _ & H).
  apply bind_inv in H. destruct H as (st & g8 & Hf & H).
  apply ret_inv in H. destruct H as [-> _].
  assert (HK : (1 <= n_clusters)%Z).
  { unfold int_log in Hlog.
    destruct (n_clusters =? 0)%Z eqn:E0; [discriminate|].
    destruct (n_clusters <? 0)%Z eqn:E1; [discriminate|]. lia. }
  assert (HX : X <> []).
  { apply np_get_inv in Hx. destruct Hx as (_ & Hx & _).
    intros E. rewrite E in Hx. inversion Hx. }
  split; [|auto].
  unfold np_zeros2 in Hz. destruct (n_clusters <? 0)%Z; [discriminate|].
  injection Hz as <-. apply np_set_inv in Hs. destruct Hs as [_ ->].
  revert Hf. apply foldM_invariant with
    (P := fun st => length (s_centroids st) = Z.to_nat n_clusters).
  - intros s a ga s' ga' _ Hlen Hstep. unfold seeding_step in Hstep.
    apply bind_inv in Hstep. destruct Hstep as (? & ? & _ & Hstep).
    apply bind_inv in Hstep. destruct Hstep as (? & ? & _ & Hstep).
    apply bind_inv in Hstep. destruct Hstep as (? & ? & _ & Hstep).
    apply bind_inv in Hstep. destruct Hstep as (bc & ? & _ & Hstep).
    apply bind_inv in Hstep. destruct Hstep as (cs & ? & Hset & Hstep).
    apply lift_inv in Hset. destruct Hset as [Hset ->].
    apply bind_inv in Hstep. destruct Hstep as (? & ? & _ & Hstep).
    apply bind_inv in Hstep. destruct Hstep as (? & ? & _ & Hstep).
    apply ret_inv in Hstep. destruct Hstep as [-> _]. cbn [s_centroids].
    apply np_set_inv in Hset. destruct Hset as [_ ->].
    now rewrite set_nth_length.
  - cbn [s_centroids]. now rewrite set_nth_length, repeat_length.
Qed.

Lemma member_mask (l : nat) (labels : list nat) :
  In l labels -> existsb (fun b => b) (map (Nat.eqb l) labels) = true.
Proof.
  intros Hin. apply existsb_exists. exists true. split; [|reflexivity].
  apply in_map_iff. exists l. split; [apply Nat.eqb_refl|exact Hin].
Qed.

Variables (X : list (list F)) (weights : list F).

Hypothesis mismatch : length weights <> length X.

(** A cluster with members indexes the weights with a mask as long as the
    point set: the lengths differ and the indexing raises. *)
Lemma update_centroid_mismatch (new_labels : list nat) (nc : list (list F))
    (k : nat) (g : G) :
  length new_labels = length X ->
  existsb (fun b => b) (map (Nat.eqb k) new_labels) = true ->
  update_centroid X weights new_labels nc k g = (Raise IndexError, g).
Proof.
  intros Hlen Hmem. unfold update_centroid. rewrite Hmem.
  unfold bind, lift, np_mask. rewrite !length_map, Hlen, Nat.eqb_refl.
  destruct (length weights =? length X) eqn:E; [|reflexivity].
  apply Nat.eqb_eq in E. contradiction.
Qed.

Lemma update_loop_mismatch (new_labels : list nat) (l : nat) (ks : list nat)
    (nc : list (list F)) (g : G) :
  length new_labels = length X ->
  In l new_labels ->
  In l ks ->
  exists e g', foldM (update_centroid X weights new_labels) ks nc g
               = (Raise e, g').
Proof.
  intros Hlen Hl. revert nc g.
  induction ks as [|k ks IH]; intros nc g Hin; [inversion Hin|].
  cbn [foldM]. unfold bind.
  destruct (existsb (fun b => b) (map (Nat.eqb k) new_labels)) eqn:Hmem.
  - rewrite update_centroid_mismatch by assumption. eauto.
  - destruct (update_centroid X weights new_labels nc k g)
      as [[nc1|e] g1]; [|eauto].
    apply IH. destruct Hin as [->|Hin]; [|exact Hin].
    rewrite member_mask in Hmem by exact Hl. discriminate.
Qed.

Lemma lloyd_mismatch (n_clusters : Z) (iters : nat)
    (centroids : list (list F)) (labels : list nat) (g : G) :
  X <> [] ->
  length centroids = Z.to_nat n_clusters ->
  exists e g',
    lloyd X weights n_clusters (S iters) centroids labels g = (Raise e, g').
Proof.
  intros HX HK. cbn [lloyd]. unfold bind, lift.
  destruct (assign X centroids) as [new_labels|e] eqn:Ha; [|eauto].
  apply assign_inv in Ha. destruct Ha as [Hlen Hlt].
  destruct new_labels as [|l rest].
  { destruct X; [congruence|discriminate]. }
  destruct (@update_loop_mismatch (l :: rest) l (seq 0 (Z.to_nat n_clusters))
              (map (map (fun _ => zero)) centroids) g Hlen)
    as (e & g' & Hu).
  - now left.
  - apply in_seq. inversion Hlt; subst. lia.
  - unfold update. rewrite Hu. eauto.
Qed.

End Rejection.

Section Contract.

Context {F : Type} {AF : Arith F} {G : Type} {RS : RandomState F G}.

Lemma np_ones_like_length (w : list F) : length (np_ones_like w) = length w.
Proof. apply length_map. Qed.

(** C2 (amended). With fewer than one cluster, or with no points, the call
    raises and returns nothing, before any distance is computed or any
    number drawn: the generator is left seeded (if a valid seed was given)
    and otherwise untouched.  With a weight vector whose length is not the
    number of points, and at least one iteration, the call raises and
    returns nothing as well. *)
Theorem kmeans_rejects (X : list (list F)) (weights : list F)
    (n_clusters max_iter : Z) (alpha : expo) (random_state : option Z)
    (g : G) :
  ((n_clusters < 1)%Z \/ X = [] ->
   exists e,
     kmeans X weights n_clusters max_iter alpha random_state g
     = (Raise e, entry_state random_state g))
  /\ (length weights <> length X -> (1 <= max_iter)%Z ->
      exists e g',
        kmeans X weights n_clusters max_iter alpha random_state g
        = (Raise e, g')).
Proof.
  split; [apply kmeans_raises_at_entry|].
  intros Hlen Hiter. unfold kmeans, bind.
  destruct (match random_state with
            | Some s => np_random_seed s
            | None => ret tt
            end g) as [[u|e] g1]; [|eauto].
  set (w := if np_all_zero weights then np_ones_like weights else weights).
  assert (Hw : length w <> length X).
  { unfold w. destruct (np_all_zero weights);
      [rewrite np_ones_like_length|]; exact Hlen. }
  destruct (_kmeans_plusplus X w n_clusters alpha g1)
    as [[c0|e] g2] eqn:Hpp; [|eauto].
  apply kmeans_plusplus_rows in Hpp. destruct Hpp as (HK & _ & HX).
  destruct (Z.to_nat max_iter) as [|iters] eqn:E; [lia|].
  now apply lloyd_mismatch.
Qed.

End Contract.

(** ** The number of local trials *)

Section LocalTrials.

Local Open Scope Z_scope.

Lemma above_binary_log (k m : Z) :
  1 <= k -> Z.log2 k <= m -> k * e_den ^ (m + 1) < e_num ^ (m + 1).
Proof.
  intros Hk Hm.
  assert (H0 : 0 <= Z.log2 k) by apply Z.log2_nonneg.
  assert (Hlt : k < 2 ^ (m + 1)).
  { apply Z.lt_le_trans with (2 ^ Z.succ (Z.log2 k)).
    - apply Z.log2_spec. lia.
    - apply Z.pow_le_mono_r; lia. }
  assert (Hden : 0 < e_den ^ (m + 1))
    by (apply Z.pow_pos_nonneg; [reflexivity|lia]).
  apply Z.lt_le_trans with (2 ^ (m + 1) * e_den ^ (m + 1)).
  - apply Z.mul_lt_mono_pos_r; assumption.
  - rewrite <- Z.pow_mul_l. apply Z.pow_le_mono_l. unfold e_num, e_den. lia.
Qed.

Lemma floor_ln_from_spec (fuel : nat) (m k : Z) :
  0 <= m -> 1 <= k ->
  e_num ^ m <= k * e_den ^ m ->
  Z.log2 k <= m + Z.of_nat fuel ->
  let r := floor_ln_from fuel m k in
  m <= r /\ e_num ^ r <= k * e_den ^ r /\ k * e_den ^ (r + 1) < e_num ^ (r + 1).
Proof.
  revert m. induction fuel as [|fuel IH]; intros m Hm Hk Hlo Hfuel;
    cbn [floor_ln_from].
  - cbv zeta. repeat split; [lia|exact Hlo|].
    apply above_binary_log; lia.
  - destruct (e_num ^ (m + 1) <=? k * e_den ^ (m + 1)) eqn:E.
    + apply Z.leb_le in E.
      destruct (IH (m + 1)) as (H1 & H2 & H3); try lia.
    + apply Z.leb_gt in E. cbv zeta. repeat split; [lia|exact Hlo|exact E].
Qed.

(** [floor_ln k] is the integer [m >= 0] with [q^m <= k < q^(m+1)], where
    [q = e_num / e_den = 2.718281828459045235]: the fuel is enough for the
    search to end on the comparison. *)
Lemma floor_ln_spec (k : Z) :
  1 <= k ->
  0 <= floor_ln k
  /\ e_num ^ floor_ln k <= k * e_den ^ floor_ln k
  /\ k * e_den ^ (floor_ln k + 1) < e_num ^ (floor_ln k + 1).
Proof.
  intros Hk. unfold floor_ln.
  apply (@floor_ln_from_spec (Z.to_nat (Z.log2 k)) 0 k); lia.
Qed.

Example floor_ln_values :
  map floor_ln [1; 2; 3; 7; 8; 20; 21; 54; 55; 148; 149; 1000000]
  = [0; 0; 1; 1; 2; 2; 3; 3; 4; 4; 5; 13].
Proof. reflexivity. Qed.

End LocalTrials.

(** ** The seeding step *)

Section Seeding.

Context {F : Type} {AF : Arith F} {G : Type} {RS : RandomState F G}.

Lemma combine_map_r {A B C} (f : B -> C) (l : list A) (l' : list B) :
  combine l (map f l') = map (fun p => (fst p, f (snd p))) (combine l l').
Proof.
  revert l'. induction l as [|a l IH]; intros [|b l']; simpl; auto.
  now rewrite IH.
Qed.

Lemma map_seq_nth {A B} (f : A -> B) (l : list A) (d : A) :
  map (fun j => f (nth j l d)) (seq 0 (length l)) = map f l.
Proof.
  induction l as [|x l IH]; [reflexivity|].
  cbn [length seq map nth]. f_equal.
  rewrite <- seq_shift, map_map. exact IH.
Qed.

Lemma candidate_totals_eq (X : list (list F)) (distances : list F)
    (candidates : list (list F)) :
  candidate_totals X distances candidates
  = map (inertia_with X distances) candidates.
Proof.
  unfold candidate_totals, np_sum_axis0.
  rewrite <- (map_seq_nth (inertia_with X distances) candidates []).
  apply map_ext_in. intros j Hj. apply in_seq in Hj.
  unfold inertia_with, zip_with, column, _distance_from_point,
    _distance_from_points.
  f_equal. rewrite !combine_map_r, !map_map. apply map_ext.
  intros [d x]. cbn [fst snd].
  rewrite nth_indep with (d' := np_minimum d (dist x []))
    by (rewrite !length_map; lia).
  rewrite (map_nth (np_minimum d)). f_equal.
  now rewrite (map_nth (fun p => dist x p)).
Qed.

Lemma skipn_cons_inv {A} (l : list A) (i : nat) (v : A) (a : list A) :
  skipn i l = v :: a ->
  i < length l /\ (forall d, nth i l d = v) /\ skipn (S i) l = a.
Proof.
  revert i. induction l as [|x l IH]; intros [|i]; simpl; try discriminate.
  - intros [= -> ->]. repeat split; auto. lia.
  - intros H. destruct (IH i H) as (Hi & Hn & Hs). repeat split; auto. lia.
Qed.

Lemma skipn_nil_inv {A} (l : list A) (i : nat) :
  skipn i l = [] -> length l <= i.
Proof.
  revert i. induction l as [|x l IH]; intros [|i]; simpl;
    try discriminate; try lia.
  intros H. specialize (IH i H). lia.
Qed.

Lemma argmin_from_least {OL : OrderLaws F} (l a : list F) (best_i i : nat) :
  skipn i l = a ->
  best_i < length l ->
  isnan (nth best_i l zero) = false ->
  (forall p, p < i -> fltb (nth p l zero) (nth best_i l zero) = false) ->
  let r := argmin_from best_i (nth best_i l zero) i a in
  forall p, p < length l -> fltb (nth p l zero) (nth r l zero) = false.
Proof.
  revert best_i i. induction a as [|v a IH]; intros best_i i Hs Hb Hnum Hpre;
    cbn [argmin_from].
  - apply skipn_nil_inv in Hs. intros p Hp. apply Hpre. lia.
  - apply skipn_cons_inv in Hs. destruct Hs as (Hi & Hv & Hs).
    destruct (isnan v) eqn:Hnan.
    + intros p _. rewrite (Hv zero).
      destruct (fltb (nth p l zero) v) eqn:E; [|reflexivity].
      apply fltb_number in E. destruct E as [_ E]. congruence.
    + destruct (fltb v (nth best_i l zero)) eqn:Hlt.
      * rewrite <- (Hv zero) in *. apply (IH i (S i)); auto.
        intros p Hp.
        destruct (Nat.eq_dec p i) as [->|Hne]; [apply fltb_irrefl|].
        destruct (fltb (nth p l zero) (nth i l zero)) eqn:E; [|reflexivity].
        rewrite <- (Hpre p ltac:(lia)). symmetry.
        eapply fltb_trans; eauto.
      * apply (IH best_i (S i)); auto.
        intros p Hp.
        destruct (Nat.eq_dec p i) as [->|Hne]; [now rewrite (Hv zero)|].
        apply Hpre. lia.
Qed.

Lemma np_argmin_least {OL : OrderLaws F} (l : list F) (j : nat) :
  np_argmin l = Ok j ->
  j < length l
  /\ forall p, p < length l -> fltb (nth p l zero) (nth j l zero) = false.
Proof.
  intros H. split; [now apply np_argmin_lt|].
  destruct l as [|v a]; [discriminate|]. cbn [np_argmin] in H.
  destruct (isnan v) eqn:Hnan; injection H as <-.
  - intros p _. change (nth 0 (v :: a) zero) with v.
    destruct (fltb (nth p (v :: a) zero) v) eqn:E; [|reflexivity].
    apply fltb_number in E. destruct E as [_ E]. congruence.
  - apply (@argmin_from_least _ (v :: a) a 0 1); auto.
    + simpl; lia.
    + intros p Hp. replace p with 0 by lia. apply fltb_irrefl.
Qed.

Lemma floor_ln_from_nonneg (fuel : nat) (m k : Z) :
  (0 <= m)%Z -> (0 <= floor_ln_from fuel m k)%Z.
Proof.
  revert m. induction fuel as [|fuel IH]; intros m Hm; cbn [floor_ln_from].
  - exact Hm.
  - destruct (_ <=? _)%Z; [apply IH; lia|exact Hm].
Qed.

(** One step of the Seeder: the uniform draws it makes, and how the state
    after the step derives from the state before. *)
Lemma seeding_step_spec {OL : OrderLaws F}
    (X : list (list F)) (weights : list F) (alpha : expo)
    (n_local_trials : Z) (st st' : seeding) (k : nat) (g g' : G) :
  seeding_step X weights alpha n_local_trials st k g = (Ok st', g') ->
  exists rands best,
    let candidate_idxs :=
      np_searchsorted
        (np_cumsum (selection_probabilities (s_distances_alpha st))) rands in
    let total i := inertia_with X (s_distances st) (nth i X []) in
    let c := nth (nth best candidate_idxs 0) X [] in
    np_random_rand n_local_trials g = (Ok rands, g')
    /\ length rands = Z.to_nat n_local_trials
    /\ length candidate_idxs = Z.to_nat n_local_trials
    /\ best < length candidate_idxs
    /\ (forall j, j < length candidate_idxs ->
          fltb (total (nth j candidate_idxs 0))
               (total (nth best candidate_idxs 0)) = false)
    /\ k < length (s_centroids st)
    /\ s_centroids st' = set_nth (s_centroids st) k c
    /\ s_distances st'
       = zip_with np_minimum (s_distances st) (_distance_from_point X c)
    /\ broadcast2 fmul (map (fun d => fpow d alpha) (s_distances st')) weights
       = Ok (s_distances_alpha st').
Proof.
  intros H. unfold seeding_step in H.
  apply bind_inv in H. destruct H as (idxs & gc & Hc & H).
  unfold _numba_rand_choice in Hc.
  apply bind_inv in Hc. destruct Hc as (rands & g1 & Hr & Hc).
  apply ret_inv in Hc. destruct Hc as [-> ->].
  apply bind_inv in H. destruct H as (cands & g2 & Ht & H).
  apply lift_inv in Ht. destruct Ht as [Ht ->].
  apply bind_inv in H. destruct H as (best & g3 & Hb & H).
  apply lift_inv in Hb. destruct Hb as [Hb ->].
  apply bind_inv in H. destruct H as (bc & g4 & Hg & H).
  apply lift_inv in Hg. destruct Hg as [Hg ->].
  apply bind_inv in H. destruct H as (cs & g5 & Hs & H).
  apply lift_inv in Hs. destruct Hs as [Hs ->].
  apply bind_inv in H. destruct H as (ck & g6 & Hck & H).
  apply lift_inv in Hck. destruct Hck as [Hck ->].
  apply bind_inv in H. destruct H as (da & g7 & Hda & H).
  apply lift_inv in Hda. destruct Hda as [Hda ->].
  apply ret_inv in H. destruct H as [-> ->].
  cbn [s_centroids s_distances s_distances_alpha].
  exists rands, best. cbv zeta.
  set (idxs := np_searchsorted _ rands) in *.
  apply np_take_inv in Ht. destruct Ht as (Hlen & _ & _ & Hnth).
  rewrite candidate_totals_eq in Hb.
  apply np_argmin_least in Hb. rewrite length_map in Hb.
  destruct Hb as [Hbest Hleast].
  apply np_get_inv in Hg. destruct Hg as (_ & _ & Hg).
  apply np_set_inv in Hs. destruct Hs as [Hk ->].
  apply np_get_inv in Hck. destruct Hck as (_ & _ & Hck).
  assert (Hrands : length rands = Z.to_nat n_local_trials).
  { unfold np_random_rand in Hr.
    destruct (n_local_trials <? 0)%Z; [discriminate|].
    now apply draw_doubles_length in Hr. }
  assert (Hsize : length idxs = Z.to_nat n_local_trials).
  { unfold idxs, np_searchsorted. now rewrite length_map. }
  assert (Hbc : bc = nth (nth best idxs 0) X []).
  { rewrite <- (Hg []). apply Hnth. congruence. }
  assert (Hckc : ck = nth (nth best idxs 0) X []).
  { rewrite <- (Hck []), set_nth_same by exact Hk. exact Hbc. }
  rewrite Hbc, Hckc. rewrite Hckc in Hda.
  split; [exact Hr|]. split; [exact Hrands|]. split; [exact Hsize|].
  split; [congruence|]. split.
  - intros j Hj.
    specialize (Hleast j ltac:(congruence)).
    rewrite nth_indep with (d' := inertia_with X (s_distances st) [])
      in Hleast by (rewrite length_map; congruence).
    rewrite (nth_indep _ zero (inertia_with X (s_distances st) []))
      in Hleast by (rewrite length_map; congruence).
    rewrite !(map_nth (inertia_with X (s_distances st))) in Hleast.
    rewrite !Hnth in Hleast by congruence. exact Hleast.
  - split; [exact Hk|]. split; [reflexivity|]. split; [reflexivity|].
    exact Hda.
Qed.

(** Rows that a step of the Seeder has written are left alone by the later
    steps. *)
Lemma seeding_chain_rows {OL : OrderLaws F}
    (X : list (list F)) (weights : list F) (alpha : expo)
    (n_local_trials : Z) (state : nat -> seeding) (gen : nat -> G)
    (n j m p : nat) :
  (forall i, i < n ->
     seeding_step X weights alpha n_local_trials (state i) (S i) (gen i)
     = (Ok (state (S i)), gen (S i))) ->
  j <= m -> m + p <= n ->
  nth j (s_centroids (state (m + p))) [] = nth j (s_centroids (state m)) [].
Proof.
  intros Hchain Hj. induction p as [|p IH]; intros Hp.
  - now rewrite Nat.add_0_r.
  - rewrite <- IH by lia. rewrite Nat.add_succ_r.
    destruct (seeding_step_spec _ _ _ _ _ _ _ (Hchain (m + p) ltac:(lia)))
      as (rands & best & Hs).
    cbv zeta in Hs. destruct Hs as (_ & _ & _ & _ & _ & _ & -> & _).
    apply set_nth_other. lia.
Qed.

(** C8. Whenever the Seeder returns, its run is, after the choice of the
    first centroid, a sequence of [n_clusters - 1] steps, one for each
    [k = 1 .. n_clusters - 1].  Step [k] makes exactly
    [L = 2 + int(log(n_clusters))] uniform draws (and no other draw),
    maps them through the cumulative sums of the selection distribution
    of the current scores to [L] candidate indices, and sets centroid [k]
    of the result to the candidate point than which no other candidate
    has a smaller sum over all points of min(running distance, distance
    to the candidate).  The running distance starts as the distance to
    the first centroid and becomes, after step [k], its minimum with the
    distance to centroid [k]; the scores are the running distance to the
    power [alpha] times the weight. *)
Theorem seeder_adopts_best_of_trials {OL : OrderLaws F}
    (X : list (list F)) (weights : list F) (n_clusters : Z) (alpha : expo)
    (centroids : list (list F)) (g g' : G) :
  _kmeans_plusplus X weights n_clusters alpha g = (Ok centroids, g') ->
  let L := (2 + floor_ln n_clusters)%Z in
  let w := effective_weights weights in
  int_log n_clusters = Ok (floor_ln n_clusters)
  /\ (2 <= L)%Z
  /\ exists trace : list (seeding * G),
       let state k := fst (nth k trace (Seeding [] [] [], g)) in
       let gen k := snd (nth k trace (Seeding [] [] [], g)) in
       length trace = Z.to_nat n_clusters
       /\ gen 0 = snd (next_index (length X) g)
       /\ gen (Z.to_nat n_clusters - 1) = g'
       /\ s_distances (state 0) = _distance_from_point X (nth 0 centroids [])
       /\ (forall k, k < Z.to_nat n_clusters ->
             broadcast2 fmul
               (map (fun d => fpow d alpha) (s_distances (state k))) w
             = Ok (s_distances_alpha (state k)))
       /\ forall k, 1 <= k < Z.to_nat n_clusters ->
            exists rands best,
              let candidate_idxs :=
                np_searchsorted
                  (np_cumsum (selection_probabilities
                                (s_distances_alpha (state (k - 1))))) rands in
              let total i :=
                inertia_with X (s_distances (state (k - 1))) (nth i X []) in
              np_random_rand L (gen (k - 1)) = (Ok rands, gen k)
              /\ length rands = Z.to_nat L
              /\ length candidate_idxs = Z.to_nat L
              /\ best < length candidate_idxs
              /\ nth k centroids [] = nth (nth best candidate_idxs 0) X []
              /\ (forall j, j < length candidate_idxs ->
                    fltb (total (nth j candidate_idxs 0))
                         (total (nth best candidate_idxs 0)) = false)
              /\ s_distances (state k)
                 = zip_with np_minimum (s_distances (state (k - 1)))
                     (_distance_from_point X (nth k centroids [])).
Proof.
  intros H L w. subst L w.
  pose proof (kmeans_plusplus_rows _ _ _ _ _ H) as (HK & Hpos & _).
  assert (Hlog : int_log n_clusters = Ok (floor_ln n_clusters)).
  { unfold int_log.
    destruct (n_clusters =? 0)%Z eqn:E0; [lia|].
    destruct (n_clusters <? 0)%Z eqn:E1; [lia|reflexivity]. }
  split; [exact Hlog|]. split.
  { unfold floor_ln.
    pose proof (@floor_ln_from_nonneg (Z.to_nat (Z.log2 n_clusters)) 0
                  n_clusters ltac:(lia)). lia. }
  unfold _kmeans_plusplus in H. rewrite Hlog in H.
  apply bind_inv in H. destruct H as (log_k & g1 & Hl & H).
  apply lift_inv in Hl. destruct Hl as [[= <-] ->].
  apply bind_inv in H. destruct H as (c0 & g2 & Hz & H).
  apply lift_inv in Hz. destruct Hz as [_ ->].
  apply bind_inv in H. destruct H as (first_idx & g3 & Hr & H).
  apply bind_inv in H. destruct H as (x0 & g4 & Hx & H).
  apply lift_inv in Hx. destruct Hx as [_ ->].
  apply bind_inv in H. destruct H as (c1 & g5 & Hs & H).
  apply lift_inv in Hs. destruct Hs as [Hs ->].
  apply bind_inv in H. destruct H as (ck & g6 & Hck & H).
  apply lift_inv in Hck. destruct Hck as [Hck ->].
  apply bind_inv in H. destruct H as (da & g7 & Hda & H).
  apply lift_inv in Hda. destruct Hda as [Hda ->].
  apply bind_inv in H. destruct H as (st & g8 & Hf & H).
  apply ret_inv in H. destruct H as [-> ->].
  fold (effective_weights weights) in Hda, Hf.
  assert (Hg3 : g3 = snd (next_index (length X) g)).
  { unfold np_random_randint in Hr.
    destruct (length X <=? 0); [discriminate|].
    rewrite Nat.sub_0_r in Hr.
    destruct (next_index (length X) g) as [i gi]. now injection Hr as _ <-. }
  apply foldM_trace with (d := 0) (dflt := (Seeding [] [] [], g)) in Hf.
  destruct Hf as (trace & Hlen & H0 & Hlast & Hchain).
  rewrite length_seq in Hlen, Hlast, Hchain.
  refine (ex_intro _ trace _). intros state gen.
  assert (Hsteps : forall i, i < Z.to_nat n_clusters - 1 ->
            seeding_step X (effective_weights weights) alpha
              (2 + floor_ln n_clusters) (state i) (S i) (gen i)
            = (Ok (state (S i)), gen (S i))).
  { intros i Hi. specialize (Hchain i Hi).
    rewrite seq_nth in Hchain by exact Hi. exact Hchain. }
  assert (Hs0 : state 0 = Seeding c1 (_distance_from_point X ck) da)
    by (unfold state; now rewrite H0).
  assert (Hrows : forall j, j < Z.to_nat n_clusters ->
            nth j (s_centroids st) [] = nth j (s_centroids (state j)) []).
  { intros j Hj.
    replace st with (state (j + (Z.to_nat n_clusters - 1 - j)))
      by (unfold state; replace (j + (Z.to_nat n_clusters - 1 - j))
            with (Z.to_nat n_clusters - 1) by lia; now rewrite Hlast).
    eapply seeding_chain_rows; [exact Hsteps|lia|lia]. }
  split; [lia|].
  split; [unfold gen; now rewrite H0|].
  split; [unfold gen; now rewrite Hlast|].
  split.
  { rewrite Hrows by lia. rewrite Hs0. cbn [s_distances s_centroids].
    apply np_get_inv in Hck. destruct Hck as (_ & _ & Hck).
    now rewrite (Hck []). }
  split.
  { intros [|k] Hk.
    - rewrite Hs0. exact Hda.
    - destruct (seeding_step_spec _ _ _ _ _ _ _ (Hsteps k ltac:(lia)))
        as (rands & best & Hspec).
      cbv zeta in Hspec. now destruct Hspec as (_ & _ & _ & _ & _ & _ & _ & _ & Hsc). }
  intros k Hk.
  destruct k as [|k]; [lia|]. cbn [Nat.sub]. rewrite Nat.sub_0_r.
  destruct (seeding_step_spec _ _ _ _ _ _ _ (Hsteps k ltac:(lia)))
    as (rands & best & Hspec).
  cbv zeta in Hspec.
  destruct Hspec as (Hrand & Hrl & Hil & Hbest & Hleast & Hklt & Hcs & Hds & _).
  exists rands, best.
  assert (Hrow : nth (S k) (s_centroids st) []
                 = nth (nth best
                          (np_searchsorted
                             (np_cumsum (selection_probabilities
                                           (s_distances_alpha (state k))))
                             rands) 0) X []).
  { rewrite Hrows by lia. rewrite Hcs. now apply set_nth_same. }
  split; [exact Hrand|]. split; [exact Hrl|]. split; [exact Hil|].
  split; [exact Hbest|]. split; [exact Hrow|]. split; [exact Hleast|].
  rewrite Hrow. exact Hds.
Qed.

End Seeding.

(** ** Scaling the weights, in exact arithmetic *)

Module ExactScaling.

Import Exact ExactLaws ExactVocabulary.

Section Scaling.

Context {G : Type} {RS : RandomState R G}.

Variable c : R.

Hypothesis c_pos : (0 < c)%R.

Local Abbreviation scale := (scale c).
Local Abbreviation scale_state := (scale_state c).

Lemma scale_length (w : list R) : length (scale w) = length w.
Proof. apply length_map. Qed.

Lemma fold_plus_scale (l : list R) (acc : R) :
  fold_left Rplus (scale l) (c * acc)%R = (c * fold_left Rplus l acc)%R.
Proof.
  revert acc. induction l as [|x l IH]; intros acc; simpl; [reflexivity|].
  rewrite <- IH. f_equal. ring.
Qed.

Lemma np_sum_scale (l : list R) : np_sum (scale l) = (c * np_sum l)%R.
Proof.
  unfold np_sum. cbn [fadd zero real_arith].
  rewrite <- fold_plus_scale. f_equal. ring.
Qed.

Lemma Reqb_scale_zero (x : R) : Reqb (c * x) 0 = Reqb x 0.
Proof.
  destruct (Reqb x 0) eqn:E.
  - apply Reqb_true in E. subst x. apply Reqb_true. ring.
  - apply Reqb_false in E. apply Reqb_false. intros H.
    apply Rmult_integral in H. destruct H; [lra|contradiction].
Qed.

Lemma np_all_zero_scale (w : list R) :
  np_all_zero (scale w) = np_all_zero w.
Proof.
  unfold np_all_zero, ExactVocabulary.scale. induction w as [|x w IH]; [reflexivity|].
  cbn [map forallb]. rewrite IH. f_equal. cbn. apply Reqb_scale_zero.
Qed.

Lemma np_ones_like_scale (w : list R) :
  np_ones_like (scale w) = np_ones_like w.
Proof. unfold np_ones_like, ExactVocabulary.scale. now rewrite map_map. Qed.

Lemma Rdiv_scale (a b : R) : (c * a / (c * b) = a / b)%R.
Proof.
  destruct (Req_dec_T b 0) as [->|Hb].
  - rewrite Rmult_0_r. unfold Rdiv. rewrite Rinv_0. ring.
  - field. split; [exact Hb|lra].
Qed.

Lemma selection_probabilities_scale (da : list R) :
  selection_probabilities (scale da) = selection_probabilities da.
Proof.
  unfold selection_probabilities. rewrite np_sum_scale.
  cbn [feqb zero real_arith]. rewrite Reqb_scale_zero.
  destruct (Reqb (np_sum da) 0); cbv beta iota zeta.
  - now rewrite np_ones_like_scale.
  - assert (E : map (fun d => np_clip (fdiv d (c * np_sum da)%R) zero one)
                    (scale da)
                = map (fun d => np_clip (fdiv d (np_sum da)) zero one) da).
    { unfold ExactVocabulary.scale. rewrite map_map. apply map_ext. intros d.
      cbn [fdiv real_arith]. now rewrite Rdiv_scale. }
    cbn [zero real_arith] in E. now rewrite E.
Qed.

Lemma zip_mul_scale (a w : list R) :
  map (fun p => fmul (fst p) (snd p)) (combine a (scale w))
  = scale (map (fun p => fmul (fst p) (snd p)) (combine a w)).
Proof.
  unfold ExactVocabulary.scale. rewrite combine_map_r, !map_map. apply map_ext.
  intros [x y]. cbn. ring.
Qed.

Lemma broadcast2_scale (a w : list R) :
  broadcast2 fmul a (scale w)
  = match broadcast2 fmul a w with
    | Ok l => Ok (scale l)
    | Raise e => Raise e
    end.
Proof.
  unfold broadcast2. rewrite scale_length.
  destruct (length a =? length w) eqn:E.
  - now rewrite zip_mul_scale.
  - destruct a as [|x [|x' a]].
    + destruct w as [|y [|y' w]]; try reflexivity.
    + f_equal. unfold ExactVocabulary.scale. rewrite !map_map. apply map_ext.
      intros y. cbn. ring.
    + destruct w as [|y [|y' w]]; try reflexivity.
      cbn [ExactVocabulary.scale map]. f_equal.
      f_equal; [cbn; ring|]. f_equal; [cbn; ring|].
      rewrite map_map. apply map_ext. intros z. cbn. ring.
Qed.

Lemma seeding_step_scale (X : list (list R)) (w : list R) (alpha : expo)
    (n_local_trials : Z) (st : seeding) (k : nat) (g : G) :
  seeding_step X (scale w) alpha n_local_trials (scale_state st) k g
  = map_ok scale_state (seeding_step X w alpha n_local_trials st k g).
Proof.
  unfold seeding_step, ExactVocabulary.scale_state. cbn [s_centroids s_distances s_distances_alpha].
  rewrite selection_probabilities_scale. unfold bind, lift, ret.
  destruct (_numba_rand_choice _ _ g) as [[idxs|e] g1]; [|reflexivity].
  destruct (np_take X idxs) as [cands|e]; [|reflexivity].
  destruct (np_argmin _) as [best|e]; [|reflexivity].
  destruct (np_get cands best) as [bc|e]; [|reflexivity].
  destruct (np_set _ k bc) as [cs|e]; [|reflexivity].
  destruct (np_get cs k) as [ck|e]; [|reflexivity].
  rewrite broadcast2_scale.
  destruct (broadcast2 _ _ w) as [da|e]; reflexivity.
Qed.

Lemma seeding_loop_scale (X : list (list R)) (w : list R) (alpha : expo)
    (n_local_trials : Z) (ks : list nat) (st : seeding) (g : G) :
  foldM (seeding_step X (scale w) alpha n_local_trials) ks (scale_state st) g
  = map_ok scale_state
      (foldM (seeding_step X w alpha n_local_trials) ks st g).
Proof.
  revert st g. induction ks as [|k ks IH]; intros st g; cbn [foldM].
  - reflexivity.
  - unfold bind. rewrite seeding_step_scale.
    destruct (seeding_step X w alpha n_local_trials st k g) as [[st1|e] g1];
      cbn [map_ok]; [apply IH|reflexivity].
Qed.

Lemma kmeans_plusplus_scale_nonzero (X : list (list R)) (w : list R)
    (n_clusters : Z) (alpha : expo) (g : G) :
  np_all_zero w = false ->
  _kmeans_plusplus X (scale w) n_clusters alpha g
  = _kmeans_plusplus X w n_clusters alpha g.
Proof.
  intros Hw. unfold _kmeans_plusplus. rewrite np_all_zero_scale, Hw.
  unfold bind, lift, ret.
  destruct (int_log n_clusters) as [log_k|e]; [|reflexivity].
  destruct (np_zeros2 _ _) as [c0|e]; [|reflexivity].
  destruct (np_random_randint 0 (length X) g) as [[i|e] g1]; [|reflexivity].
  destruct (np_get X i) as [x0|e]; [|reflexivity].
  destruct (np_set c0 0 x0) as [c1|e]; [|reflexivity].
  destruct (np_get c1 0) as [ck|e]; [|reflexivity].
  rewrite broadcast2_scale.
  destruct (broadcast2 _ _ w) as [da|e]; [|reflexivity].
  change (Seeding c1 (_distance_from_point X ck) (scale da))
    with (scale_state (Seeding c1 (_distance_from_point X ck) da)).
  rewrite seeding_loop_scale.
  destruct (foldM _ _ _ g1) as [[st|e] g2]; reflexivity.
Qed.

Lemma select_scale (w : list R) (mask : list bool) :
  select (scale w) mask = scale (select w mask).
Proof.
  revert mask. induction w as [|x w IH]; intros [|[] mask]; simpl;
    try reflexivity.
  - f_equal. apply IH.
  - apply IH.
Qed.

Lemma weighted_mean_scale (cw col : list R) :
  fdiv (np_sum (zip_with fmul col (scale cw))) (np_sum (scale cw))
  = fdiv (np_sum (zip_with fmul col cw)) (np_sum cw).
Proof.
  unfold zip_with. rewrite zip_mul_scale, !np_sum_scale.
  cbn [fdiv real_arith]. apply Rdiv_scale.
Qed.

Lemma update_centroid_scale (X : list (list R)) (w : list R)
    (new_labels : list nat) (nc : list (list R)) (k : nat) (g : G) :
  update_centroid X (scale w) new_labels nc k g
  = update_centroid X w new_labels nc k g.
Proof.
  unfold update_centroid.
  destruct (existsb _ _); [|reflexivity].
  unfold bind, lift, np_mask. rewrite scale_length.
  destruct (length X =? _); [|reflexivity].
  destruct (length w =? _); [|reflexivity].
  rewrite select_scale. do 2 f_equal.
  rewrite !map_map. apply map_ext. intros col. apply weighted_mean_scale.
Qed.

Lemma update_scale (X : list (list R)) (w : list R) (n_clusters : Z)
    (centroids : list (list R)) (new_labels : list nat) (g : G) :
  update X (scale w) n_clusters centroids new_labels g
  = update X w n_clusters centroids new_labels g.
Proof.
  unfold update. generalize (map (map (fun _ : R => zero)) centroids).
  generalize (seq 0 (Z.to_nat n_clusters)). intros ks. revert g.
  induction ks as [|k ks IH]; intros g nc; cbn [foldM]; [reflexivity|].
  unfold bind. rewrite update_centroid_scale.
  destruct (update_centroid X w new_labels nc k g) as [[nc1|e] g1];
    [apply IH|reflexivity].
Qed.

Lemma lloyd_scale (X : list (list R)) (w : list R) (n_clusters : Z)
    (iters : nat) (centroids : list (list R)) (labels : list nat) (g : G) :
  lloyd X (scale w) n_clusters iters centroids labels g
  = lloyd X w n_clusters iters centroids labels g.
Proof.
  revert centroids labels g.
  induction iters as [|iters IH]; intros centroids labels g; cbn [lloyd];
    [reflexivity|].
  unfold bind. destruct (lift (assign X centroids) g) as [[nl|e] g1];
    [|reflexivity].
  rewrite update_scale.
  destruct (update X w n_clusters centroids nl g1) as [[nc|e] g2];
    [|reflexivity].
  destruct (np_allclose centroids nc); [reflexivity|apply IH].
Qed.

(** C9 (amended). In exact arithmetic, multiplying every weight by the same
    positive constant changes neither the centroids nor the labels (nor
    the draws made), for every point set, cluster count, iteration cap,
    exponent and seed. *)
Theorem kmeans_weight_scale_invariant (X : list (list R)) (w : list R)
    (n_clusters max_iter : Z) (alpha : expo) (random_state : option Z)
    (g : G) :
  kmeans X (scale w) n_clusters max_iter alpha random_state g
  = kmeans X w n_clusters max_iter alpha random_state g.
Proof.
  unfold kmeans. rewrite np_all_zero_scale.
  destruct (np_all_zero w) eqn:Hw.
  - now rewrite np_ones_like_scale.
  - unfold bind.
    destruct (match random_state with
              | Some s => np_random_seed s
              | None => ret tt
              end g) as [[u|e] g1]; [|reflexivity].
    rewrite kmeans_plusplus_scale_nonzero by exact Hw.
    destruct (_kmeans_plusplus X w n_clusters alpha g1) as [[c0|e] g2];
      [|reflexivity].
    apply lloyd_scale.
Qed.

End Scaling.

End ExactScaling.

(** ** Termination with a result, in exact arithmetic *)

Module ExactTotal.

Import Exact ExactLaws ExactVocabulary.

Section Sums.

Lemma fold_plus_acc (l : list R) (acc : R) :
  fold_left Rplus l acc = (acc + fold_left Rplus l 0)%R.
Proof.
  revert acc. induction l as [|x l IH]; intros acc; simpl.
  - ring.
  - rewrite IH, (IH (0 + x)%R). ring.
Qed.

Lemma np_sum_cons (x : R) (l : list R) : np_sum (x :: l) = (x + np_sum l)%R.
Proof.
  unfold np_sum. cbn [fold_left fadd zero real_arith].
  rewrite fold_plus_acc. ring.
Qed.

Lemma np_sum_nil : np_sum (@nil R) = 0%R.
Proof. reflexivity. Qed.

Lemma np_sum_nonneg (l : list R) :
  Forall (fun x => 0 <= x)%R l -> (0 <= np_sum l)%R.
Proof.
  induction 1 as [|x l Hx _ IH]; [rewrite np_sum_nil; lra|].
  rewrite np_sum_cons. lra.
Qed.

Lemma np_sum_bounds (l : list R) :
  Forall (fun x => 0 <= x)%R l -> Forall (fun x => x <= np_sum l)%R l.
Proof.
  induction 1 as [|x l Hx Hl IH]; constructor.
  - rewrite np_sum_cons. pose proof (np_sum_nonneg Hl). lra.
  - eapply Forall_impl; [|exact IH]. cbv beta. intros y Hy.
    rewrite np_sum_cons. lra.
Qed.

Lemma np_sum_div (l : list R) (t : R) :
  np_sum (map (fun d => d / t)%R l) = (np_sum l / t)%R.
Proof.
  induction l as [|x l IH]; cbn [map].
  - rewrite np_sum_nil. unfold Rdiv. ring.
  - rewrite !np_sum_cons, IH. unfold Rdiv. ring.
Qed.

Lemma np_sum_ones (l : list R) : np_sum (np_ones_like l) = INR (length l).
Proof.
  induction l as [|x l IH]; [reflexivity|].
  unfold np_ones_like in *. cbn [map length]. rewrite np_sum_cons, IH, S_INR.
  cbn. ring.
Qed.

Lemma np_clip_unit (x : R) : (0 <= x <= 1)%R -> np_clip x 0%R 1%R = x.
Proof.
  intros Hx. unfold np_clip. cbn [fltb real_arith].
  destruct (Rltb x 0) eqn:E0; [apply Rltb_true in E0; lra|].
  destruct (Rltb 1 x) eqn:E1; [apply Rltb_true in E1; lra|reflexivity].
Qed.

(** Dividing non-negative scores by their positive sum gives a vector the
    program's clipping and second division leave alone, and which sums
    to 1. *)
Lemma normalise_sums_to_one (l : list R) :
  Forall (fun x => 0 <= x)%R l -> np_sum l <> 0%R ->
  let p := map (fun d => np_clip (fdiv d (np_sum l)) zero one) l in
  np_sum (map (fun q => fdiv q (np_sum p)) p) = 1%R.
Proof.
  intros Hl Hs. cbn [fdiv zero one real_arith].
  pose proof (np_sum_nonneg Hl) as Hpos.
  assert (E : map (fun d => np_clip (d / np_sum l)%R 0%R 1%R) l
              = map (fun d => d / np_sum l)%R l).
  { apply map_ext_in. intros d Hd. apply np_clip_unit.
    pose proof (proj1 (Forall_forall _ _) Hl d Hd) as H0.
    pose proof (proj1 (Forall_forall _ _) (np_sum_bounds Hl) d Hd) as H1.
    split.
    - apply Rmult_le_pos; [exact H0|].
      apply Rlt_le, Rinv_0_lt_compat. lra.
    - apply Rmult_le_reg_r with (r := np_sum l); [lra|].
      unfold Rdiv. rewrite Rmult_assoc, Rinv_l by exact Hs. lra. }
  cbv zeta. rewrite E, np_sum_div.
  rewrite (np_sum_div l (np_sum l)).
  field. exact Hs.
Qed.

Lemma selection_probabilities_length (da : list R) :
  length (selection_probabilities da) = length da.
Proof.
  unfold selection_probabilities.
  destruct (feqb (np_sum da) zero); cbv zeta; unfold np_ones_like;
    now rewrite !length_map.
Qed.

Lemma selection_probabilities_sum (da : list R) :
  Forall (fun x => 0 <= x)%R da -> da <> [] ->
  np_sum (selection_probabilities da) = 1%R.
Proof.
  intros Hda Hne. unfold selection_probabilities.
  destruct (feqb (np_sum da) zero) eqn:E; cbv zeta.
  - apply normalise_sums_to_one.
    + unfold np_ones_like. rewrite Forall_map. apply Forall_forall.
      intros x _. cbn. lra.
    + rewrite np_sum_ones. apply not_0_INR.
      destruct da; [congruence|discriminate].
  - apply normalise_sums_to_one; [exact Hda|].
    cbn in E. now apply Reqb_false in E.
Qed.

End Sums.

Section Total.

Context {G : Type} {RS : RandomState R G}.

Hypothesis draws_in_range : index_in_range.
Hypothesis draws_unit : unit_draws.

Lemma draw_doubles_unit (n : nat) (g g' : G) (rands : list R) :
  draw_doubles n g = (Ok rands, g') ->
  Forall (fun r => fltb r one = true) rands.
Proof.
  revert g g' rands. induction n as [|n IH]; intros g g' rands; simpl.
  - unfold ret. intros [= <- _]. constructor.
  - pose proof (draws_unit g) as Hx.
    destruct (next_double g) as [x g1]. unfold bind.
    destruct (draw_doubles n g1) as [[xs|e] g2] eqn:E; unfold ret;
      [|discriminate].
    intros [= <- _]. constructor; [exact Hx|eapply IH; eauto].
Qed.

Lemma np_argmin_ok (l : list R) : l <> [] -> exists j, np_argmin l = Ok j.
Proof.
  destruct l as [|v l]; [congruence|]. intros _. cbn [np_argmin].
  destruct (isnan v); eauto.
Qed.

Lemma np_argmin_axis1_ok (m : list (list R)) :
  Forall (fun r => r <> []) m -> exists labels, np_argmin_axis1 m = Ok labels.
Proof.
  induction 1 as [|r m Hr _ [labels IH]]; cbn [np_argmin_axis1]; [eauto|].
  destruct (np_argmin_ok Hr) as [i ->]. rewrite IH. cbn. eauto.
Qed.

Lemma distance_from_point_length (X : list (list R)) (c : list R) :
  length (_distance_from_point X c) = length X.
Proof. apply length_map. Qed.

Lemma distance_from_point_nonneg (X : list (list R)) (c : list R) :
  nonneg (_distance_from_point X c).
Proof.
  unfold nonneg, _distance_from_point. rewrite Forall_map.
  apply Forall_forall. intros x _. unfold dist. cbn [fsqrt real_arith].
  apply sqrt_pos.
Qed.

Lemma np_minimum_cases (a b : R) : np_minimum a b = a \/ np_minimum a b = b.
Proof. unfold np_minimum. destruct (_ || _); auto. Qed.

Lemma zip_minimum_nonneg (a b : list R) :
  nonneg a -> nonneg b -> nonneg (zip_with np_minimum a b).
Proof.
  intros Ha. revert b. unfold zip_with.
  induction Ha as [|x a Hx _ IH]; intros b Hb; [constructor|].
  destruct Hb as [|y b Hy Hb]; cbn [combine map]; constructor.
  - cbn [fst snd]. destruct (np_minimum_cases x y) as [-> | ->]; assumption.
  - apply IH. exact Hb.
Qed.

Lemma zip_minimum_length (a b : list R) :
  length a = length b -> length (zip_with np_minimum a b) = length a.
Proof.
  intros H. unfold zip_with. rewrite length_map, length_combine. lia.
Qed.

(** The scores [distances ** alpha * weights]. *)
Lemma scores_ok (distances weights : list R) (alpha : expo) :
  length distances = length weights ->
  nonneg distances -> nonneg weights ->
  exists da,
    broadcast2 fmul (map (fun d => fpow d alpha) distances) weights = Ok da
    /\ length da = length weights
    /\ nonneg da.
Proof.
  intros Hlen Hd Hw. unfold broadcast2. rewrite length_map, Hlen, Nat.eqb_refl.
  eexists. split; [reflexivity|]. split.
  - rewrite length_map, length_combine, length_map. lia.
  - unfold nonneg. rewrite Forall_map. apply Forall_forall.
    intros [p w] Hin. cbn [fst snd fmul real_arith].
    pose proof (in_combine_l _ _ _ _ Hin) as Hp.
    pose proof (in_combine_r _ _ _ _ Hin) as Hw'.
    apply in_map_iff in Hp. destruct Hp as (d & <- & Hd').
    apply Rmult_le_pos.
    + cbn [fpow real_arith]. apply pow_le.
      exact (proj1 (Forall_forall _ _) Hd d Hd').
    + exact (proj1 (Forall_forall _ _) Hw w Hw').
Qed.

Variable X : list (list R).

Hypothesis X_nonempty : X <> [].

Local Abbreviation seeding_inv := (seeding_inv X).

Lemma rand_choice_total (n_local_trials : Z) (da : list R) (g : G) :
  (0 < n_local_trials)%Z ->
  length da = length X -> nonneg da ->
  exists idxs g',
    _numba_rand_choice n_local_trials (selection_probabilities da) g
      = (Ok idxs, g')
    /\ length idxs = Z.to_nat n_local_trials
    /\ Forall (fun i => i < length X)%nat idxs.
Proof.
  intros HL Hlen Hda.
  assert (Hne : da <> []).
  { intros ->. simpl in Hlen. destruct X; [congruence|discriminate]. }
  destruct (draw_doubles_ok (Z.to_nat n_local_trials) g) as (rands & g' & Hr).
  assert (Hrand : np_random_rand n_local_trials g = (Ok rands, g')).
  { unfold np_random_rand.
    destruct (n_local_trials <? 0)%Z eqn:E; [lia|exact Hr]. }
  exists (np_searchsorted (np_cumsum (selection_probabilities da)) rands), g'.
  unfold _numba_rand_choice, bind. rewrite Hrand. unfold ret.
  split; [reflexivity|]. split.
  - unfold np_searchsorted. rewrite length_map.
    eapply draw_doubles_length; eauto.
  - unfold np_searchsorted. rewrite Forall_map.
    eapply Forall_impl; [|eapply draw_doubles_unit; eauto].
    cbv beta. intros r Hr1.
    rewrite <- Hlen, <- selection_probabilities_length.
    apply (searchsorted1_in_bounds (OL := real_order_laws)).
    + intros E. apply (f_equal (@length R)) in E.
      rewrite selection_probabilities_length in E.
      destruct da; [congruence|discriminate].
    + now rewrite selection_probabilities_sum.
Qed.

Lemma seeding_step_total (weights : list R) (alpha : expo)
    (n_local_trials : Z) (rows : nat) (st : seeding) (k : nat) (g : G) :
  length weights = length X ->
  nonneg weights ->
  (0 < n_local_trials)%Z ->
  (k < rows)%nat ->
  seeding_inv rows st ->
  exists st' g',
    seeding_step X weights alpha n_local_trials st k g = (Ok st', g')
    /\ seeding_inv rows st'.
Proof.
  intros weights_length weights_nonneg HL Hk (Hc & Hd & Hdn & Ha & Han).
  unfold seeding_step, bind, lift, ret.
  destruct (@rand_choice_total n_local_trials (s_distances_alpha st) g HL Ha Han)
    as (idxs & g' & -> & Hil & Hib).
  destruct (np_take_ok X Hib) as [cands Ht]. rewrite Ht.
  apply np_take_inv in Ht. destruct Ht as (Hcl & Hcin & _ & _).
  rewrite candidate_totals_eq.
  destruct (@np_argmin_ok (map (inertia_with X (s_distances st)) cands))
    as [best Hbest].
  { intros E. apply (f_equal (@length R)) in E.
    rewrite length_map in E. simpl in E. lia. }
  rewrite Hbest. apply np_argmin_lt in Hbest. rewrite length_map in Hbest.
  rewrite np_get_ok with (d := []) by exact Hbest.
  rewrite np_set_ok by lia.
  rewrite np_get_ok with (d := []) by (rewrite set_nth_length; lia).
  set (ds := zip_with np_minimum (s_distances st) (_distance_from_point X _)).
  assert (Hdl : length ds = length X).
  { unfold ds. rewrite zip_minimum_length; [exact Hd|].
    now rewrite distance_from_point_length. }
  assert (Hdn' : nonneg ds).
  { apply zip_minimum_nonneg; [exact Hdn|apply distance_from_point_nonneg]. }
  destruct (@scores_ok ds weights alpha) as (da & -> & Hdal & Hdan);
    [congruence|exact Hdn'|exact weights_nonneg|].
  eexists; eexists. split; [reflexivity|].
  repeat split; cbn [s_centroids s_distances s_distances_alpha]; auto.
  - now rewrite set_nth_length.
  - congruence.
Qed.

Lemma seeding_loop_total (weights : list R) (alpha : expo)
    (n_local_trials : Z) (rows : nat) (ks : list nat) (st : seeding) (g : G) :
  length weights = length X ->
  nonneg weights ->
  (0 < n_local_trials)%Z ->
  Forall (fun k => k < rows)%nat ks ->
  seeding_inv rows st ->
  exists st' g',
    foldM (seeding_step X weights alpha n_local_trials) ks st g = (Ok st', g')
    /\ seeding_inv rows st'.
Proof.
  intros Hwl Hwn HL Hks. revert st g.
  induction Hks as [|k ks Hk _ IH]; intros st g Hst; cbn [foldM].
  - unfold ret. eauto.
  - destruct (@seeding_step_total weights alpha n_local_trials rows st k g
                Hwl Hwn HL Hk Hst)
      as (st1 & g1 & Hs & Hst1).
    unfold bind. rewrite Hs. apply IH. exact Hst1.
Qed.

Lemma fallback_weights_ok (weights : list R) :
  length weights = length X -> nonneg weights ->
  let w := if np_all_zero weights then np_ones_like weights else weights in
  length w = length X /\ nonneg w.
Proof.
  intros Hl Hn. cbv zeta. destruct (np_all_zero weights); [|auto].
  split; [unfold np_ones_like; now rewrite length_map|].
  unfold nonneg, np_ones_like. rewrite Forall_map. apply Forall_forall.
  intros x _. cbn. lra.
Qed.

Lemma floor_ln_nonneg (k : Z) : (0 <= floor_ln k)%Z.
Proof. unfold floor_ln. apply floor_ln_from_nonneg. lia. Qed.

Lemma kmeans_plusplus_total (weights : list R) (n_clusters : Z)
    (alpha : expo) (g : G) :
  length weights = length X -> nonneg weights ->
  (1 <= n_clusters)%Z ->
  exists centroids g',
    _kmeans_plusplus X weights n_clusters alpha g = (Ok centroids, g')
    /\ length centroids = Z.to_nat n_clusters.
Proof.
  intros Hl Hn HK. unfold _kmeans_plusplus, bind, lift, ret.
  assert (Hlog : int_log n_clusters = Ok (floor_ln n_clusters)).
  { unfold int_log.
    destruct (n_clusters =? 0)%Z eqn:E0; [lia|].
    destruct (n_clusters <? 0)%Z eqn:E1; [lia|reflexivity]. }
  rewrite Hlog. unfold np_zeros2.
  destruct (n_clusters <? 0)%Z eqn:E; [lia|].
  destruct (randint_full_range (X := X) draws_in_range X_nonempty g)
    as (i & g1 & -> & _ & Hi).
  rewrite np_get_ok with (d := []) by exact Hi.
  rewrite np_set_ok by (rewrite repeat_length; lia).
  rewrite np_get_ok with (d := [])
    by (rewrite set_nth_length, repeat_length; lia).
  destruct (fallback_weights_ok Hl Hn) as [Hwl Hwn].
  set (w := if np_all_zero weights then np_ones_like weights else weights) in *.
  set (d0 := _distance_from_point X _).
  destruct (@scores_ok d0 w alpha) as (da & -> & Hdal & Hdan).
  { unfold d0. now rewrite distance_from_point_length. }
  { apply distance_from_point_nonneg. }
  { exact Hwn. }
  pose proof (floor_ln_nonneg n_clusters) as Hfl.
  destruct (@seeding_loop_total w alpha (2 + floor_ln n_clusters)
              (Z.to_nat n_clusters) (seq 1 (Z.to_nat n_clusters - 1))
              (Seeding (set_nth (repeat (repeat zero (length (hd [] X)))
                                   (Z.to_nat n_clusters)) 0 (nth i X []))
                       d0 da) g1 Hwl Hwn)
    as (st & g2 & -> & Hst & _).
  - lia.
  - apply Forall_forall. intros k Hk. apply in_seq in Hk. lia.
  - repeat split; cbn [s_centroids s_distances s_distances_alpha].
    + now rewrite set_nth_length, repeat_length.
    + apply distance_from_point_length.
    + apply distance_from_point_nonneg.
    + congruence.
    + exact Hdan.
  - eauto.
Qed.

Lemma assign_total (centroids : list (list R)) :
  centroids <> [] -> exists labels, assign X centroids = Ok labels.
Proof.
  intros Hc. unfold assign, _distance_from_points.
  apply np_argmin_axis1_ok. rewrite Forall_map. apply Forall_forall.
  intros x _ E. apply (f_equal (@length R)) in E. rewrite length_map in E.
  destruct centroids; [congruence|discriminate].
Qed.

Lemma lloyd_total (weights : list R) (n_clusters : Z) (iters : nat)
    (centroids : list (list R)) (labels : list nat) (g : G) :
  length weights = length X ->
  (1 <= n_clusters)%Z ->
  length centroids = Z.to_nat n_clusters ->
  exists centroids' labels' g',
    lloyd X weights n_clusters iters centroids labels g
    = (Ok (centroids', labels'), g').
Proof.
  intros Hwl HK. revert centroids labels g.
  induction iters as [|iters IH]; intros centroids labels g Hc; cbn [lloyd].
  - unfold ret. eauto.
  - unfold bind, lift.
    destruct (@assign_total centroids) as [new_labels Ha].
    { intros ->. simpl in Hc. lia. }
    rewrite Ha. apply assign_inv in Ha. destruct Ha as [Hll _].
    unfold update.
    destruct (@update_loop R _ G _ X weights new_labels draws_in_range
                X_nonempty Hwl Hll (seq 0 (Z.to_nat n_clusters))
                (map (map (fun _ => zero)) centroids) g)
      as (nc & g1 & -> & Hnl & _).
    + apply seq_NoDup.
    + apply Forall_forall. intros k Hk. apply in_seq in Hk.
      rewrite length_map. lia.
    + destruct (np_allclose centroids nc); [unfold ret; eauto|].
      apply IH. rewrite Hnl, length_map. exact Hc.
Qed.


End Total.

End ExactTotal.

(** * Runs on concrete inputs *)

Module Float64Runs.

Import PrimFloat Float64 Float64Samples.

Local Open Scope float_scope.

Lemma tape_index_in_range : index_in_range (RS := float_rs).
Proof.
  intros n g Hn. cbn. unfold tape_next_index.
  destruct (t_index g) as [|i rest]; cbn; [exact Hn|].
  apply Nat.mod_upper_bound. lia.
Qed.

(** C1 (code does otherwise). On the points 0 and 10 with two clusters
    the seeding picks both points; the first Assign phase labels them 0
    and 1, the first Update phase reproduces the centroids, the
    convergence check passes, and [kmeans] returns the labels it started
    with, [0; 0], not the labels [0; 1] of that Assign phase.  On the
    points 0 and 2^-30 with one cluster the check passes at once and
    [kmeans] returns the centroid it started with, 0, not the centroid
    2^-31 of that Update phase. *)
Theorem converged_run_returns_previous_state :
  (let X := two_points in
   let w := [1; 1] in
   _kmeans_plusplus X w 2 2%nat g_first0 = (Ok [[0]; [10]], Tape [] [])
   /\ assign X [[0]; [10]] = Ok [0; 1]%nat
   /\ update X w 2 [[0]; [10]] [0; 1]%nat (Tape [] [])
      = (Ok [[0]; [10]], Tape [] [])
   /\ np_allclose [[0]; [10]] [[0]; [10]] = true
   /\ kmeans X w 2 100 2%nat None g_first0
      = (Ok ([[0]; [10]], [0; 0]%nat), Tape [] []))
  /\
  (let X := [[0]; [0x1p-30]] in
   let w := [1; 1] in
   _kmeans_plusplus X w 1 2%nat g_first0 = (Ok [[0]], Tape [] [0.5; 0.5])
   /\ assign X [[0]] = Ok [0; 0]%nat
   /\ update X w 1 [[0]] [0; 0]%nat (Tape [] [0.5; 0.5])
      = (Ok [[0x1p-31]], Tape [] [0.5; 0.5])
   /\ np_allclose [[0]] [[0x1p-31]] = true
   /\ kmeans X w 1 100 2%nat None g_first0
      = (Ok ([[0]], [0; 0]%nat), Tape [] [0.5; 0.5])).
Proof. repeat split; vm_compute; reflexivity. Qed.

(** C2 (as stated, fails). Two clusters are accepted for a single point,
    and a negative weight is accepted: both calls return a result. *)
Lemma kmeans_accepts_invalid_input :
  (Z.of_nat (length one_point) < 2)%Z
  /\ kmeans one_point [1] 2 100 2%nat None g_first0
     = (Ok ([[1]; [1]], [0%nat]), Tape [] [])
  /\ PrimFloat.ltb (-1) 0 = true
  /\ kmeans two_points [1; -1] 2 100 2%nat None g_first0
     = (Ok ([[0]; [10]], [0; 0]%nat), Tape [] []).
Proof. repeat split; vm_compute; reflexivity. Qed.

(** C3 (as stated, fails). An unseeded call consumes draws of the
    process-wide generator, and its result depends on the state the
    generator was left in. *)
Lemma kmeans_reads_and_writes_generator :
  snd (kmeans two_points [1; 1] 2 100 2%nat None g_first0) <> g_first0
  /\ fst (kmeans two_points [1; 1] 2 100 2%nat None g_first0)
     <> fst (kmeans two_points [1; 1] 2 100 2%nat None g_first1).
Proof.
  split; vm_compute.
  - discriminate.
  - discriminate.
Qed.

(** C9 (as stated, fails). In binary64, weights 1, 1, 1 and the same
    weights multiplied by 0.1 give centroids that differ in the last
    place. *)
Lemma float_weight_scale_changes_centroid :
  let c := 0x1.999999999999ap-4 in
  PrimFloat.ltb 0 c = true
  /\ fst (kmeans three_points [1; 1; 1] 1 100 2%nat None g_first0)
     = Ok ([[0x1.2aaaaaaaaaaabp+1]], [0; 0; 0]%nat)
  /\ fst (kmeans three_points (map (PrimFloat.mul c) [1; 1; 1]) 1 100 2%nat
            None g_first0)
     = Ok ([[0x1.2aaaaaaaaaaaap+1]], [0; 0; 0]%nat)
  /\ fst (kmeans three_points (map (PrimFloat.mul c) [1; 1; 1]) 1 100 2%nat
            None g_first0)
     <> fst (kmeans three_points [1; 1; 1] 1 100 2%nat None g_first0).
Proof.
  cbv zeta. repeat split; vm_compute; try reflexivity.
  discriminate.
Qed.

(** Instances of the general results on these inputs. *)

Lemma kmeans_rejects_witness :
  (exists e,
     kmeans two_points [1; 1] 0 100 2%nat None g_first0 = (Raise e, g_first0))
  /\ (exists e g',
        kmeans two_points [1] 2 100 2%nat None g_first0 = (Raise e, g')).
Proof.
  split.
  - apply (proj1 (kmeans_rejects (AF := float_arith) (RS := float_rs)
                    two_points [1; 1] 0 100 2%nat None g_first0)).
    left. lia.
  - apply (proj2 (kmeans_rejects (AF := float_arith) (RS := float_rs)
                    two_points [1] 2 100 2%nat None g_first0)).
    + simpl. lia.
    + lia.
Defined.

Lemma kmeans_result_shape_witness :
  length [[0]; [10]] = Z.to_nat 2
  /\ Forall (fun r => length r = 1%nat) [[0]; [10]]
  /\ length [0; 0]%nat = length two_points
  /\ Forall (fun l => (l < Z.to_nat 2)%nat) [0; 0]%nat.
Proof.
  apply (kmeans_result_shape (AF := float_arith) (RS := float_rs)
           (X := two_points) (n_features := 1)
           ltac:(repeat constructor) [1; 1] (n_clusters := 2)
           (max_iter := 100) 2%nat None g_first0 (g' := Tape [] [])).
  - simpl. lia.
  - reflexivity.
  - lia.
  - vm_compute. reflexivity.
Defined.

Lemma zero_weights_witness :
  kmeans two_points [0; -0] 2 100 2%nat None g_first0
  = kmeans two_points (np_ones_like [0; -0]) 2 100 2%nat None g_first0
  /\ _kmeans_plusplus two_points [0; -0] 2 2%nat g_first0
     = _kmeans_plusplus two_points (np_ones_like [0; -0]) 2 2%nat g_first0.
Proof.
  apply (zero_weights_same_as_ones (AF := float_arith) (RS := float_rs)
           two_points (weights := [0; -0]) 2 100
           2%nat None g_first0).
  repeat constructor.
Defined.

Lemma empty_cluster_witness :
  let X := two_points in
  let weights := [1; 1] in
  let centroids := [[0]; [0]] in
  let new_labels := [0; 0]%nat in
  let draws := reseed_draws (length X) (empty_clusters new_labels 2) g_first1 in
  exists new_centroids,
    update X weights 2 centroids new_labels g_first1
      = (Ok new_centroids, snd draws)
    /\ length new_centroids = Z.to_nat 2
    /\ map fst (fst draws) = empty_clusters new_labels 2
    /\ (forall k i, In (k, i) (fst draws) ->
          empty_cluster new_labels k
          /\ (i < length X)%nat
          /\ nth k new_centroids [] = nth i X [])
    /\ forall (iters : nat) (labels : list nat),
         lloyd X weights 2 (S iters) centroids labels g_first1
         = (if np_allclose centroids new_centroids
            then ret (centroids, labels)
            else lloyd X weights 2 iters new_centroids new_labels)
             (snd draws)
         /\ exists centroids' labels' g',
              lloyd X weights 2 (S iters) centroids labels g_first1
              = (Ok (centroids', labels'), g')
              /\ length centroids' = Z.to_nat 2.
Proof.
  apply (@empty_cluster_reseeded float float_arith (tape float) float_rs
           two_points [1; 1] 2 tape_index_in_range ltac:(discriminate)
           eq_refl [[0]; [0]] [0; 0]%nat g_first1 eq_refl).
  vm_compute. reflexivity.
Defined.

Lemma seeder_adopts_best_witness :
  let X := three_points in
  let centroids := [[1]; [4]; [2]] in
  let g := Tape [0%nat] [0.5; 0.5; 0.5; 0.5; 0.5; 0.5; 0.5] in
  let g' := Tape [] [0.5] in
  let L := (2 + floor_ln 3)%Z in
  let w := effective_weights [1; 1; 1] in
  int_log 3 = Ok (floor_ln 3)
  /\ (2 <= L)%Z
  /\ exists trace : list (seeding * tape float),
       let state k := fst (nth k trace (Seeding [] [] [], g)) in
       let gen k := snd (nth k trace (Seeding [] [] [], g)) in
       length trace = Z.to_nat 3
       /\ gen 0%nat = snd (next_index (length X) g)
       /\ gen (Z.to_nat 3 - 1)%nat = g'
       /\ s_distances (state 0%nat)
          = _distance_from_point X (nth 0 centroids [])
       /\ (forall k, (k < Z.to_nat 3)%nat ->
             broadcast2 fmul
               (map (fun d => fpow d 2%nat) (s_distances (state k))) w
             = Ok (s_distances_alpha (state k)))
       /\ forall k, (1 <= k < Z.to_nat 3)%nat ->
            exists rands best,
              let candidate_idxs :=
                np_searchsorted
                  (np_cumsum (selection_probabilities
                                (s_distances_alpha (state (k - 1)%nat))))
                  rands in
              let total i :=
                inertia_with X (s_distances (state (k - 1)%nat))
                  (nth i X []) in
              np_random_rand L (gen (k - 1)%nat) = (Ok rands, gen k)
              /\ length rands = Z.to_nat L
              /\ length candidate_idxs = Z.to_nat L
              /\ (best < length candidate_idxs)%nat
              /\ nth k centroids []
                 = nth (nth best candidate_idxs 0%nat) X []
              /\ (forall j, (j < length candidate_idxs)%nat ->
                    fltb (total (nth j candidate_idxs 0%nat))
                         (total (nth best candidate_idxs 0%nat)) = false)
              /\ s_distances (state k)
                 = zip_with np_minimum (s_distances (state (k - 1)%nat))
                     (_distance_from_point X (nth k centroids [])).
Proof.
  apply (@seeder_adopts_best_of_trials float float_arith (tape float)
           float_rs Float64Laws.float_order_laws three_points [1; 1; 1] 3
           2%nat [[1]; [4]; [2]]
           (Tape [0%nat] [0.5; 0.5; 0.5; 0.5; 0.5; 0.5; 0.5])
           (Tape [] [0.5])).
  vm_compute. reflexivity.
Defined.

Lemma rand_choice_witness :
  exists idxs,
    _numba_rand_choice 2 quarter_probabilities g_first0
      = (Ok idxs, Tape [0%nat] [])
    /\ length idxs = Z.to_nat 2
    /\ Forall (fun i => (i < length quarter_probabilities)%nat) idxs
    /\ forall X : list (list float),
         length X = length quarter_probabilities ->
         exists candidates,
           np_take X idxs = Ok candidates
           /\ length candidates = length idxs.
Proof.
  apply (rand_choice_in_bounds (AF := float_arith) (RS := float_rs)
           (OL := Float64Laws.float_order_laws)
           (size := 2) quarter_probabilities (rands := [0.5; 0.5]) g_first0).
  - lia.
  - vm_compute. reflexivity.
  - vm_compute. reflexivity.
  - vm_compute. reflexivity.
  - repeat constructor.
Defined.

Lemma kmeans_seeded_frame_witness :
  kmeans two_points [1; 1] 2 100 2%nat (Some 1%Z) g_first0
  = kmeans two_points [1; 1] 2 100 2%nat None (seeded 1).
Proof.
  apply (kmeans_seeded_frame (AF := float_arith) (RS := float_rs)
           two_points [1; 1] 2 100 2%nat 1%Z g_first0).
  reflexivity.
Defined.

(** C10 (code does otherwise). The sampler can return the length of the
    vector, and the Seeder then indexes the point set out of bounds.  On
    six one-dimensional points 0, 1, 1, 1, 1, 1 with the positive weights
    1, 3, 10, 16, 17, 2 and two clusters, the first centroid is the point
    0, the scores are 0, 3, 10, 16, 17, 2, and the selection distribution
    the Seeder computes from them has entries between 0 and 1 whose
    cumulative sums end at 1 - 2^-52, not at 1.  The uniform draw
    1 - 2^-53, which is below 1, is above every cumulative sum:
    [np.searchsorted] maps it to 6, the length of the vector, indexing the
    six points by it raises, and so does the call of [kmeans]. *)
Theorem seeder_candidate_out_of_bounds :
  let X := six_points in
  let weights := six_weights in
  let scores := [0; 3; 10; 16; 17; 2] in
  let p := selection_probabilities scores in
  let top := 0x1.fffffffffffffp-1 in
  (length weights = length X
   /\ forallb (fun w => PrimFloat.ltb 0 w) weights = true
   /\ (2 <= Z.of_nat (length X))%Z)
  /\ (broadcast2 fmul
        (map (fun d => fpow d 2%nat) (_distance_from_point X (nth 0 X [])))
        weights
      = Ok scores
      /\ length p = length X
      /\ forallb (fun q => PrimFloat.leb 0 q && PrimFloat.leb q 1) p = true
      /\ np_sum p = 0x1.ffffffffffffep-1
      /\ nth 5 (np_cumsum p) 0 = 0x1.ffffffffffffep-1)
  /\ (PrimFloat.ltb 0 0.5 && PrimFloat.ltb 0.5 1 = true
      /\ PrimFloat.ltb 0 top && PrimFloat.ltb top 1 = true
      /\ PrimFloat.ltb (nth 5 (np_cumsum p) 0) top = true)
  /\ _numba_rand_choice 2 p (Tape [] [0.5; top])
     = (Ok [3; 6]%nat, Tape [] [])
  /\ np_take X [3; 6]%nat = Raise IndexError
  /\ _kmeans_plusplus X weights 2 2%nat g_top
     = (Raise IndexError, Tape [] [])
  /\ kmeans X weights 2 100 2%nat None g_top
     = (Raise IndexError, Tape [] []).
Proof.
  cbv zeta. repeat split; try (vm_compute; reflexivity).
  vm_compute. discriminate.
Qed.

End Float64Runs.

Module ExactRuns.

Import Exact ExactVocabulary ExactSamples ExactScaling.

Local Open Scope R_scope.

Lemma weight_scale_witness :
  kmeans [[1]; [2]; [4]] (scale 2 [1; 1; 1]) 1 100 2%nat None
    (Tape [0%nat] [])
  = kmeans [[1]; [2]; [4]] [1; 1; 1] 1 100 2%nat None (Tape [0%nat] []).
Proof.
  apply (kmeans_weight_scale_invariant (RS := real_rs) (c := 2) ltac:(lra)
           [[1]; [2]; [4]] [1; 1; 1] 1 100 2%nat None (Tape [0%nat] [])).
Defined.

End ExactRuns.

(** * Further properties of the code *)

(** ** The distance engine *)

Section DistanceEngine.

Context {F : Type} {AF : Arith F}.

Lemma distance_from_point_nth (X : list (list F)) (point : list F) (i : nat) :
  i < length X ->
  nth i (_distance_from_point X point) zero = dist (nth i X []) point.
Proof.
  intros Hi. unfold _distance_from_point.
  rewrite nth_indep with (d' := dist [] point) by now rewrite length_map.
  apply (map_nth (fun x => dist x point)).
Qed.

Lemma distance_matrix_entry (X points : list (list F)) (i j : nat) :
  i < length X -> j < length points ->
  nth j (nth i (_distance_from_points X points) []) zero
  = dist (nth i X []) (nth j points []).
Proof.
  intros Hi Hj. unfold _distance_from_points.
  rewrite nth_indep with (d' := map (fun p => dist [] p) points)
    by now rewrite length_map.
  rewrite (map_nth (fun x => map (fun p => dist x p) points)).
  rewrite nth_indep with (d' := dist (nth i X []) [])
    by now rewrite length_map.
  apply (map_nth (fun p => dist (nth i X []) p)).
Qed.

End DistanceEngine.

(** ** What the Seeder returns *)

Section SeederRows.

Context {F : Type} {AF : Arith F} {G : Type} {RS : RandomState F G}.

Variables (X : list (list F)) (alpha : expo).

Lemma seeding_step_row (weights : list F) (n_local_trials : Z) (st st' : seeding) (k : nat)
    (g g' : G) :
  seeding_step X weights alpha n_local_trials st k g = (Ok st', g') ->
  k < length (s_centroids st)
  /\ exists row, In row X /\ s_centroids st' = set_nth (s_centroids st) k row.
Proof.
  intros H. unfold seeding_step in H.
  apply bind_inv in H. destruct H as (idxs & g1 & _ & H).
  apply bind_inv in H. destruct H as (cands & g2 & Hc & H).
  apply lift_inv in Hc. destruct Hc as [Hc ->].
  apply bind_inv in H. destruct H as (best & g3 & _ & H).
  apply bind_inv in H. destruct H as (bc & g4 & Hb & H).
  apply lift_inv in Hb. destruct Hb as [Hb ->].
  apply bind_inv in H. destruct H as (cs & g5 & Hs & H).
  apply lift_inv in Hs. destruct Hs as [Hs ->].
  apply bind_inv in H. destruct H as (ck & g6 & _ & H).
  apply bind_inv in H. destruct H as (da & g7 & _ & H).
  apply ret_inv in H. destruct H as [-> _]. cbn [s_centroids].
  apply np_set_inv in Hs. destruct Hs as [Hk ->].
  split; [exact Hk|]. exists bc. split; [|reflexivity].
  apply np_take_inv in Hc. destruct Hc as (_ & Hin & _).
  apply np_get_inv in Hb. destruct Hb as (_ & Hb & _).
  exact (proj1 (Forall_forall _ _) Hin _ Hb).
Qed.

Lemma seeding_loop_rows (weights : list F) (n_local_trials : Z) (n a : nat) (st st' : seeding)
    (g g' : G) :
  (forall j, j < a -> In (nth j (s_centroids st) []) X) ->
  foldM (seeding_step X weights alpha n_local_trials) (seq a n) st g
    = (Ok st', g') ->
  length (s_centroids st') = length (s_centroids st)
  /\ forall j, j < a + n -> In (nth j (s_centroids st') []) X.
Proof.
  revert a st g. induction n as [|n IH]; intros a st g Hpre H; cbn [seq foldM] in H.
  - apply ret_inv in H. destruct H as [-> _]. split; [reflexivity|].
    intros j Hj. apply Hpre. lia.
  - apply bind_inv in H. destruct H as (st1 & g1 & Hstep & H).
    apply seeding_step_row in Hstep. destruct Hstep as (Ha & row & Hrow & Hcs).
    apply IH in H.
    + destruct H as [Hlen Hin]. split.
      * rewrite Hlen, Hcs. apply set_nth_length.
      * intros j Hj. apply Hin. lia.
    + intros j Hj. rewrite Hcs.
      destruct (Nat.eq_dec j a) as [->|Hne].
      * now rewrite set_nth_same.
      * rewrite set_nth_other by congruence. apply Hpre. lia.
Qed.

Lemma kmeans_plusplus_nth_in (weights : list F) (n_clusters : Z)
    (centroids : list (list F)) (g g' : G) (j : nat) :
  _kmeans_plusplus X weights n_clusters alpha g = (Ok centroids, g') ->
  j < Z.to_nat n_clusters ->
  In (nth j centroids []) X.
Proof.
  intros H Hj. pose proof (kmeans_plusplus_rows _ _ _ _ _ H) as (HK & Hpos & _).
  unfold _kmeans_plusplus in H.
  apply bind_inv in H. destruct H as (log_k & g1 & _ & H).
  apply bind_inv in H. destruct H as (c0 & g2 & Hz & H).
  apply lift_inv in Hz. destruct Hz as [Hz ->].
  apply bind_inv in H. destruct H as (first_idx & g3 & _ & H).
  apply bind_inv in H. destruct H as (x0 & g4 & Hx & H).
  apply lift_inv in Hx. destruct Hx as [Hx ->].
  apply bind_inv in H. destruct H as (c1 & g5 & Hs & H).
  apply lift_inv in Hs. destruct Hs as [Hs ->].
  apply bind_inv in H. destruct H as (ck & g6 & _ & H).
  apply bind_inv in H. destruct H as (da & g7 & _ & H).
  apply bind_inv in H. destruct H as (st & g8 & Hf & H).
  apply ret_inv in H. destruct H as [-> _].
  apply np_get_inv in Hx. destruct Hx as (_ & Hx & _).
  apply np_set_inv in Hs. destruct Hs as [H0 ->].
  apply seeding_loop_rows in Hf.
  - destruct Hf as [_ Hin]. apply Hin. lia.
  - cbn [s_centroids]. intros i Hi. replace i with 0 by lia.
    now rewrite set_nth_same.
Qed.

(** X2. The Seeder returns [n_clusters] centroids, every one of them a
    row of the point set: a copy of an original point, never a computed
    value (and never a row of the zero matrix the centroids start as). *)
Theorem kmeans_plusplus_returns_points (weights : list F) (n_clusters : Z)
    (centroids : list (list F)) (g g' : G) :
  _kmeans_plusplus X weights n_clusters alpha g = (Ok centroids, g') ->
  length centroids = Z.to_nat n_clusters
  /\ Forall (fun c => In c X) centroids.
Proof.
  intros H. pose proof (kmeans_plusplus_rows _ _ _ _ _ H) as (HK & _ & _).
  split; [exact HK|].
  apply Forall_forall. intros c Hc.
  apply In_nth with (d := []) in Hc. destruct Hc as (j & Hj & <-).
  eapply kmeans_plusplus_nth_in; [exact H|]. now rewrite <- HK.
Qed.

Lemma seeding_loop_first (weights : list F) (n_local_trials : Z) (n a : nat)
    (st st' : seeding) (g g' : G) :
  0 < a ->
  foldM (seeding_step X weights alpha n_local_trials) (seq a n) st g
    = (Ok st', g') ->
  nth 0 (s_centroids st') [] = nth 0 (s_centroids st) [].
Proof.
  revert a st g. induction n as [|n IH]; intros a st g Ha H;
    cbn [seq foldM] in H.
  - apply ret_inv in H. now destruct H as [-> _].
  - apply bind_inv in H. destruct H as (st1 & g1 & Hstep & H).
    apply seeding_step_row in Hstep. destruct Hstep as (_ & row & _ & Hcs).
    apply IH in H; [|lia]. rewrite H, Hcs.
    apply set_nth_other. lia.
Qed.

(** X3. The first centroid of the Seeder is the row of the point set at
    the index the generator draws first, over the whole of
    [range(n_samples)]: the weights play no part in this choice, and the
    later steps of the Seeder leave the row as it is. *)
Theorem kmeans_plusplus_first_centroid (weights : list F) (n_clusters : Z)
    (centroids : list (list F)) (g g' : G) :
  _kmeans_plusplus X weights n_clusters alpha g = (Ok centroids, g') ->
  let first_idx := fst (next_index (length X) g) in
  first_idx < length X
  /\ nth 0 centroids [] = nth first_idx X [].
Proof.
  intros H. cbv zeta. unfold _kmeans_plusplus in H.
  apply bind_inv in H. destruct H as (log_k & g1 & Hlog & H).
  apply lift_inv in Hlog. destruct Hlog as [_ ->].
  apply bind_inv in H. destruct H as (c0 & g2 & Hz & H).
  apply lift_inv in Hz. destruct Hz as [_ ->].
  apply bind_inv in H. destruct H as (first_idx & g3 & Hr & H).
  apply bind_inv in H. destruct H as (x0 & g4 & Hx & H).
  apply lift_inv in Hx. destruct Hx as [Hx ->].
  apply bind_inv in H. destruct H as (c1 & g5 & Hs & H).
  apply lift_inv in Hs. destruct Hs as [Hs ->].
  apply bind_inv in H. destruct H as (ck & g6 & _ & H).
  apply bind_inv in H. destruct H as (da & g7 & _ & H).
  apply bind_inv in H. destruct H as (st & g8 & Hf & H).
  apply ret_inv in H. destruct H as [-> _].
  apply seeding_loop_first in Hf; [|lia]. cbn [s_centroids] in Hf.
  apply np_set_inv in Hs. destruct Hs as [H0 ->].
  rewrite set_nth_same in Hf by exact H0.
  apply np_get_inv in Hx. destruct Hx as (Hlt & _ & Hnth).
  unfold np_random_randint in Hr.
  destruct (length X <=? 0); [discriminate|].
  rewrite Nat.sub_0_r in Hr.
  destruct (next_index (length X) g) as [i gi]. injection Hr as <- _.
  cbn [fst plus]. split; [exact Hlt|]. rewrite Hf. symmetry. apply Hnth.
Qed.

End SeederRows.

(** ** What the optimizer returns *)

Section Pairing.

Context {F : Type} {AF : Arith F} {G : Type} {RS : RandomState F G}.

Lemma lloyd_pairing (X : list (list F)) (weights : list F) (n_clusters : Z)
    (iters : nat) (c0 c : list (list F)) (l0 l : list nat) (g g' : G) :
  lloyd X weights n_clusters iters c0 l0 g = (Ok (c, l), g') ->
  (c = c0 /\ l = l0)
  \/ exists prev g1 g2,
       assign X prev = Ok l
       /\ update X weights n_clusters prev l g1 = (Ok c, g2).
Proof.
  revert c0 l0 g. induction iters as [|iters IH]; intros c0 l0 g H;
    cbn [lloyd] in H.
  - apply ret_inv in H. destruct H as [[= -> ->] _]. now left.
  - apply bind_inv in H. destruct H as (new_labels & g1 & Ha & H).
    apply lift_inv in Ha. destruct Ha as [Ha ->].
    apply bind_inv in H. destruct H as (new_centroids & g2 & Hu & H).
    destruct (np_allclose c0 new_centroids).
    + apply ret_inv in H. destruct H as [[= -> ->] _]. now left.
    + apply IH in H. destruct H as [[-> ->]|H]; [|now right].
      right. exists c0, g, g2. auto.
Qed.

(** X4. What [kmeans] returns is either the seed centroids with the
    all-zero labels it starts from, or a pair in which the labels are the
    Assign phase of some earlier centroids and the centroids are the
    Update phase of exactly these labels: the returned centroids are
    computed from the returned labels, the labels are not recomputed from
    the returned centroids. *)
Theorem kmeans_returns_update_of_labels (X : list (list F)) (weights : list F)
    (n_clusters max_iter : Z) (alpha : expo) (random_state : option Z)
    (g g' : G) (centroids : list (list F)) (labels : list nat) :
  kmeans X weights n_clusters max_iter alpha random_state g
    = (Ok (centroids, labels), g') ->
  (labels = repeat 0 (length X)
   /\ exists g0 g1,
        _kmeans_plusplus X (effective_weights weights) n_clusters alpha g0
        = (Ok centroids, g1))
  \/ exists prev g1 g2,
       assign X prev = Ok labels
       /\ update X (effective_weights weights) n_clusters prev labels g1
          = (Ok centroids, g2).
Proof.
  intros H. unfold kmeans in H.
  apply bind_inv in H. destruct H as (u & g0 & _ & H).
  apply bind_inv in H. destruct H as (c0 & g1 & Hpp & H).
  apply lloyd_pairing in H. destruct H as [[-> ->]|H].
  - left. split; [reflexivity|]. exists g0, g1. exact Hpp.
  - right. exact H.
Qed.

(** X5. With [max_iter] zero or negative the loop body never runs:
    [kmeans] returns the seed centroids, as the Seeder returns them from
    the generator state at entry, and labels that are all zero, whatever
    the points are. *)
Theorem kmeans_without_iterations (X : list (list F)) (weights : list F)
    (n_clusters max_iter : Z) (alpha : expo) (random_state : option Z)
    (g g' : G) (centroids : list (list F)) (labels : list nat) :
  (max_iter <= 0)%Z ->
  kmeans X weights n_clusters max_iter alpha random_state g
    = (Ok (centroids, labels), g') ->
  labels = repeat 0 (length X)
  /\ _kmeans_plusplus X (effective_weights weights) n_clusters alpha
       (entry_state random_state g)
     = (Ok centroids, g').
Proof.
  intros Hiter H. unfold kmeans in H.
  apply bind_inv in H. destruct H as (u & g0 & Hseed & H).
  apply bind_inv in H. destruct H as (c0 & g1 & Hpp & H).
  fold (effective_weights weights) in Hpp, H.
  replace (Z.to_nat max_iter) with 0 in H by lia. cbn [lloyd] in H.
  apply ret_inv in H. destruct H as [[= <- <-] <-].
  split; [reflexivity|].
  assert (Hg : g0 = entry_state random_state g).
  { unfold entry_state. destruct random_state as [s|].
    - unfold np_random_seed in Hseed.
      destruct (valid_seed s); [|discriminate]. now injection Hseed.
    - apply ret_inv in Hseed. now destruct Hseed. }
  now rewrite <- Hg.
Qed.

End Pairing.

(** ** The Update phase and the generator *)

Section UpdateDraws.

Context {F : Type} {AF : Arith F} {G : Type} {RS : RandomState F G}.

Variables (X : list (list F)) (weights : list F) (new_labels : list nat).

Lemma update_centroid_members (nc : list (list F)) (k : nat) :
  ~ empty_cluster new_labels k ->
  exists r, forall g : G,
    update_centroid X weights new_labels nc k g = (r, g).
Proof.
  intros Hk. unfold empty_cluster in Hk. unfold update_centroid.
  destruct (existsb (fun b => b) (map (Nat.eqb k) new_labels));
    [|congruence].
  unfold bind, lift.
  destruct (np_mask X _) as [cp|e]; [|eauto].
  destruct (np_mask weights _) as [cw|e]; [|eauto].
  eauto.
Qed.

Lemma update_loop_members (ks : list nat) (nc : list (list F)) :
  Forall (fun k => ~ empty_cluster new_labels k) ks ->
  exists r, forall g : G,
    foldM (update_centroid X weights new_labels) ks nc g = (r, g).
Proof.
  intros Hks. revert nc.
  induction Hks as [|k ks Hk _ IH]; intros nc; cbn [foldM].
  - exists (Ok nc). reflexivity.
  - destruct (update_centroid_members nc Hk) as [[nc1|e] Hr].
    + destruct (IH nc1) as [r Hf]. exists r. intros g.
      unfold bind. now rewrite Hr, Hf.
    + exists (Raise e). intros g. unfold bind. now rewrite Hr.
Qed.

(** X6. An Update phase in which every cluster has a member draws no
    random number: its outcome does not depend on the state of the
    generator and the state is left as it was. *)
Theorem update_without_empty_cluster (n_clusters : Z)
    (centroids : list (list F)) :
  (forall k, k < Z.to_nat n_clusters -> ~ empty_cluster new_labels k) ->
  exists r, forall g : G,
    update X weights n_clusters centroids new_labels g = (r, g).
Proof.
  intros Hall. unfold update. apply update_loop_members.
  apply Forall_forall. intros k Hk. apply in_seq in Hk. apply Hall. lia.
Qed.

End UpdateDraws.

(** ** The comparison is a strict weak order in both arithmetics *)

Module ExactWeakLaws.

Import Exact ExactLaws.

Lemma real_weak_order_laws : WeakOrderLaws R.
Proof.
  split. cbn. intros a b c Hab _. apply Rltb_true in Hab.
  destruct (Rlt_dec a c) as [Hac|Hac].
  - left. now apply Rltb_true.
  - right. apply Rltb_true. lra.
Qed.

End ExactWeakLaws.

Module Float64WeakLaws.

Import Float64 SpecFloat Float64Laws.

Lemma SFcompare_lt_cotrans (a b c : spec_float) :
  SFcompare a b = Some Lt -> c <> S754_nan ->
  SFcompare a c = Some Lt \/ SFcompare c b = Some Lt.
Proof.
  destruct a as [sa|sa| |sa ma ea], b as [sb|sb| |sb mb eb],
           c as [sc|sc| |sc mc ec]; cbn; intros H Hc;
    try discriminate; try congruence;
    try (destruct sa; try discriminate; destruct sc; auto; fail);
    try (destruct sb; try discriminate; destruct sc; auto; fail);
    try (destruct sa, sb; try discriminate; destruct sc; auto; fail);
    try (destruct sa, sb; try discriminate; auto; fail).
  all: try (destruct sa, sb, sc; try discriminate; auto; fail).
  all: fold (Pos.compare ma mb) in *; fold (Pos.compare mb mc) in *;
       fold (Pos.compare ma mc) in *; fold (Pos.compare mc mb) in *.
  all: destruct sa, sb, sc; try discriminate; auto.
  all: revert H;
    destruct (Z.compare_spec ea eb), (Z.compare_spec ea ec),
             (Z.compare_spec ec eb); subst; try lia; auto; try discriminate;
    destruct (Pos.compare_spec ma mb), (Pos.compare_spec ma mc),
             (Pos.compare_spec mc mb); subst; cbn; auto; try discriminate;
    try lia.
Qed.

Lemma float_weak_order_laws : WeakOrderLaws PrimFloat.float.
Proof.
  split. cbn. intros a b c Hab Hc. apply float_ltb_compare in Hab.
  assert (Hc' : FloatOps.Prim2SF c <> S754_nan).
  { intros E. unfold isnan in Hc. cbn in Hc.
    rewrite FloatAxioms.eqb_spec, E in Hc. discriminate. }
  destruct (@SFcompare_lt_cotrans _ _ _ Hab Hc') as [H|H];
    [left|right]; now apply float_ltb_compare.
Qed.

End Float64WeakLaws.

(** ** The Assign phase *)

Section Assign.

Context {F : Type} {AF : Arith F} {OL : OrderLaws F} {WL : WeakOrderLaws F}.

(** Among the entries scanned so far the running best is the first least
    one. *)
Lemma argmin_from_first (l a : list F) (best_i i : nat) :
  skipn i l = a ->
  best_i < i ->
  (forall p, p < i -> isnan (nth p l zero) = false) ->
  (forall p, p < best_i ->
     fltb (nth best_i l zero) (nth p l zero) = true) ->
  (forall p, p < i -> fltb (nth p l zero) (nth best_i l zero) = false) ->
  let r := argmin_from best_i (nth best_i l zero) i a in
  isnan (nth r l zero) = false ->
  forall p, p < r -> fltb (nth r l zero) (nth p l zero) = true.
Proof.
  revert best_i i. induction a as [|v a IH];
    intros best_i i Hs Hb Hnum Hfirst Hpre; cbn [argmin_from].
  - cbv zeta. intros _. exact Hfirst.
  - apply skipn_cons_inv in Hs. destruct Hs as (Hi & Hv & Hs).
    destruct (isnan v) eqn:Hnan.
    + cbv zeta. rewrite (Hv zero). congruence.
    + assert (Hnum' : forall p, p < S i -> isnan (nth p l zero) = false).
      { intros p Hp. destruct (Nat.eq_dec p i) as [->|Hne];
          [now rewrite (Hv zero)|apply Hnum; lia]. }
      destruct (fltb v (nth best_i l zero)) eqn:Hlt.
      * rewrite <- (Hv zero) in *. apply (IH i (S i)); auto.
        -- intros p Hp.
           destruct (fltb_cotrans _ _ (nth p l zero) Hlt (Hnum p Hp))
             as [H|H]; [exact H|].
           rewrite Hpre in H by exact Hp. discriminate.
        -- intros p Hp.
           destruct (Nat.eq_dec p i) as [->|Hne]; [apply fltb_irrefl|].
           destruct (fltb (nth p l zero) (nth i l zero)) eqn:E;
             [|reflexivity].
           rewrite <- (Hpre p ltac:(lia)). symmetry.
           eapply fltb_trans; eauto.
      * apply (IH best_i (S i)); auto.
        intros p Hp.
        destruct (Nat.eq_dec p i) as [->|Hne]; [now rewrite (Hv zero)|].
        apply Hpre. lia.
Qed.

Lemma np_argmin_first (l : list F) (j : nat) :
  np_argmin l = Ok j ->
  isnan (nth j l zero) = false ->
  forall p, p < j -> fltb (nth j l zero) (nth p l zero) = true.
Proof.
  destruct l as [|v a]; [discriminate|]. cbn [np_argmin].
  destruct (isnan v) eqn:Hnan; intros [= <-].
  - intros _ p Hp. lia.
  - apply (@argmin_from_first (v :: a) a 0 1); auto.
    + intros p Hp. replace p with 0 by lia. exact Hnan.
    + intros p Hp. lia.
    + intros p Hp. replace p with 0 by lia. apply fltb_irrefl.
Qed.

Lemma np_argmin_axis1_nth (m : list (list F)) (labels : list nat) (i : nat) :
  np_argmin_axis1 m = Ok labels ->
  i < length m ->
  np_argmin (nth i m []) = Ok (nth i labels 0).
Proof.
  revert labels i. induction m as [|r m IH]; intros labels i; cbn.
  - intros _ Hi. lia.
  - destruct (np_argmin r) as [k|] eqn:Ek; [|discriminate]. cbn.
    destruct (np_argmin_axis1 m) as [rest|]; [|discriminate]. cbn.
    intros [= <-] Hi. destruct i as [|i]; [exact Ek|].
    cbn. apply IH; [reflexivity|lia].
Qed.

(** X7. For points and centroids of one dimension, the Assign phase
    gives every point the index of a nearest centroid (no centroid is
    strictly closer), and among equally near centroids the one of lowest
    index: every centroid of lower index is strictly farther. *)
Theorem assign_nearest_lowest_index (n_features : nat)
    (X centroids : list (list F)) (labels : list nat) (i : nat) :
  Forall (fun x => length x = n_features) X ->
  Forall (fun c => length c = n_features) centroids ->
  assign X centroids = Ok labels ->
  i < length X ->
  let label := nth i labels 0 in
  let d j := dist (nth i X []) (nth j centroids []) in
  label < length centroids
  /\ (forall j, j < length centroids -> fltb (d j) (d label) = false)
  /\ (isnan (d label) = false ->
      forall j, j < label -> fltb (d label) (d j) = true).
Proof.
  intros _ _ Ha Hi. cbv zeta.
  pose proof (assign_inv _ _ Ha) as [Hlen Hlt].
  assert (Hlab : nth i labels 0 < length centroids).
  { apply (proj1 (Forall_forall _ _) Hlt). apply nth_In. lia. }
  unfold assign in Ha.
  apply np_argmin_axis1_nth with (i := i) in Ha;
    [|unfold _distance_from_points; now rewrite length_map].
  assert (Hrow : nth i (_distance_from_points X centroids) []
                 = map (fun p => dist (nth i X []) p) centroids).
  { unfold _distance_from_points.
    rewrite nth_indep with (d' := map (fun p => dist [] p) centroids)
      by now rewrite length_map.
    apply (map_nth (fun x => map (fun p => dist x p) centroids)). }
  rewrite Hrow in Ha.
  assert (Hnth : forall j, j < length centroids ->
            nth j (map (fun p => dist (nth i X []) p) centroids) zero
            = dist (nth i X []) (nth j centroids [])).
  { intros j Hj.
    rewrite nth_indep with (d' := dist (nth i X []) [])
      by now rewrite length_map.
    apply (map_nth (fun p => dist (nth i X []) p)). }
  split; [exact Hlab|]. split.
  - intros j Hj. apply np_argmin_least in Ha. destruct Ha as [_ Ha].
    specialize (Ha j). rewrite length_map in Ha. specialize (Ha Hj).
    now rewrite !Hnth in Ha.
  - intros Hnum j Hj.
    pose proof (np_argmin_first _ Ha) as Hf.
    rewrite Hnth in Hf by exact Hlab. specialize (Hf Hnum j Hj).
    now rewrite Hnth in Hf by lia.
Qed.

End Assign.

(** ** The Update phase computes weighted means *)

Section UpdateMeans.

Context {F : Type} {AF : Arith F} {G : Type} {RS : RandomState F G}.

Variables (X : list (list F)) (weights : list F) (new_labels : list nat).

Lemma update_centroid_inv (nc nc' : list (list F)) (k : nat) (g g' : G) :
  update_centroid X weights new_labels nc k g = (Ok nc', g') ->
  k < length nc
  /\ exists row,
       nc' = set_nth nc k row
       /\ (empty_cluster new_labels k -> In row X)
       /\ (~ empty_cluster new_labels k ->
           g' = g
           /\ length new_labels = length X
           /\ length weights = length X
           /\ row = weighted_mean (length (hd [] X))
                      (members X new_labels k) (members weights new_labels k)).
Proof.
  unfold update_centroid, empty_cluster, members.
  destruct (existsb (fun b => b) (map (Nat.eqb k) new_labels)) eqn:E;
    intros H.
  - apply bind_inv in H. destruct H as (cp & g1 & Hcp & H).
    apply lift_inv in Hcp. destruct Hcp as [Hcp ->].
    apply bind_inv in H. destruct H as (cw & g2 & Hcw & H).
    apply lift_inv in Hcw. destruct Hcw as [Hcw ->].
    apply lift_inv in H. destruct H as [H ->].
    apply np_set_inv in H. destruct H as [Hk ->].
    unfold np_mask in Hcp, Hcw. rewrite length_map in Hcp, Hcw.
    destruct (length X =? length new_labels) eqn:EX; [|discriminate].
    destruct (length weights =? length new_labels) eqn:EW; [|discriminate].
    apply Nat.eqb_eq in EX, EW. injection Hcp as <-. injection Hcw as <-.
    split; [exact Hk|]. eexists. split; [reflexivity|].
    split; [discriminate|]. intros _.
    repeat split; try congruence.
    unfold weighted_mean. now rewrite map_map.
  - apply bind_inv in H. destruct H as (i & g1 & _ & H).
    apply bind_inv in H. destruct H as (x & g2 & Hx & H).
    apply lift_inv in Hx. destruct Hx as [Hx ->].
    apply lift_inv in H. destruct H as [H ->].
    apply np_set_inv in H. destruct H as [Hk ->].
    apply np_get_inv in Hx. destruct Hx as (_ & Hx & _).
    split; [exact Hk|]. exists x. split; [reflexivity|].
    split; [auto|]. intros Hne. now contradiction Hne.
Qed.

Lemma update_loop_inv (ks : list nat) (nc nc' : list (list F)) (g g' : G) :
  NoDup ks ->
  foldM (update_centroid X weights new_labels) ks nc g = (Ok nc', g') ->
  length nc' = length nc
  /\ (forall k, In k ks ->
        (empty_cluster new_labels k -> In (nth k nc' []) X)
        /\ (~ empty_cluster new_labels k ->
            length new_labels = length X
            /\ length weights = length X
            /\ nth k nc' []
               = weighted_mean (length (hd [] X))
                   (members X new_labels k) (members weights new_labels k)))
  /\ (forall k, ~ In k ks -> nth k nc' [] = nth k nc []).
Proof.
  intros Hnd. revert nc g.
  induction Hnd as [|k ks Hk Hnd IH]; intros nc g H; cbn [foldM] in H.
  - apply ret_inv in H. destruct H as [-> _].
    split; [reflexivity|]. split; [intros j []|reflexivity].
  - apply bind_inv in H. destruct H as (nc1 & g1 & Hu & H).
    apply update_centroid_inv in Hu.
    destruct Hu as (Hk_lt & row & -> & Hempty & Hmem).
    apply IH in H. destruct H as (Hl & Hin & Hout).
    rewrite set_nth_length in Hl. split; [exact Hl|]. split.
    + intros j [<-|Hj]; [|auto].
      rewrite (Hout k Hk), set_nth_same by exact Hk_lt.
      split; [exact Hempty|]. intros Hne.
      destruct (Hmem Hne) as (_ & Hll & Hwl & Hrow). auto.
    + intros j Hj. rewrite Hout by (intros Hj'; apply Hj; now right).
      apply set_nth_other. intros ->. apply Hj. now left.
Qed.

(** X8. A completed Update phase has put in row [k], for every cluster
    [k] that has a member, the weighted mean of the members of the cluster
    under their own weights: per coordinate, the sum of weight * coordinate
    over the members divided by the sum of their weights. *)
Theorem update_computes_weighted_means (n_clusters : Z)
    (centroids new_centroids : list (list F)) (g g' : G) (k : nat) :
  update X weights n_clusters centroids new_labels g
    = (Ok new_centroids, g') ->
  k < Z.to_nat n_clusters ->
  ~ empty_cluster new_labels k ->
  nth k new_centroids []
  = weighted_mean (length (hd [] X))
      (members X new_labels k) (members weights new_labels k).
Proof.
  intros H Hk Hne. unfold update in H.
  apply update_loop_inv in H; [|apply seq_NoDup].
  destruct H as (_ & Hin & _).
  destruct (Hin k) as [_ Hmem]; [apply in_seq; lia|].
  now destruct (Hmem Hne) as (_ & _ & Hrow).
Qed.

End UpdateMeans.

(** ** One cluster *)

Section SingleCluster.

Context {F : Type} {AF : Arith F} {G : Type} {RS : RandomState F G}.

Lemma np_argmin_singleton (v : F) : np_argmin [v] = Ok 0.
Proof. cbn. now destruct (isnan v). Qed.

Lemma assign_single (X : list (list F)) (c : list F) (labels : list nat) :
  assign X [c] = Ok labels -> labels = repeat 0 (length X).
Proof.
  unfold assign, _distance_from_points. revert labels.
  induction X as [|x X IH]; intros labels; cbn [map np_argmin_axis1].
  - now intros [= <-].
  - rewrite np_argmin_singleton. cbn [rbind].
    destruct (np_argmin_axis1 _) as [rest|e]; cbn; [|discriminate].
    intros [= <-]. cbn. f_equal. now apply IH.
Qed.

Lemma members_all {A} (a : list A) (n : nat) :
  length a = n -> members a (repeat 0 n) 0 = a.
Proof.
  unfold members. revert n.
  induction a as [|x a IH]; intros [|n] Hn; try discriminate; cbn;
    [reflexivity|].
  f_equal. apply IH. now injection Hn.
Qed.

Lemma update_single (X : list (list F)) (weights : list F) (c : list F)
    (nc : list (list F)) (g g' : G) :
  X <> [] ->
  update X weights 1 [c] (repeat 0 (length X)) g = (Ok nc, g') ->
  nc = [weighted_mean (length (hd [] X)) X weights].
Proof.
  intros HX H. unfold update in H.
  pose proof H as Hrows.
  apply update_loop_inv in Hrows; [|apply seq_NoDup].
  destruct Hrows as (Hlen & Hin & _).
  change (Z.to_nat 1) with 1 in Hin. cbn [map length] in Hlen.
  destruct (Hin 0 ltac:(now left)) as [_ Hmean].
  assert (Hne : ~ empty_cluster (repeat 0 (length X)) 0).
  { unfold empty_cluster. destruct X; [congruence|]. cbn. discriminate. }
  destruct (Hmean Hne) as (_ & Hw & Hrow).
  rewrite !members_all in Hrow by auto.
  destruct nc as [|r [|r' nc]]; try discriminate. cbn in Hrow. congruence.
Qed.

Lemma lloyd_single (X : list (list F)) (weights : list F) (iters : nat)
    (c0 : list F) (cs : list (list F)) (ls : list nat) (g g' : G) :
  X <> [] ->
  lloyd X weights 1 iters [c0] (repeat 0 (length X)) g = (Ok (cs, ls), g') ->
  let mean := weighted_mean (length (hd [] X)) X weights in
  ls = repeat 0 (length X)
  /\ (cs = [mean]
      \/ cs = [c0] /\ (iters = 0 \/ np_allclose [c0] [mean] = true)).
Proof.
  intros HX. cbv zeta. revert c0 g.
  induction iters as [|iters IH]; intros c0 g H; cbn [lloyd] in H.
  - apply ret_inv in H. destruct H as [[= <- <-] _]. auto.
  - apply bind_inv in H. destruct H as (nl & g1 & Ha & H).
    apply lift_inv in Ha. destruct Ha as [Ha ->].
    apply assign_single in Ha. subst nl.
    apply bind_inv in H. destruct H as (nc & g2 & Hu & H).
    apply update_single in Hu; [|exact HX]. subst nc.
    destruct (np_allclose _ _) eqn:Hclose.
    + apply ret_inv in H. destruct H as [[= <- <-] _]. auto.
    + apply IH in H. destruct H as [Hl [Hc|[Hc _]]]; auto.
Qed.

(** X9. With one cluster and at least one iteration, [kmeans] labels
    every point 0 and returns one centroid: the weighted mean of all the
    points under the weights the optimizer works with, or, when the loop
    stopped at its first test, the seed point, which that test found close
    to this mean. *)
Theorem kmeans_single_cluster (X : list (list F)) (weights : list F)
    (max_iter : Z) (alpha : expo) (random_state : option Z) (g g' : G)
    (centroids : list (list F)) (labels : list nat) :
  (0 < max_iter)%Z ->
  kmeans X weights 1 max_iter alpha random_state g
    = (Ok (centroids, labels), g') ->
  let mean :=
    weighted_mean (length (hd [] X)) X (effective_weights weights) in
  labels = repeat 0 (length X)
  /\ (centroids = [mean]
      \/ exists x, In x X /\ centroids = [x]
                   /\ np_allclose [x] [mean] = true).
Proof.
  intros Hiter H. cbv zeta. unfold kmeans in H.
  apply bind_inv in H. destruct H as (u & g0 & _ & H).
  apply bind_inv in H. destruct H as (c0 & g1 & Hpp & H).
  fold (effective_weights weights) in Hpp, H.
  pose proof (kmeans_plusplus_rows _ _ _ _ _ Hpp) as (HK & _ & HX).
  assert (Hrow : Forall (fun c => In c X) c0).
  { apply Forall_forall. intros c Hc.
    apply In_nth with (d := []) in Hc. destruct Hc as (j & Hj & <-).
    unfold _kmeans_plusplus in Hpp.
    apply bind_inv in Hpp. destruct Hpp as (log_k & g2 & _ & Hpp).
    apply bind_inv in Hpp. destruct Hpp as (z & g3 & _ & Hpp).
    apply bind_inv in Hpp. destruct Hpp as (first_idx & g4 & _ & Hpp).
    apply bind_inv in Hpp. destruct Hpp as (x0 & g5 & Hx & Hpp).
    apply lift_inv in Hx. destruct Hx as [Hx ->].
    apply bind_inv in Hpp. destruct Hpp as (c1 & g6 & Hs & Hpp).
    apply lift_inv in Hs. destruct Hs as [Hs ->].
    apply bind_inv in Hpp. destruct Hpp as (ck & g7 & _ & Hpp).
    apply bind_inv in Hpp. destruct Hpp as (da & g8 & _ & Hpp).
    apply bind_inv in Hpp. destruct Hpp as (st & g9 & Hf & Hpp).
    apply ret_inv in Hpp. destruct Hpp as [-> _].
    change (Z.to_nat 1 - 1) with 0 in Hf. cbn [seq foldM] in Hf.
    apply ret_inv in Hf. destruct Hf as [Hst _]. subst st.
    cbn [s_centroids] in *.
    apply np_get_inv in Hx. destruct Hx as (_ & Hx & _).
    apply np_set_inv in Hs. destruct Hs as [H0 ->].
    change (Z.to_nat 1) with 1 in HK. replace j with 0 by lia.
    now rewrite set_nth_same. }
  change (Z.to_nat 1) with 1 in HK.
  destruct c0 as [|x [|x' c0]]; try discriminate.
  apply lloyd_single in H; [|exact HX]. cbv zeta in H.
  destruct H as [Hl [Hc|[Hc [Hi|Hclose]]]].
  - auto.
  - lia.
  - split; [exact Hl|]. right. exists x. inversion Hrow; subst. auto.
Qed.

End SingleCluster.

(** ** The sampler inverts the cumulative distribution *)

Section Search.

Context {F : Type} {AF : Arith F}.

(** Where the entries below the key form a prefix of the array, the
    binary search returns the length of this prefix. *)
Lemma bisect_left_partition (a : list F) (v : F) (fuel lo hi : nat) :
  (forall i j, i <= j -> j < length a ->
     lt_nan (nth j a zero) v = true -> lt_nan (nth i a zero) v = true) ->
  hi - lo <= fuel -> lo <= hi -> hi <= length a ->
  (forall j, j < lo -> lt_nan (nth j a zero) v = true) ->
  (forall j, hi <= j -> j < length a -> lt_nan (nth j a zero) v = false) ->
  (forall j, j < bisect_left fuel a v lo hi ->
     lt_nan (nth j a zero) v = true)
  /\ (forall j, bisect_left fuel a v lo hi <= j -> j < length a ->
        lt_nan (nth j a zero) v = false).
Proof.
  intros Hpre. revert lo hi.
  induction fuel as [|fuel IH]; intros lo hi Hf Hle Hhi Hlo Hup;
    cbn [bisect_left].
  - split; [exact Hlo|]. intros j Hj. apply Hup. lia.
  - destruct (lo <? hi) eqn:E.
    + apply Nat.ltb_lt in E.
      assert (Hmid : lo <= lo + (hi - lo) / 2 < hi).
      { split; [lia|].
        assert ((hi - lo) / 2 < hi - lo) by (apply Nat.div_lt; lia). lia. }
      destruct (lt_nan (nth (lo + (hi - lo) / 2) a zero) v) eqn:Hprobe.
      * apply IH; try lia; [|exact Hup].
        intros j Hj. apply (Hpre j (lo + (hi - lo) / 2)); [lia|lia|exact Hprobe].
      * apply IH; try lia; [exact Hlo|].
        intros j Hj Hjl.
        destruct (lt_nan (nth j a zero) v) eqn:Ej; [|reflexivity].
        rewrite (Hpre (lo + (hi - lo) / 2) j) in Hprobe;
          [discriminate|lia|exact Hjl|exact Ej].
    + apply Nat.ltb_ge in E. split; [exact Hlo|].
      intros j Hj. apply Hup. lia.
Qed.

(** Entry [j] of the running sums is the sum of the first [j + 1]
    entries. *)
Lemma cumsum_from_nth (a : list F) (acc : F) (j : nat) :
  j < length a ->
  nth j (cumsum_from acc a) zero = fold_left fadd (firstn (S j) a) acc.
Proof.
  revert acc j. induction a as [|x a IH]; intros acc [|j] Hj;
    cbn [length] in Hj; try lia.
  - reflexivity.
  - cbn [cumsum_from nth]. rewrite IH by lia. reflexivity.
Qed.

End Search.

Module ExactSampler.

Import Exact ExactLaws ExactVocabulary ExactTotal.

Local Open Scope R_scope.

Lemma real_lt_nan (a b : R) : lt_nan a b = Rltb a b.
Proof.
  unfold lt_nan. rewrite (real_isnan b). cbn [fltb real_arith andb].
  apply Bool.orb_false_r.
Qed.

Lemma firstn_nonneg (p : list R) (n : nat) : nonneg p -> nonneg (firstn n p).
Proof.
  unfold nonneg. intros Hp. revert n.
  induction Hp as [|x p Hx _ IH]; intros [|n]; cbn [firstn];
    constructor; auto.
Qed.

Lemma prefix_sum_mono (p : list R) (i j : nat) :
  nonneg p -> (i <= j)%nat -> np_sum (firstn i p) <= np_sum (firstn j p).
Proof.
  intros Hp. revert i j. induction Hp as [|x p Hx Hp IH]; intros i j Hij.
  - rewrite !firstn_nil. lra.
  - destruct i as [|i].
    + cbn [firstn]. rewrite np_sum_nil. apply np_sum_nonneg.
      apply firstn_nonneg. now constructor.
    + destruct j as [|j]; [lia|]. cbn [firstn]. rewrite !np_sum_cons.
      specialize (IH i j ltac:(lia)). lra.
Qed.

Lemma prefix_sum_step (p : list R) (n : nat) :
  (n < length p)%nat ->
  np_sum (firstn (S n) p) = np_sum (firstn n p) + nth n p 0.
Proof.
  revert n. induction p as [|x p IH]; intros n Hn; cbn [length] in Hn;
    [lia|].
  destruct n as [|n].
  - cbn [firstn nth]. rewrite np_sum_cons, !np_sum_nil. ring.
  - change (firstn (S (S n)) (x :: p)) with (x :: firstn (S n) p).
    change (firstn (S n) (x :: p)) with (x :: firstn n p).
    rewrite !np_sum_cons, IH by lia. cbn [nth]. ring.
Qed.

Lemma np_cumsum_nth (p : list R) (j : nat) :
  (j < length p)%nat -> nth j (np_cumsum p) 0 = np_sum (firstn (S j) p).
Proof.
  intros Hj. unfold np_cumsum, np_sum.
  exact (cumsum_from_nth p zero Hj).
Qed.

(** The index found for the draw [r] is the least [i] with
    [r <= p[0] + ... + p[i]]. *)
Lemma searchsorted1_inverse (p : list R) (r : R) :
  nonneg p ->
  let i := searchsorted1 (np_cumsum p) r in
  (i <= length p)%nat
  /\ (forall j, (j < i)%nat -> np_sum (firstn (S j) p) < r)
  /\ ((i < length p)%nat -> r <= np_sum (firstn (S i) p))
  /\ ((i < length p)%nat -> 0 < r -> 0 < nth i p 0).
Proof.
  intros Hp. cbv zeta.
  pose proof (searchsorted1_le (np_cumsum p) r) as Hle.
  assert (Hlen : length (np_cumsum p) = length p)
    by apply cumsum_from_length.
  rewrite Hlen in Hle.
  destruct (@bisect_left_partition R _ (np_cumsum p) r
              (length (np_cumsum p)) 0 (length (np_cumsum p)))
    as [Hbelow Habove]; try lia.
  { intros i j Hij Hj. rewrite Hlen in Hj. rewrite !real_lt_nan.
    cbn [zero real_arith]. rewrite !np_cumsum_nth by lia.
    intros H. apply Rltb_true in H. apply Rltb_true.
    pose proof (@prefix_sum_mono p (S i) (S j) Hp ltac:(lia)). lra. }
  fold (searchsorted1 (np_cumsum p) r) in Hbelow, Habove.
  set (i := searchsorted1 (np_cumsum p) r) in *.
  assert (Hlt : forall j, (j < i)%nat -> np_sum (firstn (S j) p) < r).
  { intros j Hj. specialize (Hbelow j Hj). rewrite real_lt_nan in Hbelow.
    cbn [zero real_arith] in Hbelow. rewrite np_cumsum_nth in Hbelow by lia.
    now apply Rltb_true. }
  assert (Hge : (i < length p)%nat -> r <= np_sum (firstn (S i) p)).
  { intros Hi. specialize (Habove i (Nat.le_refl i)).
    rewrite Hlen, real_lt_nan in Habove. specialize (Habove Hi).
    cbn [zero real_arith] in Habove. rewrite np_cumsum_nth in Habove by lia.
    now apply Rltb_false. }
  repeat split; auto.
  intros Hi Hr. specialize (Hge Hi). rewrite prefix_sum_step in Hge by lia.
  destruct i as [|i'].
  - cbn [firstn] in Hge. rewrite np_sum_nil in Hge. lra.
  - specialize (Hlt i' ltac:(lia)). lra.
Qed.

Section Draws.

Context {G : Type} {RS : RandomState R G}.

(** X10. In exact arithmetic, for non-negative probabilities, the sampler
    draws [size] uniform numbers and returns for each draw [r] the least
    index [i] whose cumulative probability [p[0] + ... + p[i]] reaches
    [r] (the length of [p] if none does); for a positive draw this is an
    index of positive probability. *)
Theorem rand_choice_inverts_cumulative (size : Z) (p : list R) (g : G) :
  (0 <= size)%Z ->
  nonneg p ->
  exists rands idxs g',
    np_random_rand size g = (Ok rands, g')
    /\ _numba_rand_choice size p g = (Ok idxs, g')
    /\ length rands = Z.to_nat size
    /\ length idxs = length rands
    /\ forall n, (n < length rands)%nat ->
         let r := nth n rands 0 in
         let i := nth n idxs 0%nat in
         (i <= length p)%nat
         /\ (forall j, (j < i)%nat -> np_sum (firstn (S j) p) < r)
         /\ ((i < length p)%nat -> r <= np_sum (firstn (S i) p))
         /\ ((i < length p)%nat -> 0 < r -> 0 < nth i p 0).
Proof.
  intros Hsize Hp.
  destruct (draw_doubles_ok (Z.to_nat size) g) as (rands & g' & Hr).
  assert (Hrand : np_random_rand size g = (Ok rands, g')).
  { unfold np_random_rand. destruct (size <? 0)%Z eqn:E; [lia|exact Hr]. }
  exists rands, (np_searchsorted (np_cumsum p) rands), g'.
  split; [exact Hrand|]. split.
  { unfold _numba_rand_choice, bind. rewrite Hrand. reflexivity. }
  split; [eapply draw_doubles_length; eauto|].
  unfold np_searchsorted. split; [apply length_map|].
  intros n Hn. cbv zeta.
  rewrite nth_indep with (d' := searchsorted1 (np_cumsum p) 0)
    by now rewrite length_map.
  rewrite (map_nth (searchsorted1 (np_cumsum p))).
  now apply searchsorted1_inverse.
Qed.

End Draws.

(** ** The selection distribution of the Seeder *)

Lemma clip_normalised (l : list R) :
  nonneg l -> np_sum l <> 0 ->
  map (fun d => np_clip (fdiv d (np_sum l)) zero one) l
  = map (fun d => d / np_sum l) l.
Proof.
  intros Hl Hs. cbn [fdiv zero one real_arith].
  pose proof (np_sum_nonneg Hl) as Hpos.
  apply map_ext_in. intros d Hd. apply np_clip_unit.
  pose proof (proj1 (Forall_forall _ _) Hl d Hd) as H0.
  pose proof (proj1 (Forall_forall _ _) (np_sum_bounds Hl) d Hd) as H1.
  split.
  - apply Rmult_le_pos; [exact H0|].
    apply Rlt_le, Rinv_0_lt_compat. lra.
  - apply Rmult_le_reg_r with (r := np_sum l); [lra|].
    unfold Rdiv. rewrite Rmult_assoc, Rinv_l by exact Hs. lra.
Qed.

Lemma normalise_twice (l : list R) :
  nonneg l -> np_sum l <> 0 ->
  let p := map (fun d => np_clip (fdiv d (np_sum l)) zero one) l in
  map (fun q => fdiv q (np_sum p)) p = map (fun d => d / np_sum l) l.
Proof.
  intros Hl Hs. cbv zeta. rewrite (clip_normalised Hl Hs).
  rewrite (np_sum_div l (np_sum l)), map_map. cbn [fdiv real_arith].
  apply map_ext. intros d. field. exact Hs.
Qed.


End ExactSampler.

(** ** The distance is a metric on points of equal dimension *)

Module ExactDistance.

Import Exact ExactLaws ExactVocabulary ExactTotal.

Local Open Scope R_scope.

Local Abbreviation squares x p :=
  (map (fun q : R * R => let d := fsub (fst q) (snd q) in fmul d d)
       (combine x p)).

Lemma squares_nonneg (x p : list R) : nonneg (squares x p).
Proof.
  unfold nonneg. rewrite Forall_map. apply Forall_forall.
  intros [a b] _. cbv zeta. cbn [fst snd fsub fmul real_arith].
  apply Rle_0_sqr.
Qed.

Lemma squares_zero (x p : list R) :
  length x = length p -> np_sum (squares x p) = 0 -> x = p.
Proof.
  revert p. induction x as [|a x IH]; intros [|b p] Hlen; try discriminate.
  - reflexivity.
  - cbn [combine map fst snd]. rewrite np_sum_cons.
    pose proof (np_sum_nonneg (squares_nonneg x p)) as Hrest.
    cbn [fsub fmul real_arith] in *. intros Hs.
    pose proof (Rle_0_sqr (a - b)) as Hsq. unfold Rsqr in Hsq.
    assert (Hab : (a - b) * (a - b) = 0) by lra.
    assert (Hr : np_sum (squares x p) = 0) by (cbn [fsub fmul real_arith]; lra).
    apply Rmult_integral in Hab.
    f_equal; [destruct Hab; lra|].
    apply IH; [now injection Hlen|exact Hr].
Qed.

Lemma squares_self (x : list R) : np_sum (squares x x) = 0.
Proof.
  induction x as [|a x IH]; [reflexivity|].
  change (np_sum (fmul (fsub a a) (fsub a a) :: squares x x) = 0).
  rewrite np_sum_cons, IH. cbn [fsub fmul real_arith]. ring.
Qed.


End ExactDistance.

(** ** Centroids stay in the bounding box of the points *)

Module ExactBox.

Import Exact ExactLaws ExactVocabulary ExactTotal.

Local Open Scope R_scope.

Lemma select_Forall {A} (P : A -> Prop) (a : list A) (mask : list bool) :
  Forall P a -> Forall P (select a mask).
Proof.
  intros Ha. revert mask.
  induction Ha as [|x a Hx _ IH]; intros [|[] mask]; cbn [select];
    try constructor; auto.
Qed.

Lemma select_length {A B} (a : list A) (b : list B) (mask : list bool) :
  length a = length b -> length (select a mask) = length (select b mask).
Proof.
  revert b mask. induction a as [|x a IH]; intros [|y b] [|[] mask] Hl;
    try discriminate; cbn [select length]; auto.
Qed.

Lemma select_nonempty {A} (a : list A) (mask : list bool) :
  length a = length mask -> existsb (fun b => b) mask = true ->
  select a mask <> [].
Proof.
  revert mask. induction a as [|x a IH]; intros mask Hl He.
  - destruct mask; [discriminate He|discriminate Hl].
  - destruct mask as [|[] mask]; [discriminate Hl| |]; cbn [select].
    + discriminate.
    + apply IH; [now injection Hl|exact He].
Qed.

Lemma positive_sum (ws : list R) :
  Forall (fun w => 0 < w) ws -> ws <> [] -> 0 < np_sum ws.
Proof.
  intros Hw Hne. destruct Hw as [|w ws Hw Hws]; [congruence|].
  rewrite np_sum_cons.
  assert (0 <= np_sum ws); [|lra].
  apply np_sum_nonneg. eapply Forall_impl; [|exact Hws].
  cbv beta. intros. lra.
Qed.

Lemma weighted_sum_bounds (lo hi : R) (cs ws : list R) :
  Forall (fun c => lo <= c <= hi) cs ->
  Forall (fun w => 0 < w) ws ->
  length cs = length ws ->
  lo * np_sum ws <= np_sum (zip_with fmul cs ws) <= hi * np_sum ws.
Proof.
  intros Hc. revert ws.
  induction Hc as [|c cs Hc _ IH]; intros [|w ws] Hw Hl; try discriminate.
  - unfold zip_with. cbn [combine map]. rewrite np_sum_nil. lra.
  - inversion Hw as [|? ? Hw0 Hws]; subst.
    change (zip_with fmul (c :: cs) (w :: ws))
      with (fmul c w :: zip_with fmul cs ws).
    rewrite !np_sum_cons, !Rmult_plus_distr_l.
    specialize (IH ws Hws ltac:(now injection Hl)).
    cbn [fmul real_arith] in *.
    assert (lo * w <= c * w <= hi * w).
    { split; apply Rmult_le_compat_r; lra. }
    lra.
Qed.

Lemma weighted_mean_within (lo hi : R) (d : nat) (pts : list (list R))
    (ws : list R) :
  Forall (fun x => length x = d) pts ->
  within lo hi pts ->
  Forall (fun w => 0 < w) ws ->
  length pts = length ws ->
  pts <> [] ->
  Forall (fun x => lo <= x <= hi) (weighted_mean d pts ws).
Proof.
  intros Hdim Hin Hw Hl Hne. unfold weighted_mean, transpose.
  rewrite !Forall_map. apply Forall_forall. intros j Hj.
  apply in_seq in Hj.
  assert (Hcol : Forall (fun c => lo <= c <= hi) (column j pts)).
  { unfold column. rewrite Forall_map. apply Forall_forall. intros r Hr.
    pose proof (proj1 (Forall_forall _ _) Hdim r Hr) as Hrd.
    pose proof (proj1 (Forall_forall _ _) Hin r Hr) as Hrb.
    cbv beta in Hrd, Hrb.
    apply (proj1 (Forall_forall _ _) Hrb). apply nth_In. lia. }
  assert (Hpos : 0 < np_sum ws).
  { apply positive_sum; [exact Hw|].
    intros ->. destruct pts; [congruence|discriminate]. }
  destruct (@weighted_sum_bounds lo hi (column j pts) ws Hcol Hw) as [H1 H2].
  { unfold column. now rewrite length_map. }
  cbn [fdiv real_arith]. split.
  - apply Rmult_le_reg_r with (r := np_sum ws); [exact Hpos|].
    unfold Rdiv. rewrite Rmult_assoc, Rinv_l by lra. lra.
  - apply Rmult_le_reg_r with (r := np_sum ws); [exact Hpos|].
    unfold Rdiv. rewrite Rmult_assoc, Rinv_l by lra. lra.
Qed.

Section Box.

Context {G : Type} {RS : RandomState R G}.

Variables (X : list (list R)) (lo hi : R) (d : nat).

Hypothesis X_rectangular : Forall (fun x => length x = d) X.
Hypothesis X_within : within lo hi X.

Lemma row_within (x : list R) : In x X -> Forall (fun c => lo <= c <= hi) x.
Proof. intros Hx. exact (proj1 (Forall_forall _ _) X_within x Hx). Qed.

Lemma update_within (weights : list R) (n_clusters : Z)
    (centroids nc : list (list R)) (labels : list nat) (g g' : G) :
  Forall (fun w => 0 < w) weights ->
  length centroids = Z.to_nat n_clusters ->
  update X weights n_clusters centroids labels g = (Ok nc, g') ->
  length nc = length centroids /\ within lo hi nc.
Proof.
  intros Hw HK H. unfold update in H.
  apply update_loop_inv in H; [|apply seq_NoDup].
  destruct H as (Hlen & Hin & _). rewrite length_map in Hlen.
  split; [exact Hlen|].
  unfold within. apply Forall_forall. intros row Hrow.
  apply In_nth with (d := []) in Hrow. destruct Hrow as (k & Hk & <-).
  destruct (Hin k) as [Hempty Hmem]; [apply in_seq; lia|].
  destruct (existsb (fun b => b) (map (Nat.eqb k) labels)) eqn:E.
  - destruct Hmem as (Hll & Hwl & ->).
    { unfold empty_cluster. rewrite E. discriminate. }
    assert (HX : X <> []).
    { intros ->. destruct labels; [discriminate|discriminate]. }
    assert (Hd : length (hd [] X) = d).
    { destruct X as [|x0 X']; [congruence|].
      now inversion X_rectangular. }
    rewrite Hd. unfold members. apply weighted_mean_within.
    + now apply select_Forall.
    + now apply select_Forall.
    + now apply select_Forall.
    + apply select_length. congruence.
    + apply select_nonempty; [now rewrite length_map|exact E].
  - apply row_within. apply Hempty. exact E.
Qed.

Lemma lloyd_within (weights : list R) (n_clusters : Z) (iters : nat)
    (c0 c : list (list R)) (l0 l : list nat) (g g' : G) :
  Forall (fun w => 0 < w) weights ->
  length c0 = Z.to_nat n_clusters ->
  within lo hi c0 ->
  lloyd X weights n_clusters iters c0 l0 g = (Ok (c, l), g') ->
  within lo hi c.
Proof.
  intros Hw. revert c0 l0 g.
  induction iters as [|iters IH]; intros c0 l0 g HK Hc0 H; cbn [lloyd] in H.
  - apply ret_inv in H. destruct H as [[= <- _] _]. exact Hc0.
  - apply bind_inv in H. destruct H as (nl & g1 & _ & H).
    apply bind_inv in H. destruct H as (nc & g2 & Hu & H).
    apply update_within in Hu; [|exact Hw|exact HK].
    destruct Hu as [Hlen Hnc].
    destruct (np_allclose c0 nc).
    + apply ret_inv in H. destruct H as [[= <- _] _]. exact Hc0.
    + apply IH in H; [exact H|congruence|exact Hnc].
Qed.

Lemma effective_weights_positive (weights : list R) :
  Forall (fun w => 0 < w) weights ->
  Forall (fun w => 0 < w) (effective_weights weights).
Proof.
  intros Hw. unfold effective_weights.
  destruct (np_all_zero weights); [|exact Hw].
  unfold np_ones_like. rewrite Forall_map. apply Forall_forall.
  intros w _. cbn. lra.
Qed.


End Box.

End ExactBox.

(** ** How many random numbers are drawn *)

Section Counting.

Context {F : Type} {AF : Arith F} {G : Type} (RS : RandomState F G).

Local Abbreviation CRS := (counted RS).

Lemma draw_doubles_count (n : nat) (g g' : G * nat) (rands : list F) :
  draw_doubles (RS := CRS) n g = (Ok rands, g') -> snd g' = snd g + n.
Proof.
  revert g g' rands. induction n as [|n IH]; intros g g' rands;
    cbn [draw_doubles].
  - intros H. apply ret_inv in H. destruct H as [_ ->]. lia.
  - cbn [next_double counted].
    destruct (next_double (fst g)) as [x g1].
    intros H. apply bind_inv in H. destruct H as (xs & g2 & Hd & H).
    apply ret_inv in H. destruct H as [_ ->].
    apply IH in Hd. cbn [snd] in Hd. lia.
Qed.

Lemma rand_choice_count (size : Z) (p : list F) (g g' : G * nat)
    (idxs : list nat) :
  _numba_rand_choice (RS := CRS) size p g = (Ok idxs, g') ->
  snd g' = snd g + Z.to_nat size.
Proof.
  unfold _numba_rand_choice. intros H.
  apply bind_inv in H. destruct H as (rands & g1 & Hr & H).
  apply ret_inv in H. destruct H as [_ ->].
  unfold np_random_rand in Hr.
  destruct (size <? 0)%Z; [discriminate|].
  now apply draw_doubles_count in Hr.
Qed.

Lemma randint_count (low high : nat) (g g' : G * nat) (i : nat) :
  np_random_randint (RS := CRS) low high g = (Ok i, g') ->
  snd g' = S (snd g).
Proof.
  unfold np_random_randint. destruct (high <=? low); [discriminate|].
  cbn [next_index counted].
  destruct (next_index (high - low) (fst g)) as [j g1].
  now intros [= _ <-].
Qed.

Lemma seeding_step_count (X : list (list F)) (weights : list F)
    (alpha : expo) (n_local_trials : Z) (st st' : seeding) (k : nat)
    (g g' : G * nat) :
  seeding_step (RS := CRS) X weights alpha n_local_trials st k g
    = (Ok st', g') ->
  snd g' = snd g + Z.to_nat n_local_trials.
Proof.
  intros H. unfold seeding_step in H.
  apply bind_inv in H. destruct H as (idxs & g1 & Hc & H).
  apply rand_choice_count in Hc.
  apply bind_inv in H. destruct H as (cands & g2 & H2 & H).
  apply lift_inv in H2. destruct H2 as [_ ->].
  apply bind_inv in H. destruct H as (best & g3 & H3 & H).
  apply lift_inv in H3. destruct H3 as [_ ->].
  apply bind_inv in H. destruct H as (bc & g4 & H4 & H).
  apply lift_inv in H4. destruct H4 as [_ ->].
  apply bind_inv in H. destruct H as (cs & g5 & H5 & H).
  apply lift_inv in H5. destruct H5 as [_ ->].
  apply bind_inv in H. destruct H as (ck & g6 & H6 & H).
  apply lift_inv in H6. destruct H6 as [_ ->].
  apply bind_inv in H. destruct H as (da & g7 & H7 & H).
  apply lift_inv in H7. destruct H7 as [_ ->].
  apply ret_inv in H. destruct H as [_ ->]. exact Hc.
Qed.

Lemma seeding_loop_count (X : list (list F)) (weights : list F)
    (alpha : expo) (n_local_trials : Z) (ks : list nat) (st st' : seeding)
    (g g' : G * nat) :
  foldM (seeding_step (RS := CRS) X weights alpha n_local_trials) ks st g
    = (Ok st', g') ->
  snd g' = snd g + length ks * Z.to_nat n_local_trials.
Proof.
  revert st g. induction ks as [|k ks IH]; intros st g H; cbn [foldM] in H.
  - apply ret_inv in H. destruct H as [_ ->]. cbn. lia.
  - apply bind_inv in H. destruct H as (st1 & g1 & Hs & H).
    apply seeding_step_count in Hs. apply IH in H. cbn [length]. lia.
Qed.

(** X16. Whatever the generator, the Seeder makes, when it returns, one
    draw of an index and then [2 + int(log(n_clusters))] uniform draws for
    each further centroid, and no other: the number of draws depends on
    [n_clusters] alone, not on the points, the weights or the values
    drawn. *)
Theorem kmeans_plusplus_draw_count (X : list (list F)) (weights : list F)
    (n_clusters : Z) (alpha : expo) (centroids : list (list F))
    (g g' : G * nat) :
  _kmeans_plusplus (RS := CRS) X weights n_clusters alpha g
    = (Ok centroids, g') ->
  snd g' = snd g + 1
           + (Z.to_nat n_clusters - 1) * Z.to_nat (2 + floor_ln n_clusters).
Proof.
  intros H. unfold _kmeans_plusplus in H.
  apply bind_inv in H. destruct H as (log_k & g1 & Hlog & H).
  apply lift_inv in Hlog. destruct Hlog as [Hlog ->].
  unfold int_log in Hlog.
  destruct (n_clusters =? 0)%Z; [discriminate|].
  destruct (n_clusters <? 0)%Z; [discriminate|]. injection Hlog as <-.
  apply bind_inv in H. destruct H as (c0 & g2 & Hz & H).
  apply lift_inv in Hz. destruct Hz as [_ ->].
  apply bind_inv in H. destruct H as (first_idx & g3 & Hr & H).
  apply randint_count in Hr.
  apply bind_inv in H. destruct H as (x0 & g4 & Hx & H).
  apply lift_inv in Hx. destruct Hx as [_ ->].
  apply bind_inv in H. destruct H as (c1 & g5 & Hs & H).
  apply lift_inv in Hs. destruct Hs as [_ ->].
  apply bind_inv in H. destruct H as (ck & g6 & Hk & H).
  apply lift_inv in Hk. destruct Hk as [_ ->].
  apply bind_inv in H. destruct H as (da & g7 & Hd & H).
  apply lift_inv in Hd. destruct Hd as [_ ->].
  apply bind_inv in H. destruct H as (st & g8 & Hf & H).
  apply ret_inv in H. destruct H as [_ ->].
  apply seeding_loop_count in Hf. rewrite length_seq in Hf. lia.
Qed.

Lemma update_centroid_count (X : list (list F)) (weights : list F)
    (new_labels : list nat) (nc nc' : list (list F)) (k : nat)
    (g g' : G * nat) :
  update_centroid (RS := CRS) X weights new_labels nc k g = (Ok nc', g') ->
  snd g' = snd g
           + (if existsb (fun b => b) (map (Nat.eqb k) new_labels)
              then 0 else 1).
Proof.
  unfold update_centroid.
  destruct (existsb (fun b => b) (map (Nat.eqb k) new_labels)); intros H.
  - apply bind_inv in H. destruct H as (cp & g1 & H1 & H).
    apply lift_inv in H1. destruct H1 as [_ ->].
    apply bind_inv in H. destruct H as (cw & g2 & H2 & H).
    apply lift_inv in H2. destruct H2 as [_ ->].
    apply lift_inv in H. destruct H as [_ ->]. lia.
  - apply bind_inv in H. destruct H as (i & g1 & Hr & H).
    apply randint_count in Hr.
    apply bind_inv in H. destruct H as (x & g2 & Hx & H).
    apply lift_inv in Hx. destruct Hx as [_ ->].
    apply lift_inv in H. destruct H as [_ ->]. lia.
Qed.

(** X17. Whatever the generator, an Update phase that completes makes
    exactly one draw (of an index) for each cluster that has no member. *)
Theorem update_draw_count (X : list (list F)) (weights : list F)
    (n_clusters : Z) (centroids new_centroids : list (list F))
    (new_labels : list nat) (g g' : G * nat) :
  update (RS := CRS) X weights n_clusters centroids new_labels g
    = (Ok new_centroids, g') ->
  snd g' = snd g + length (empty_clusters new_labels n_clusters).
Proof.
  unfold update, empty_clusters.
  generalize (map (map (fun _ : F => zero)) centroids) as nc.
  generalize (seq 0 (Z.to_nat n_clusters)) as ks.
  intros ks. revert g.
  induction ks as [|k ks IH]; intros g nc H; cbn [foldM filter] in *.
  - apply ret_inv in H. destruct H as [_ ->]. cbn. lia.
  - apply bind_inv in H. destruct H as (nc1 & g1 & Hu & H).
    apply update_centroid_count in Hu. apply IH in H.
    destruct (existsb (fun b => b) (map (Nat.eqb k) new_labels));
      cbn [negb length]; lia.
Qed.

End Counting.

(** ** An iteration does not raise the objective *)

Module ExactObjective.

Import Exact ExactLaws ExactVocabulary ExactTotal.

Local Open Scope R_scope.

Local Abbreviation sqd x c := (dist x c * dist x c).

Lemma np_sum_map_plus {A} (f g : A -> R) (l : list A) :
  np_sum (map (fun a => f a + g a) l) = np_sum (map f l) + np_sum (map g l).
Proof.
  induction l as [|a l IH]; cbn [map].
  - rewrite !np_sum_nil. ring.
  - rewrite !np_sum_cons, IH. ring.
Qed.

Lemma np_sum_map_le {A} (f g : A -> R) (l : list A) :
  (forall a, In a l -> f a <= g a) ->
  np_sum (map f l) <= np_sum (map g l).
Proof.
  induction l as [|a l IH]; intros H; cbn [map].
  - rewrite !np_sum_nil. lra.
  - rewrite !np_sum_cons.
    pose proof (H a (or_introl eq_refl)).
    assert (np_sum (map f l) <= np_sum (map g l)); [|lra].
    apply IH. intros b Hb. apply H. now right.
Qed.

Lemma np_sum_map_zero {A} (l : list A) : np_sum (map (fun _ => 0) l) = 0.
Proof.
  induction l as [|a l IH]; cbn [map]; [apply np_sum_nil|].
  rewrite np_sum_cons, IH. ring.
Qed.

(** Summing over all clusters a term that is present for cluster [l]
    only leaves this term. *)
Lemma np_sum_indicator (f : nat -> R) (l a n : nat) :
  (a <= l < a + n)%nat ->
  np_sum (map (fun k => if (k =? l)%nat then f k else 0) (seq a n)) = f l.
Proof.
  revert a. induction n as [|n IH]; intros a Hl; [lia|].
  cbn [seq map]. rewrite np_sum_cons.
  destruct (a =? l)%nat eqn:E.
  - apply Nat.eqb_eq in E. subst a.
    rewrite (map_ext_in _ (fun _ => 0)), np_sum_map_zero; [ring|].
    intros k Hk. apply in_seq in Hk.
    destruct (k =? l)%nat eqn:Ek; [apply Nat.eqb_eq in Ek; lia|reflexivity].
  - apply Nat.eqb_neq in E. rewrite IH by lia. ring.
Qed.

(** *** Weighted totals *)

Lemma weighted_total_zero (pts : list (list R)) (ws : list R) :
  weighted_total (fun _ => 0) pts ws = 0.
Proof.
  revert ws. induction pts as [|x pts IH]; intros [|w ws];
    cbn [weighted_total]; try reflexivity.
  rewrite IH. ring.
Qed.

Lemma weighted_total_plus (f g : list R -> R) (pts : list (list R))
    (ws : list R) :
  weighted_total (fun x => f x + g x) pts ws
  = weighted_total f pts ws + weighted_total g pts ws.
Proof.
  revert ws. induction pts as [|x pts IH]; intros [|w ws];
    cbn [weighted_total]; try ring.
  rewrite IH. ring.
Qed.

Lemma weighted_total_ext (f g : list R -> R) (pts : list (list R))
    (ws : list R) :
  (forall x, In x pts -> f x = g x) ->
  weighted_total f pts ws = weighted_total g pts ws.
Proof.
  revert ws. induction pts as [|x pts IH]; intros [|w ws] H;
    cbn [weighted_total]; try reflexivity.
  rewrite (H x (or_introl eq_refl)), IH; [reflexivity|].
  intros y Hy. apply H. now right.
Qed.

Lemma weighted_total_swap (h : nat -> list R -> R) (js : list nat)
    (pts : list (list R)) (ws : list R) :
  weighted_total (fun x => np_sum (map (fun j => h j x) js)) pts ws
  = np_sum (map (fun j => weighted_total (h j) pts ws) js).
Proof.
  induction js as [|j js IH]; cbn [map].
  - rewrite np_sum_nil. apply weighted_total_zero.
  - rewrite np_sum_cons, <- IH, <- weighted_total_plus.
    apply weighted_total_ext. intros x _. apply np_sum_cons.
Qed.

Lemma weighted_total_quadratic (a : list R -> R) (c : R)
    (pts : list (list R)) (ws : list R) :
  weighted_total (fun x => (a x - c) * (a x - c)) pts ws
  = weighted_total (fun x => a x * a x) pts ws
    - 2 * c * weighted_total a pts ws
    + c * c * weighted_total (fun _ => 1) pts ws.
Proof.
  revert ws. induction pts as [|x pts IH]; intros [|w ws];
    cbn [weighted_total]; try ring.
  rewrite IH. ring.
Qed.

Lemma weighted_total_one (pts : list (list R)) (ws : list R) :
  length pts = length ws ->
  weighted_total (fun _ => 1) pts ws = np_sum ws.
Proof.
  revert ws. induction pts as [|x pts IH]; intros [|w ws] Hl;
    try discriminate; cbn [weighted_total].
  - now rewrite np_sum_nil.
  - rewrite np_sum_cons, IH by now injection Hl. ring.
Qed.

Lemma weighted_total_column (j : nat) (pts : list (list R)) (ws : list R) :
  weighted_total (fun x => nth j x 0) pts ws
  = np_sum (zip_with fmul (column j pts) ws).
Proof.
  revert ws. induction pts as [|x pts IH]; intros [|w ws];
    cbn [weighted_total]; try reflexivity.
  change (zip_with fmul (column j (x :: pts)) (w :: ws))
    with (fmul (nth j x zero) w :: zip_with fmul (column j pts) ws).
  rewrite np_sum_cons, IH. cbn [fmul zero real_arith]. ring.
Qed.

(** Among all values [c], the weighted mean of the values [a x] makes the
    weighted sum of the squares [(a x - c)^2] least. *)
Lemma mean_is_least (a : list R -> R) (c : R) (pts : list (list R))
    (ws : list R) :
  0 < weighted_total (fun _ => 1) pts ws ->
  let m := weighted_total a pts ws / weighted_total (fun _ => 1) pts ws in
  weighted_total (fun x => (a x - m) * (a x - m)) pts ws
  <= weighted_total (fun x => (a x - c) * (a x - c)) pts ws.
Proof.
  intros HW. cbv zeta. rewrite !weighted_total_quadratic.
  set (W := weighted_total (fun _ => 1) pts ws) in *.
  set (S1 := weighted_total a pts ws).
  set (S2 := weighted_total (fun x => a x * a x) pts ws).
  assert (E : S1 = S1 / W * W) by (field; lra).
  set (m := S1 / W) in *.
  pose proof (Rle_0_sqr (m - c)) as Hsq. unfold Rsqr in Hsq.
  assert (Hp : 0 <= W * ((m - c) * (m - c)))
    by (apply Rmult_le_pos; lra).
  rewrite E.
  replace (S2 - 2 * c * (m * W) + c * c * W)
    with (S2 - 2 * m * (m * W) + m * m * W + W * ((m - c) * (m - c)))
    by ring.
  lra.
Qed.

(** *** Squared distances, coordinate by coordinate *)

Lemma sq_dist (x c : list R) :
  sqd x c
  = np_sum (map (fun q => (fst q - snd q) * (fst q - snd q)) (combine x c)).
Proof.
  unfold dist. cbn [fsqrt real_arith]. apply sqrt_sqrt.
  apply np_sum_nonneg. apply Forall_forall. intros y Hy.
  apply in_map_iff in Hy. destruct Hy as ([a b] & <- & _).
  cbv zeta. cbn [fst snd fsub fmul real_arith]. apply Rle_0_sqr.
Qed.

Lemma squares_coordinates (d : nat) (x c : list R) :
  length x = d -> length c = d ->
  np_sum (map (fun q => (fst q - snd q) * (fst q - snd q)) (combine x c))
  = np_sum (map (fun j => (nth j x 0 - nth j c 0) * (nth j x 0 - nth j c 0))
                (seq 0 d)).
Proof.
  revert d c.
  induction x as [|a x IH]; intros d [|b c] Hx Hc; subst d;
    try discriminate; [reflexivity|].
  cbn [length seq combine map fst snd nth]. rewrite !np_sum_cons.
  rewrite (IH (length x) c eq_refl) by now injection Hc.
  rewrite <- seq_shift, map_map. reflexivity.
Qed.

Lemma sq_dist_coordinates (d : nat) (x c : list R) :
  length x = d -> length c = d ->
  sqd x c
  = np_sum (map (fun j => (nth j x 0 - nth j c 0) * (nth j x 0 - nth j c 0))
                (seq 0 d)).
Proof. rewrite sq_dist. apply squares_coordinates. Qed.

Lemma weighted_mean_length (d : nat) (pts : list (list R)) (ws : list R) :
  length (weighted_mean d pts ws) = d.
Proof. unfold weighted_mean, transpose. now rewrite !length_map, length_seq. Qed.

Lemma weighted_mean_nth (d j : nat) (pts : list (list R)) (ws : list R) :
  (j < d)%nat ->
  nth j (weighted_mean d pts ws) 0
  = np_sum (zip_with fmul (column j pts) ws) / np_sum ws.
Proof.
  intros Hj. unfold weighted_mean, transpose. rewrite map_map.
  rewrite nth_indep with (d' := (fun k => fdiv (np_sum (zip_with fmul
                                   (column k pts) ws)) (np_sum ws)) 0%nat)
    by now rewrite length_map, length_seq.
  rewrite (map_nth (fun k => fdiv (np_sum (zip_with fmul (column k pts) ws))
                                  (np_sum ws))).
  now rewrite seq_nth.
Qed.

(** The weighted mean of the members of a cluster is a centroid of least
    objective for them. *)
Lemma weighted_mean_is_least (d : nat) (c : list R) (pts : list (list R))
    (ws : list R) :
  Forall (fun x => length x = d) pts ->
  length c = d ->
  Forall (fun w => 0 < w) ws ->
  length pts = length ws ->
  pts <> [] ->
  weighted_total (fun x => sqd x (weighted_mean d pts ws)) pts ws
  <= weighted_total (fun x => sqd x c) pts ws.
Proof.
  intros Hdim Hc Hw Hl Hne.
  assert (Hcoord : forall c', length c' = d ->
    weighted_total (fun x => sqd x c') pts ws
    = np_sum (map (fun j => weighted_total
                     (fun x => (nth j x 0 - nth j c' 0)
                               * (nth j x 0 - nth j c' 0)) pts ws)
                  (seq 0 d))).
  { intros c' Hc'. rewrite <- weighted_total_swap.
    apply weighted_total_ext. intros x Hx.
    apply sq_dist_coordinates; [|exact Hc'].
    exact (proj1 (Forall_forall _ _) Hdim x Hx). }
  rewrite (Hcoord c Hc), (Hcoord _ (weighted_mean_length d pts ws)).
  apply np_sum_map_le. intros j Hj. apply in_seq in Hj.
  assert (HW : 0 < weighted_total (fun _ => 1) pts ws).
  { rewrite weighted_total_one by exact Hl.
    apply ExactBox.positive_sum; [exact Hw|].
    intros ->. destruct pts; [congruence|discriminate]. }
  pose proof (@mean_is_least (fun x => nth j x 0) (nth j c 0) pts ws HW)
    as Hleast.
  cbv zeta in Hleast.
  rewrite weighted_total_column, weighted_total_one in Hleast by exact Hl.
  rewrite weighted_mean_nth by lia. exact Hleast.
Qed.

(** *** The objective, cluster by cluster *)

Lemma members_cons {A} (x : A) (a : list A) (l : nat) (labels : list nat)
    (k : nat) :
  members (x :: a) (l :: labels) k
  = if (k =? l)%nat then x :: members a labels k else members a labels k.
Proof. unfold members. cbn [map select]. reflexivity. Qed.

Lemma cost_by_cluster (K : nat) (C X : list (list R)) (ws : list R)
    (labels : list nat) :
  length ws = length X ->
  length labels = length X ->
  Forall (fun l => (l < K)%nat) labels ->
  cost C X ws labels
  = np_sum (map (fun k => weighted_total (fun x => sqd x (nth k C []))
                            (members X labels k) (members ws labels k))
                (seq 0 K)).
Proof.
  revert ws labels.
  induction X as [|x X IH]; intros [|w ws] [|l labels] Hw Hl Hlt;
    try discriminate.
  - cbn [cost]. unfold members. cbn [map select weighted_total].
    now rewrite np_sum_map_zero.
  - cbn [cost]. inversion Hlt as [|? ? Hl0 Hlt']; subst.
    rewrite (IH ws labels) by (auto; now injection Hw || now injection Hl).
    rewrite <- (@np_sum_indicator
                  (fun k => w * sqd x (nth k C [])) l 0 K) by lia.
    rewrite <- np_sum_map_plus. f_equal. apply map_ext. intros k.
    rewrite !members_cons.
    destruct (k =? l)%nat; cbn [weighted_total]; ring.
Qed.

(** The labels of the Assign phase are a labelling of least objective
    for the centroids they were computed from. *)
Lemma assign_cost_least (centroids X : list (list R)) (weights : list R)
    (new_labels labels : list nat) :
  Forall (fun w => 0 < w) weights ->
  assign X centroids = Ok new_labels ->
  length labels = length X ->
  Forall (fun l => (l < length centroids)%nat) labels ->
  cost centroids X weights new_labels <= cost centroids X weights labels.
Proof.
  intros Hw Ha. pose proof (assign_inv _ _ Ha) as [Hll _].
  revert weights new_labels labels Hw Ha Hll.
  induction X as [|x X' IH];
    intros [|w ws] [|l' ls'] [|l ls] Hw Ha Hll Hlen Hvalid;
    try discriminate; cbn [cost]; try lra.
  unfold assign, _distance_from_points in Ha.
  cbn [map np_argmin_axis1] in Ha.
  destruct (np_argmin (map (fun p => dist x p) centroids)) as [i|] eqn:Ei;
    [|discriminate].
  cbn [rbind] in Ha.
  destruct (np_argmin_axis1 _) as [rest|] eqn:Er; [|discriminate].
  cbn [rbind] in Ha.
  assert (Hi : i = l' /\ rest = ls') by (split; congruence).
  destruct Hi as [-> ->]. clear Ha.
  inversion Hw as [|? ? Hw0 Hws]; subst.
  inversion Hvalid as [|? ? Hl0 Hvalid']; subst.
  assert (Hrest : cost centroids X' ws ls' <= cost centroids X' ws ls).
  { apply IH; auto; try (now injection Hll); try (now injection Hlen). }
  apply (np_argmin_least (OL := real_order_laws)) in Ei.
  destruct Ei as [Hi Hleast]. rewrite length_map in Hi, Hleast.
  specialize (Hleast l Hl0).
  assert (Hnth : forall j, (j < length centroids)%nat ->
            nth j (map (fun p => dist x p) centroids) zero
            = dist x (nth j centroids [])).
  { intros j Hj.
    rewrite nth_indep with (d' := dist x []) by now rewrite length_map.
    apply (map_nth (fun p => dist x p)). }
  rewrite !Hnth in Hleast by assumption.
  cbn [fltb real_arith] in Hleast. apply Rltb_false in Hleast.
  assert (H0 : 0 <= dist x (nth l' centroids [])).
  { unfold dist. cbn [fsqrt real_arith]. apply sqrt_pos. }
  assert (Hsq : sqd x (nth l' centroids []) <= sqd x (nth l centroids [])).
  { apply Rmult_le_compat; lra. }
  assert (w * sqd x (nth l' centroids []) <= w * sqd x (nth l centroids []))
    by (apply Rmult_le_compat_l; lra).
  lra.
Qed.

Lemma members_none {A} (a : list A) (labels : list nat) (k : nat) :
  existsb (fun b => b) (map (Nat.eqb k) labels) = false ->
  members a labels k = [].
Proof.
  unfold members. revert labels.
  induction a as [|x a IH]; intros [|l ls] E; try reflexivity.
  cbn [map existsb] in E. apply Bool.orb_false_iff in E.
  destruct E as [E1 E2]. cbn [map select]. rewrite E1. now apply IH.
Qed.

Section Iteration.

Context {G : Type} {RS : RandomState R G}.

Variables (d : nat) (X : list (list R)) (weights : list R) (n_clusters : Z).

Hypothesis X_rectangular : Forall (fun x => length x = d) X.
Hypothesis weights_length : length weights = length X.
Hypothesis weights_positive : Forall (fun w => 0 < w) weights.

Lemma first_row_dimension : X <> [] -> length (hd [] X) = d.
Proof.
  destruct X as [|x0 X']; [congruence|]. intros _.
  now inversion X_rectangular.
Qed.

(** The centroids of the Update phase are centroids of least objective
    for the labels they were computed from. *)
Lemma update_cost_least (centroids new_centroids : list (list R))
    (new_labels : list nat) (g g' : G) :
  Forall (fun c => length c = d) centroids ->
  length centroids = Z.to_nat n_clusters ->
  length new_labels = length X ->
  Forall (fun l => (l < length centroids)%nat) new_labels ->
  update X weights n_clusters centroids new_labels g
    = (Ok new_centroids, g') ->
  cost new_centroids X weights new_labels
  <= cost centroids X weights new_labels.
Proof.
  intros HC HK Hll Hlt Hu.
  rewrite (@cost_by_cluster (length centroids) new_centroids),
          (@cost_by_cluster (length centroids) centroids); auto.
  apply np_sum_map_le. intros k Hk. apply in_seq in Hk.
  unfold update in Hu. apply update_loop_inv in Hu; [|apply seq_NoDup].
  destruct Hu as (_ & Hin & _).
  destruct (Hin k) as [_ Hmem]; [apply in_seq; lia|].
  destruct (existsb (fun b => b) (map (Nat.eqb k) new_labels)) eqn:E.
  - destruct Hmem as (_ & _ & ->).
    { unfold empty_cluster. rewrite E. discriminate. }
    assert (HXne : X <> []).
    { intros HX. rewrite HX in Hll. destruct new_labels; discriminate. }
    rewrite (first_row_dimension HXne). unfold members.
    apply weighted_mean_is_least.
    + now apply ExactBox.select_Forall.
    + apply (proj1 (Forall_forall _ _) HC). apply nth_In. lia.
    + now apply ExactBox.select_Forall.
    + apply ExactBox.select_length. congruence.
    + apply ExactBox.select_nonempty; [now rewrite length_map|exact E].
  - rewrite (members_none X _ _ E). cbn [weighted_total]. lra.
Qed.

Lemma update_dimension (centroids new_centroids : list (list R))
    (new_labels : list nat) (g g' : G) :
  length centroids = Z.to_nat n_clusters ->
  update X weights n_clusters centroids new_labels g
    = (Ok new_centroids, g') ->
  length new_centroids = length centroids
  /\ Forall (fun c => length c = d) new_centroids.
Proof.
  intros HK Hu. unfold update in Hu.
  apply update_loop_inv in Hu; [|apply seq_NoDup].
  destruct Hu as (Hlen & Hin & _). rewrite length_map in Hlen.
  split; [exact Hlen|].
  apply Forall_forall. intros row Hrow.
  apply In_nth with (d := []) in Hrow. destruct Hrow as (k & Hk & <-).
  destruct (Hin k) as [Hempty Hmem]; [apply in_seq; lia|].
  destruct (existsb (fun b => b) (map (Nat.eqb k) new_labels)) eqn:E.
  - destruct Hmem as (Hll & _ & ->).
    { unfold empty_cluster. rewrite E. discriminate. }
    rewrite weighted_mean_length. apply first_row_dimension.
    intros HX. rewrite HX in Hll. destruct new_labels; discriminate.
  - apply (proj1 (Forall_forall _ _) X_rectangular). now apply Hempty.
Qed.


(** Along the loop the objective only goes down. *)
Lemma lloyd_descent (iters : nat) (c c' : list (list R)) (l l' : list nat)
    (g g' : G) :
  Forall (fun r => length r = d) c ->
  length c = Z.to_nat n_clusters ->
  lloyd X weights n_clusters iters c l g = (Ok (c', l'), g') ->
  (c' = c /\ l' = l)
  \/ forall labels,
       length labels = length X ->
       Forall (fun i => (i < length c)%nat) labels ->
       cost c' X weights l' <= cost c X weights labels.
Proof.
  revert c l g. induction iters as [|iters IH]; intros c l g HC HK H;
    cbn [lloyd] in H.
  - apply ret_inv in H. destruct H as [[= <- <-] _]. now left.
  - apply bind_inv in H. destruct H as (nl & g1 & Ha & H).
    apply lift_inv in Ha. destruct Ha as [Ha ->].
    apply bind_inv in H. destruct H as (nc & g2 & Hu & H).
    destruct (np_allclose c nc).
    + apply ret_inv in H. destruct H as [[= <- <-] _]. now left.
    + pose proof (assign_inv _ _ Ha) as [Hll Hlt].
      pose proof Hu as Hshape.
      apply update_dimension in Hshape; [|exact HK].
      destruct Hshape as [Hlen Hdim].
      assert (Hstep : forall labels,
                length labels = length X ->
                Forall (fun i => (i < length c)%nat) labels ->
                cost nc X weights nl <= cost c X weights labels).
      { intros labels Hl Hv.
        apply Rle_trans with (cost c X weights nl).
        - eapply update_cost_least; eauto.
        - now apply assign_cost_least. }
      right. apply IH in H; [|exact Hdim|congruence].
      destruct H as [[-> ->]|H]; [exact Hstep|].
      intros labels Hl Hv.
      apply Rle_trans with (cost nc X weights nl); [|now apply Hstep].
      apply H; [exact Hll|]. now rewrite Hlen.
Qed.

Lemma positive_weights_kept : effective_weights weights = weights.
Proof.
  unfold effective_weights.
  destruct weights_positive as [|w ws Hw _]; [reflexivity|].
  cbn [np_all_zero forallb feqb zero real_arith].
  assert (E : Reqb w 0 = false) by (apply Reqb_false; lra).
  now rewrite E.
Qed.


End Iteration.

End ExactObjective.

(** ** The distances are those of a metric *)

Module ExactMetric.

Import Exact ExactLaws ExactVocabulary ExactTotal ExactObjective.

Local Open Scope R_scope.

Section Sums.

Variables (f g : nat -> R) (js : list nat).

Local Abbreviation A := (np_sum (map (fun j => f j * f j) js)).
Local Abbreviation B := (np_sum (map (fun j => g j * g j) js)).
Local Abbreviation C := (np_sum (map (fun j => f j * g j) js)).

Lemma sum_of_squares_nonneg (h : nat -> R) :
  0 <= np_sum (map (fun j => h j * h j) js).
Proof.
  apply np_sum_nonneg. rewrite Forall_map. apply Forall_forall.
  intros j _. apply Rle_0_sqr.
Qed.

Lemma quadratic_expansion (t : R) :
  np_sum (map (fun j => (f j * t + g j) * (f j * t + g j)) js)
  = A * t * t + 2 * C * t + B.
Proof.
  induction js as [|j l IH]; cbn [map].
  - rewrite !np_sum_nil. ring.
  - rewrite !np_sum_cons, IH. ring.
Qed.

Lemma cauchy_schwarz : C * C <= A * B.
Proof.
  assert (Hq : forall t, 0 <= A * t * t + 2 * C * t + B).
  { intros t. rewrite <- quadratic_expansion.
    apply (sum_of_squares_nonneg (fun j => f j * t + g j)). }
  pose proof (sum_of_squares_nonneg f) as HA.
  destruct (Req_dec A 0) as [HA0|HA0].
  - destruct (Req_dec C 0) as [HC0|HC0].
    + rewrite HC0, HA0. lra.
    + exfalso. specialize (Hq (- (B + 1) / (2 * C))).
      rewrite HA0 in Hq.
      replace (0 * (- (B + 1) / (2 * C)) * (- (B + 1) / (2 * C))
               + 2 * C * (- (B + 1) / (2 * C)) + B)
        with (-1) in Hq by (field; exact HC0).
      lra.
  - assert (HApos : 0 < A) by lra.
    specialize (Hq (- C / A)).
    replace (A * (- C / A) * (- C / A) + 2 * C * (- C / A) + B)
      with (B - C * C / A) in Hq by (field; exact HA0).
    assert (HCA : C * C / A <= B) by lra.
    apply Rmult_le_compat_l with (r := A) in HCA; [|lra].
    replace (A * (C * C / A)) with (C * C) in HCA by (field; exact HA0).
    exact HCA.
Qed.

Lemma minkowski :
  sqrt (np_sum (map (fun j => (f j + g j) * (f j + g j)) js))
  <= sqrt A + sqrt B.
Proof.
  pose proof (sum_of_squares_nonneg f) as HA.
  pose proof (sum_of_squares_nonneg g) as HB.
  pose proof (sqrt_pos A) as Hu. pose proof (sqrt_pos B) as Hv.
  pose proof (sqrt_sqrt A HA) as Hu2. pose proof (sqrt_sqrt B HB) as Hv2.
  pose proof cauchy_schwarz as HCS.
  assert (Hsum : np_sum (map (fun j => (f j + g j) * (f j + g j)) js)
                 = A + 2 * C + B).
  { rewrite (map_ext _ (fun j => (f j * 1 + g j) * (f j * 1 + g j)))
      by (intros j; ring).
    rewrite quadratic_expansion. ring. }
  assert (HC : C <= sqrt A * sqrt B).
  { destruct (Rle_lt_dec C (sqrt A * sqrt B)) as [H|H]; [exact H|].
    exfalso.
    assert (Hpos : 0 <= sqrt A * sqrt B) by (apply Rmult_le_pos; lra).
    assert (Hlt : (sqrt A * sqrt B) * (sqrt A * sqrt B) < C * C)
      by (apply Rmult_le_0_lt_compat; lra).
    replace ((sqrt A * sqrt B) * (sqrt A * sqrt B))
      with ((sqrt A * sqrt A) * (sqrt B * sqrt B)) in Hlt by ring.
    rewrite Hu2, Hv2 in Hlt. lra. }
  rewrite Hsum.
  rewrite <- (sqrt_square (sqrt A + sqrt B)) by lra.
  apply sqrt_le_1_alt.
  replace ((sqrt A + sqrt B) * (sqrt A + sqrt B))
    with (sqrt A * sqrt A + 2 * (sqrt A * sqrt B) + sqrt B * sqrt B) by ring.
  rewrite Hu2, Hv2. lra.
Qed.

End Sums.

Lemma dist_coordinates (d : nat) (x c : list R) :
  length x = d -> length c = d ->
  dist x c
  = sqrt (np_sum (map (fun j => (nth j x 0 - nth j c 0)
                                * (nth j x 0 - nth j c 0)) (seq 0 d))).
Proof.
  intros Hx Hc. rewrite <- (@squares_coordinates d x c Hx Hc). reflexivity.
Qed.

Lemma dist_symmetric (d : nat) (x y : list R) :
  length x = d -> length y = d -> dist x y = dist y x.
Proof.
  intros Hx Hy.
  rewrite (@dist_coordinates d x y Hx Hy), (@dist_coordinates d y x Hy Hx).
  f_equal. f_equal. apply map_ext. intros j. ring.
Qed.

Lemma dist_triangle (d : nat) (x y z : list R) :
  length x = d -> length y = d -> length z = d ->
  dist x z <= dist x y + dist y z.
Proof.
  intros Hx Hy Hz.
  rewrite (@dist_coordinates d x z Hx Hz), (@dist_coordinates d x y Hx Hy),
          (@dist_coordinates d y z Hy Hz).
  rewrite (map_ext
             (fun j => (nth j x 0 - nth j z 0) * (nth j x 0 - nth j z 0))
             (fun j => ((nth j x 0 - nth j y 0) + (nth j y 0 - nth j z 0))
                       * ((nth j x 0 - nth j y 0) + (nth j y 0 - nth j z 0))))
    by (intros j; ring).
  apply (minkowski (fun j => nth j x 0 - nth j y 0)
                   (fun j => nth j y 0 - nth j z 0)).
Qed.


End ExactMetric.

(** * Instances of the further properties *)

Module Float64Instances.

Import PrimFloat Float64 Float64Samples.

Local Open Scope float_scope.

Local Abbreviation tape64 := (tape float).

Lemma kmeans_plusplus_returns_points_witness :
  length [[0]; [10]] = Z.to_nat 2
  /\ Forall (fun c => In c two_points) [[0]; [10]].
Proof.
  apply (@kmeans_plusplus_returns_points float float_arith tape64 float_rs
           two_points 2%nat [1; 1] 2 [[0]; [10]] g_first0 (Tape [] [])).
  vm_compute. reflexivity.
Defined.

Lemma kmeans_plusplus_first_centroid_witness :
  let first_idx := fst (next_index (length two_points) g_first1) in
  (first_idx < length two_points)%nat
  /\ nth 0 [[10]; [0]] [] = nth first_idx two_points [].
Proof.
  apply (@kmeans_plusplus_first_centroid float float_arith tape64 float_rs
           two_points 2%nat [1; 1] 2 [[10]; [0]] g_first1 (Tape [] [])).
  vm_compute. reflexivity.
Defined.

Lemma kmeans_returns_update_of_labels_witness :
  let X := three_points in
  let centroids := [[1.5]; [4]] in
  let labels := [0; 0; 1]%nat in
  (labels = repeat 0%nat (length X)
   /\ exists g0 g1 : tape64,
        _kmeans_plusplus X (effective_weights [1; 1; 1]) 2 2%nat g0
        = (Ok centroids, g1))
  \/ exists prev (g1 g2 : tape64),
       assign X prev = Ok labels
       /\ update X (effective_weights [1; 1; 1]) 2 prev labels g1
          = (Ok centroids, g2).
Proof.
  apply (@kmeans_returns_update_of_labels float float_arith tape64 float_rs
           three_points [1; 1; 1] 2 100 2%nat None g_first0 (Tape [] [])
           [[1.5]; [4]] [0; 0; 1]%nat).
  vm_compute. reflexivity.
Defined.

Lemma kmeans_without_iterations_witness :
  [0; 0]%nat = repeat 0%nat (length two_points)
  /\ _kmeans_plusplus two_points (effective_weights [1; 1]) 2 2%nat
       (entry_state (Some 1%Z) g_first0)
     = (Ok [[10]; [0]], Tape [] [0.5; 0.5]).
Proof.
  apply (@kmeans_without_iterations float float_arith tape64 float_rs
           two_points [1; 1] 2 (-3) 2%nat (Some 1%Z) g_first0
           (Tape [] [0.5; 0.5]) [[10]; [0]] [0; 0]%nat).
  - lia.
  - vm_compute. reflexivity.
Defined.

Lemma update_without_empty_cluster_witness :
  exists r, forall g : tape64,
    update two_points [1; 1] 2 [[0]; [10]] [0; 1]%nat g = (r, g).
Proof.
  apply (@update_without_empty_cluster float float_arith tape64 float_rs
           two_points [1; 1] [0; 1]%nat 2 [[0]; [10]]).
  intros k Hk. unfold empty_cluster.
  destruct k as [|[|k]]; [discriminate|discriminate|simpl in Hk; lia].
Defined.

Lemma update_computes_weighted_means_witness :
  nth 0 [[1.75]; [4]] []
  = weighted_mean (length (hd [] three_points))
      (members three_points [0; 0; 1]%nat 0)
      (members [1; 3; 1] [0; 0; 1]%nat 0).
Proof.
  apply (@update_computes_weighted_means float float_arith tape64 float_rs
           three_points [1; 3; 1] [0; 0; 1]%nat 2 [[0]; [0]] [[1.75]; [4]]
           g_first0 g_first0 0%nat).
  - vm_compute. reflexivity.
  - simpl. lia.
  - unfold empty_cluster. discriminate.
Defined.

Lemma kmeans_single_cluster_witness :
  let mean :=
    weighted_mean (length (hd [] three_points)) three_points
      (effective_weights [1; 1; 1]) in
  [0; 0; 0]%nat = repeat 0%nat (length three_points)
  /\ ([[0x1.2aaaaaaaaaaabp+1]] = [mean]
      \/ exists x, In x three_points /\ [[0x1.2aaaaaaaaaaabp+1]] = [x]
                   /\ np_allclose [x] [mean] = true).
Proof.
  apply (@kmeans_single_cluster float float_arith tape64 float_rs
           three_points [1; 1; 1] 100 2%nat None g_first0
           (Tape [] [0.5; 0.5]) [[0x1.2aaaaaaaaaaabp+1]] [0; 0; 0]%nat).
  - lia.
  - vm_compute. reflexivity.
Defined.

Lemma assign_nearest_lowest_index_witness :
  let X := three_points in
  let centroids := [[4]; [1]; [1]] in
  let label := nth 1 [1; 1; 0]%nat 0%nat in
  let d j := dist (nth 1 X []) (nth j centroids []) in
  (label < length centroids)%nat
  /\ (forall j, (j < length centroids)%nat -> fltb (d j) (d label) = false)
  /\ (isnan (d label) = false ->
      forall j, (j < label)%nat -> fltb (d label) (d j) = true).
Proof.
  apply (@assign_nearest_lowest_index float float_arith
           Float64Laws.float_order_laws Float64WeakLaws.float_weak_order_laws
           1%nat three_points [[4]; [1]; [1]] [1; 1; 0]%nat 1%nat).
  - repeat constructor.
  - repeat constructor.
  - vm_compute. reflexivity.
  - simpl. lia.
Defined.

Lemma kmeans_plusplus_draw_count_witness :
  let g := (Tape [0%nat] [0.5; 0.5; 0.5; 0.5; 0.5; 0.5; 0.5], 0%nat) in
  let g' := (Tape [] [0.5], 7%nat) in
  snd g' = (snd g + 1 + (Z.to_nat 3 - 1) * Z.to_nat (2 + floor_ln 3))%nat.
Proof.
  apply (@kmeans_plusplus_draw_count float float_arith tape64 float_rs
           three_points [1; 1; 1] 3 2%nat [[1]; [4]; [2]]
           (Tape [0%nat] [0.5; 0.5; 0.5; 0.5; 0.5; 0.5; 0.5], 0%nat)
           (Tape [] [0.5], 7%nat)).
  vm_compute. reflexivity.
Defined.

Lemma update_draw_count_witness :
  let g := (g_first1, 5%nat) in
  let g' := (Tape [] [0.5; 0.5], 6%nat) in
  snd g' = (snd g + length (empty_clusters [0; 0]%nat 2))%nat.
Proof.
  apply (@update_draw_count float float_arith tape64 float_rs
           two_points [1; 1] 2 [[0]; [0]] [[5]; [10]] [0; 0]%nat
           (g_first1, 5%nat) (Tape [] [0.5; 0.5], 6%nat)).
  vm_compute. reflexivity.
Defined.

End Float64Instances.

Module ExactInstances.

Import Exact ExactLaws ExactVocabulary ExactSamples ExactTotal.

Local Open Scope R_scope.

Lemma counter_index_in_range : index_in_range (RS := counter_rs).
Proof. intros n g Hn. cbn. apply Nat.mod_upper_bound. lia. Qed.

Lemma counter_unit_draws : unit_draws (RS := counter_rs).
Proof. intros g. cbn. apply Rltb_true. lra. Qed.

Lemma unit_interval_run :
  exists centroids labels g',
    kmeans (RS := counter_rs) [[0]; [1]] [1; 1] 2 5 2%nat None 0%nat
    = (Ok (centroids, labels), g').
Proof.
  unfold kmeans, bind, ret.
  assert (Hne : [[0]; [1]] <> @nil (list R)) by discriminate.
  assert (Hl : length (effective_weights [1; 1]) = length [[0]; [1]]).
  { unfold effective_weights, np_ones_like.
    destruct (np_all_zero [1; 1]); reflexivity. }
  assert (Hn : nonneg (effective_weights [1; 1])).
  { unfold effective_weights, np_ones_like.
    destruct (np_all_zero [1; 1]); repeat constructor; cbn; lra. }
  fold (effective_weights [1; 1]).
  destruct (@kmeans_plusplus_total nat counter_rs counter_index_in_range
              counter_unit_draws [[0]; [1]] Hne (effective_weights [1; 1]) 2
              2%nat 0%nat Hl Hn ltac:(lia))
    as (c0 & g1 & -> & Hc0).
  apply (lloyd_total counter_index_in_range Hne); [exact Hl|lia|exact Hc0].
Qed.



Lemma rand_choice_inverts_cumulative_witness :
  let p := [1 / 4; 3 / 4] in
  exists rands idxs g',
    np_random_rand (RS := counter_rs) 2 0%nat = (Ok rands, g')
    /\ _numba_rand_choice (RS := counter_rs) 2 p 0%nat = (Ok idxs, g')
    /\ length rands = Z.to_nat 2
    /\ length idxs = length rands
    /\ forall n, (n < length rands)%nat ->
         let r := nth n rands 0 in
         let i := nth n idxs 0%nat in
         (i <= length p)%nat
         /\ (forall j, (j < i)%nat -> np_sum (firstn (S j) p) < r)
         /\ ((i < length p)%nat -> r <= np_sum (firstn (S i) p))
         /\ ((i < length p)%nat -> 0 < r -> 0 < nth i p 0).
Proof.
  apply (@ExactSampler.rand_choice_inverts_cumulative nat counter_rs 2
           [1 / 4; 3 / 4] 0%nat).
  - lia.
  - repeat constructor; lra.
Defined.






End ExactInstances.
